(** * Huffman compressor: a shallow embedding of [huffmanCompressor.py]

    The development follows the class [Huffman] of the source file: the
    frequency counter, the tree builder with its trace dictionary, the bit
    packer, the frame assembler and the tree-driven decoder.  Python values
    are modelled as the code has them: [bytes] as lists of integers, strings
    of the characters 0 and 1 as lists of [ascii], dictionaries as
    association lists in insertion order, the nested-list tree as [pyobj],
    and exceptions as an error result threaded through a state monad over
    the fields of the object.  Writing the product to a file or to the
    screen ([export_product], [new_out] and the [out_file] field) is
    input/output glue and is left out: the methods are modelled as called
    with [export=False]. *)

From Stdlib Require Import List ZArith Ascii Bool Lia Permutation Sorted.
Import ListNotations.
Local Open Scope Z_scope.

Set Implicit Arguments.

(* ------------------------------------------------------------------ *)
(** ** Python values and exceptions *)

(** The exceptions the two methods can raise. *)
Inductive exn : Type :=
| IndexError
| KeyError
| ValueError
| TypeError
| OverflowError
| UnpicklingError.

Inductive result (A : Type) : Type :=
| Ok (a : A)
| Raise (e : exn).

Arguments Ok {A} a.
Arguments Raise {A} e.

Definition rbind {A B} (r : result A) (k : A -> result B) : result B :=
  match r with
  | Ok a => k a
  | Raise e => Raise e
  end.

Fixpoint rmap {A B} (f : A -> result B) (l : list A) : result (list B) :=
  match l with
  | [] => Ok []
  | x :: l' => rbind (f x) (fun y => rbind (rmap f l') (fun ys => Ok (y :: ys)))
  end.

(** The tree of the source is a nested Python list whose items are either
    integers (byte values) or two-item lists. *)
#[warnings="-register-all"]
Inductive pyobj : Type :=
| PInt (n : Z)
| PList (items : list pyobj).

(** A string of the characters 0 and 1. *)
Definition str := list ascii.

Definition c0 : ascii := "0"%char.
Definition c1 : ascii := "1"%char.

Definition len {A} (l : list A) : Z := Z.of_nat (length l).

(** [l[i]]: a negative index counts from the end. *)
Definition index {A} (l : list A) (i : Z) : result A :=
  let j := if i <? 0 then len l + i else i in
  if j <? 0 then Raise IndexError
  else match nth_error l (Z.to_nat j) with
       | Some x => Ok x
       | None => Raise IndexError
       end.

(** [l[lo:hi]] and [l[lo:]] for non-negative bounds. *)
Definition slice {A} (lo hi : Z) (l : list A) : list A :=
  firstn (Z.to_nat hi - Z.to_nat lo) (skipn (Z.to_nat lo) l).

Definition slice_from {A} (lo : Z) (l : list A) : list A :=
  skipn (Z.to_nat lo) l.

(** [l[:stop]], where a negative [stop] counts from the end and [-0] is [0]. *)
Definition slice_to {A} (stop : Z) (l : list A) : list A :=
  if stop <? 0 then firstn (Z.to_nat (len l + stop)) l
  else firstn (Z.to_nat stop) l.

(** [l.pop(-1)]: the last item and the list without it. *)
Definition pop {A} (l : list A) : result (A * list A) :=
  match rev l with
  | [] => Raise IndexError
  | x :: r => Ok (x, rev r)
  end.

(** [range(0, stop, step)]. *)
Definition range_step (stop step : Z) : list Z :=
  map (fun i => Z.of_nat i * step) (seq 0 (Z.to_nat ((stop + step - 1) / step))).

(* ------------------------------------------------------------------ *)
(** ** Dictionaries, in insertion order *)

Definition dict (V : Type) := list (Z * V).

Definition keys {V} (d : dict V) : list Z := map fst d.

Fixpoint dict_get {V} (k : Z) (d : dict V) : option V :=
  match d with
  | [] => None
  | (k', v) :: d' => if k =? k' then Some v else dict_get k d'
  end.

(** [d[k] = v]: an existing key keeps its place, a new one goes last. *)
Fixpoint dict_set {V} (k : Z) (v : V) (d : dict V) : dict V :=
  match d with
  | [] => [(k, v)]
  | (k', v') :: d' => if k =? k' then (k', v) :: d' else (k', v') :: dict_set k v d'
  end.

(** [d1 | d2]. *)
Definition dict_union {V} (d1 d2 : dict V) : dict V :=
  fold_left (fun d kv => dict_set (fst kv) (snd kv) d) d2 d1.

(** [sorted(l, key=key, reverse=True)]: the stable sort, largest key first. *)
Fixpoint insert_desc {A} (key : A -> Z) (x : A) (l : list A) : list A :=
  match l with
  | [] => [x]
  | y :: l' => if key x <? key y then y :: insert_desc key x l' else x :: y :: l'
  end.

Definition sorted_desc {A} (key : A -> Z) (l : list A) : list A :=
  fold_right (insert_desc key) [] l.

(* ------------------------------------------------------------------ *)
(** ** Integers, bytes and bit strings *)

(** [int(c)] for one character. *)
Definition int_of_char (c : ascii) : result Z :=
  let n := Z.of_N (N_of_ascii c) in
  if (48 <=? n) && (n <=? 57) then Ok (n - 48) else Raise ValueError.

(** [int(s, 2)] for a string of binary digits. *)
Definition bit_value (c : ascii) : result Z :=
  if Ascii.eqb c c0 then Ok 0
  else if Ascii.eqb c c1 then Ok 1
  else Raise ValueError.

Definition int_base2 (s : str) : result Z :=
  match s with
  | [] => Raise ValueError
  | _ => fold_left (fun acc c => rbind acc (fun a => rbind (bit_value c) (fun b => Ok (2 * a + b))))
                   s (Ok 0)
  end.

(** [bin(n)[2:]]. *)
Fixpoint pos_digits (p : positive) : str :=
  match p with
  | xH => [c1]
  | xO p' => pos_digits p' ++ [c0]
  | xI p' => pos_digits p' ++ [c1]
  end.

Definition bin_digits (n : Z) : str :=
  match n with
  | Z0 => [c0]
  | Zpos p => pos_digits p
  | Zneg p => "b"%char :: pos_digits p
  end.

(** [s.zfill(width)] for a string without a sign. *)
Definition zfill (width : nat) (s : str) : str :=
  repeat c0 (width - length s) ++ s.

(** [bytearray(l)]. *)
Definition bytearray (l : list Z) : result (list Z) :=
  if forallb (fun n => (0 <=? n) && (n <? 256)) l then Ok l else Raise ValueError.

(** [n.to_bytes(2, "big")]. *)
Definition to_bytes2 (n : Z) : result (list Z) :=
  if (0 <=? n) && (n <? 65536) then Ok [n / 256; n mod 256] else Raise OverflowError.

(** [int.from_bytes(bs, "big")]. *)
Definition from_bytes (bs : list Z) : Z :=
  fold_left (fun acc b => 256 * acc + b) bs 0.

(* ------------------------------------------------------------------ *)
(** ** The tree codec

    The source serializes the tree with [pickle.dumps] and restores it with
    [pickle.loads]; the library is not part of the repository, so the codec
    is an interface the methods are parameterized by. *)

Class TreeCodec : Type := {
  dumps : pyobj -> list Z;
  loads : list Z -> result pyobj
}.

(* ------------------------------------------------------------------ *)
(** ** The object and its state monad *)

Record comp_tools_t : Type := {
  frequency : dict Z;
  tree : list pyobj;
  trace : dict str
}.

Record Huffman : Type := {
  worker : list Z;
  output : list Z;
  comp_tools : comp_tools_t
}.

Definition empty_tools : comp_tools_t :=
  {| frequency := []; tree := []; trace := [] |}.

Definition M (A : Type) : Type := Huffman -> result A * Huffman.

Definition ret {A} (a : A) : M A := fun self => (Ok a, self).

Definition bind {A B} (m : M A) (k : A -> M B) : M B :=
  fun self =>
    match m self with
    | (Ok a, self') => k a self'
    | (Raise e, self') => (Raise e, self')
    end.

Definition lift {A} (r : result A) : M A := fun self => (r, self).

Definition get_worker : M (list Z) := fun self => (Ok (worker self), self).

Definition set_worker (w : list Z) : M unit :=
  fun self => (Ok tt, {| worker := w; output := output self; comp_tools := comp_tools self |}).

Definition set_output (o : list Z) : M unit :=
  fun self => (Ok tt, {| worker := worker self; output := o; comp_tools := comp_tools self |}).

Definition set_comp_tools (c : comp_tools_t) : M unit :=
  fun self => (Ok tt, {| worker := worker self; output := output self; comp_tools := c |}).

Definition get_tools : M comp_tools_t := fun self => (Ok (comp_tools self), self).

Definition set_frequency (f : dict Z) : M unit :=
  bind get_tools (fun c =>
    set_comp_tools {| frequency := f; tree := tree c; trace := trace c |}).

Definition set_tree (t : list pyobj) : M unit :=
  bind get_tools (fun c =>
    set_comp_tools {| frequency := frequency c; tree := t; trace := trace c |}).

Definition set_trace (t : dict str) : M unit :=
  bind get_tools (fun c =>
    set_comp_tools {| frequency := frequency c; tree := tree c; trace := t |}).

Declare Scope huff_scope.
Delimit Scope huff_scope with huff.
Notation "x <- m ;; k" := (bind m (fun x => k))
  (at level 61, m at next level, right associativity) : huff_scope.
Notation "m ;; k" := (bind m (fun _ => k))
  (at level 61, right associativity) : huff_scope.
Local Open Scope huff_scope.

(** A [while] loop whose body may raise; [fuel] bounds the number of
    iterations, and every use below passes a bound the loop cannot reach. *)
Fixpoint while_loop {S} (fuel : nat) (cond : S -> bool) (body : S -> result S) (s : S) : result S :=
  match fuel with
  | O => Ok s
  | Datatypes.S fuel' =>
      if cond s then rbind (body s) (while_loop fuel' cond body) else Ok s
  end.

(* ------------------------------------------------------------------ *)
(** ** [Huffman.__init__] and [Huffman.new_worker], for a [bytes] argument *)

(** The truth value of an optional [bytes] argument: [None] and [b""] are
    false. *)
Definition truthy (alt_in : option (list Z)) : bool :=
  match alt_in with
  | Some (_ :: _) => true
  | _ => false
  end.

Definition new_worker (new_in : list Z) : M unit :=
  set_output [] ;;
  set_comp_tools empty_tools ;;
  set_worker new_in.

Definition use_alt_in (alt_in : option (list Z)) : M unit :=
  match alt_in with
  | Some new_in => if truthy alt_in then new_worker new_in else ret tt
  | None => ret tt
  end.

(** The object after [Huffman(content_in)]. *)
Definition new_Huffman (content_in : list Z) : Huffman :=
  snd (new_worker content_in {| worker := []; output := []; comp_tools := empty_tools |}).

(* ------------------------------------------------------------------ *)
(** ** [Huffman.compress] *)

(** The frequency counter. *)
Definition count_char (working_frequency : dict Z) (char : Z) : dict Z :=
  match dict_get char working_frequency with
  | Some n => dict_set char (n + 1) working_frequency
  | None => dict_set char 1 working_frequency
  end.

Definition count_frequency (w : list Z) : dict Z :=
  fold_left count_char w [].

(** A candidate of the working list: (tree, frequency, trace). *)
Definition cand : Type := pyobj * Z * dict str.

Definition cand_tree (c : cand) : pyobj := fst (fst c).
Definition cand_freq (c : cand) : Z := snd (fst c).
Definition cand_trace (c : cand) : dict str := snd c.

Definition initial_candidates (freq : dict Z) : list cand :=
  map (fun char : Z * Z => (PInt (fst char), snd char, [(fst char, [])]))
      (sorted_desc snd freq).

Definition char_count (app_val : str) (count_loc : dict str) : dict str :=
  map (fun item : Z * str => (fst item, app_val ++ snd item)) count_loc.

(** The branch made of the two popped candidates. *)
Definition new_branch (set1 set2 : cand) : cand :=
  let branch_worker := PList [cand_tree set1; cand_tree set2] in
  let branch_freq := cand_freq set1 + cand_freq set2 in
  let char_tracker :=
    dict_union (char_count [c0] (cand_trace set1)) (char_count [c1] (cand_trace set2)) in
  (branch_worker, branch_freq, char_tracker).

(** One iteration of the builder loop. *)
Definition loop_body (sorted_frequency : list cand) : result (list cand) :=
  rbind (pop sorted_frequency) (fun p1 =>
  rbind (pop (snd p1)) (fun p2 =>
    Ok (sorted_desc cand_freq (snd p2 ++ [new_branch (fst p1) (fst p2)])))).

Definition loop_cond (sorted_frequency : list cand) : bool :=
  2 <? len sorted_frequency.

Definition build_loop (sorted_frequency : list cand) : result (list cand) :=
  while_loop (length sorted_frequency) loop_cond loop_body sorted_frequency.

(** [trace[char]]. *)
Definition dict_lookup {V} (d : dict V) (k : Z) : result V :=
  match dict_get k d with
  | Some v => Ok v
  | None => Raise KeyError
  end.

Definition encode (tr : dict str) (w : list Z) : result str :=
  rbind (rmap (dict_lookup tr) w) (fun codes => Ok (concat codes)).

(** The padding loop, on the pair (encoded, padding). *)
Definition pad_cond (s : str * Z) : bool := negb (len (fst s) mod 8 =? 0).

Definition pad_body (s : str * Z) : result (str * Z) :=
  Ok (fst s ++ [c1], snd s + 1).

Definition pad_loop (encoded : str) : result (str * Z) :=
  while_loop 8 pad_cond pad_body (encoded, 0).

Definition chunk_ints (encoded : str) : result (list Z) :=
  rmap (fun chunk => int_base2 (slice chunk (chunk + 8) encoded))
       (range_step (len encoded) 8).

Section Methods.
Context {codec : TreeCodec}.

Definition compress (alt_in : option (list Z)) : M unit :=
  use_alt_in alt_in ;;
  w <- get_worker ;;
  set_frequency (count_frequency w) ;;
  tools <- get_tools ;;
  sorted_frequency <- lift (build_loop (initial_candidates (frequency tools))) ;;
  set_tree (map cand_tree sorted_frequency) ;;
  first <- lift (index sorted_frequency 0) ;;
  second <- lift (index sorted_frequency 1) ;;
  set_trace (dict_union (char_count [c0] (cand_trace first))
                        (char_count [c1] (cand_trace second))) ;;
  tools <- get_tools ;;
  encoded <- lift (encode (trace tools) w) ;;
  padded <- lift (pad_loop encoded) ;;
  ints <- lift (chunk_ints (fst padded)) ;;
  byte_convert <- lift (bytearray (snd padded :: ints)) ;;
  let pickle_tree := dumps (PList (tree tools)) in
  len_tree <- lift (to_bytes2 (len pickle_tree)) ;;
  set_output (len_tree ++ pickle_tree ++ byte_convert).

(* ------------------------------------------------------------------ *)
(** ** [Huffman.decompress] *)

Fixpoint recursion (branch : pyobj) (section : str) : result (Z * str) :=
  match section with
  | [] => Raise IndexError
  | bit :: cut_down =>
      match int_of_char bit with
      | Raise e => Raise e
      | Ok new_val =>
          match branch with
          | PInt _ => Raise TypeError
          | PList items =>
              match index items new_val with
              | Raise e => Raise e
              | Ok (PInt char) => Ok (char, cut_down)
              | Ok sub => recursion sub cut_down
              end
          end
      end
  end.

(** The decoding loop, on the pair (bit_string, decoded). *)
Definition decode_cond (s : str * list Z) : bool :=
  match fst s with
  | [] => false
  | _ => true
  end.

Definition decode_body (decomp_tree : pyobj) (s : str * list Z) : result (str * list Z) :=
  rbind (recursion decomp_tree (fst s)) (fun r => Ok (snd r, snd s ++ [fst r])).

Definition decode_loop (decomp_tree : pyobj) (bit_string : str) : result (str * list Z) :=
  while_loop (length bit_string) decode_cond (decode_body decomp_tree) (bit_string, []).

Definition bits_of_bytes (decomp_string : list Z) : str :=
  concat (map (fun num => zfill 8 (bin_digits num)) decomp_string).

(** The frame split at the head of [decompress]:
    (decomp_tree, padding, decomp_string). *)
Definition split_frame (w : list Z) : result (pyobj * Z * list Z) :=
  let len_tree := from_bytes (slice 0 2 w) in
  rbind (loads (slice 2 (len_tree + 2) w)) (fun decomp_tree =>
  rbind (index w (len_tree + 2)) (fun padding =>
  Ok (decomp_tree, padding, slice_from (len_tree + 3) w))).

Definition decompress (alt_in : option (list Z)) : M unit :=
  use_alt_in alt_in ;;
  w <- get_worker ;;
  parts <- lift (split_frame w) ;;
  let decomp_tree := fst (fst parts) in
  let padding := snd (fst parts) in
  let decomp_string := snd parts in
  let bit_string := slice_to (- padding) (bits_of_bytes decomp_string) in
  decoded <- lift (decode_loop decomp_tree bit_string) ;;
  out <- lift (bytearray (snd decoded)) ;;
  set_output out.

(** The engine interface: a buffer in, a buffer or an exception out. *)
Definition run (m : M unit) (content_in : list Z) : result (list Z) :=
  match m (new_Huffman content_in) with
  | (Ok _, self) => Ok (output self)
  | (Raise e, _) => Raise e
  end.

Definition compress_bytes (buffer : list Z) : result (list Z) := run (compress None) buffer.
Definition decompress_bytes (frame : list Z) : result (list Z) := run (decompress None) frame.

End Methods.

(* ------------------------------------------------------------------ *)
(** ** A concrete codec *)

(** The blob of an object: an integer is a tag and its value, a list is a
    tag, its item count and its items. *)
Fixpoint encode_obj (t : pyobj) : list Z :=
  match t with
  | PInt n => [75; n]
  | PList items => [93; len items] ++ concat (map encode_obj items)
  end.

(** Reads one object off the front of the bytes and returns what follows
    it. *)
Fixpoint decode_obj (fuel : nat) (bs : list Z) : result (pyobj * list Z) :=
  match fuel with
  | O => Raise UnpicklingError
  | S fuel' =>
      match bs with
      | 75 :: n :: rest => Ok (PInt n, rest)
      | 93 :: k :: rest =>
          rbind
            ((fix items (count : nat) (bs : list Z) : result (list pyobj * list Z) :=
                match count with
                | O => Ok ([], bs)
                | S count' =>
                    rbind (decode_obj fuel' bs) (fun x =>
                    rbind (items count' (snd x)) (fun xs =>
                    Ok (fst x :: fst xs, snd xs)))
                end) (Z.to_nat k) rest)
            (fun r => Ok (PList (fst r), snd r))
      | _ => Raise UnpicklingError
      end
  end.

(** Modelled from the spec: the tree codec, which the source takes from
    Python's pickle library and which is not part of the repository.  The
    spec asks for any self-describing binary encoding that restores the
    tree it serialized; this one ends the blob of the tree with a stop
    byte, after which [loads] reads no further.  It is used to run the
    methods on concrete buffers. *)
Definition list_codec : TreeCodec := {|
  dumps := fun t => encode_obj t ++ [46];
  loads := fun bs =>
    rbind (decode_obj (length bs) bs) (fun r =>
      match snd r with
      | 46 :: _ => Ok (fst r)
      | _ => Raise UnpicklingError
      end)
|}.

(** The buffers of the scenarios. *)
Definition ab8 : list Z := [97; 98; 97; 98; 97; 98; 97; 98].
Definition abc9 : list Z := [97; 98; 99; 97; 98; 99; 97; 98; 99].
Definition aaaa : list Z := [97; 97; 97; 97].

(* ------------------------------------------------------------------ *)
(** ** Predicates of the statements *)

(** The buffer holds at least two distinct byte values. *)
Definition two_distinct (w : list Z) : Prop :=
  exists a b, In a w /\ In b w /\ a <> b.

Definition is_bit (c : ascii) : Prop := c = c0 \/ c = c1.

Definition is_prefix (p s : str) : Prop := exists t, s = p ++ t.

(** No code of the table is a prefix of the code of another key. *)
Definition prefix_free (d : dict str) : Prop :=
  forall k1 v1 k2 v2,
    In (k1, v1) d -> In (k2, v2) d -> is_prefix v1 v2 -> k1 = k2.

(** Largest frequency first. *)
Definition desc {A} (key : A -> Z) (a b : A) : Prop := key b <= key a.

(** The working lists the builder loop goes through, from its first one. *)
Inductive loop_state (init : list cand) : list cand -> Prop :=
| loop_first : loop_state init init
| loop_next sf sf' :
    loop_state init sf -> loop_cond sf = true -> loop_body sf = Ok sf' ->
    loop_state init sf'.

Definition bits_ok (d : dict str) : Prop :=
  Forall (fun kv => Forall is_bit (snd kv)) d.

Definition is_byte (n : Z) : Prop := 0 <= n < 256.

Definition all_keys (sf : list cand) : list Z :=
  flat_map (fun c => keys (cand_trace c)) sf.

(** What every working list of the builder satisfies: each candidate's
    trace is prefix-free and made of bits, no key is in two candidates, and
    the keys are those of the frequency table. *)
Definition trace_inv (freq_keys : list Z) (sf : list cand) : Prop :=
  Forall (fun c => prefix_free (cand_trace c) /\ bits_ok (cand_trace c)) sf /\
  NoDup (all_keys sf) /\
  Permutation (all_keys sf) freq_keys.

(** The trace of a candidate agrees with its tree: a leaf has the empty
    code, and under a branch the decoder walks every code of the trace down
    to its byte value and hands back what follows the code. *)
Definition cand_consistent (c : cand) : Prop :=
  match cand_tree c with
  | PInt k => cand_trace c = [(k, [])]
  | PList _ =>
      forall k code rest,
        In (k, code) (cand_trace c) -> recursion (cand_tree c) (code ++ rest) = Ok (k, rest)
  end.

(** The trace the builder stores, from its two top-level candidates. *)
Definition final_trace (first second : cand) : dict str :=
  dict_union (char_count [c0] (cand_trace first)) (char_count [c1] (cand_trace second)).

(** The results of the stages of one compression of the buffer [w]. *)
Record stages (w : list Z) (first second : cand) (encoded : str) (p : nat)
       (ints : list Z) : Prop := {
  st_build : build_loop (initial_candidates (count_frequency w)) = Ok [first; second];
  st_nodup : NoDup (keys (final_trace first second));
  st_keys : Permutation (keys (final_trace first second)) (keys (count_frequency w));
  st_prefix : prefix_free (final_trace first second);
  st_walk : forall k code rest,
      In (k, code) (final_trace first second) ->
      recursion (PList [cand_tree first; cand_tree second]) (code ++ rest) = Ok (k, rest);
  st_encode : encode (final_trace first second) w = Ok encoded;
  st_bound : (p <= 7)%nat;
  st_pad : pad_loop encoded = Ok (encoded ++ repeat c1 p, Z.of_nat p);
  st_mod : len (encoded ++ repeat c1 p) mod 8 = 0;
  st_least : forall q : nat, len (encoded ++ repeat c1 q) mod 8 = 0 -> (p <= q)%nat;
  st_chunk : chunk_ints (encoded ++ repeat c1 p) = Ok ints;
  st_bytes : Forall is_byte ints;
  st_bits : bits_of_bytes ints = encoded ++ repeat c1 p
}.

(** The frame layout: a two-byte big-endian tree length, the serialized
    tree, the padding count, the packed bits. *)
Definition frame (tree_bytes : list Z) (padding : Z) (packed : list Z) : list Z :=
  [len tree_bytes / 256; len tree_bytes mod 256] ++ tree_bytes ++ padding :: packed.

(** The buffer a call works on: [alt_in] when it is truthy, the stored
    worker otherwise. *)
Definition worker_of (alt_in : option (list Z)) (self : Huffman) : list Z :=
  worker (snd (use_alt_in alt_in self)).

(** The notions of the further properties. *)

(** The count stored for a key, 0 for a key that is not in the table. *)
Definition count_of (d : dict Z) (k : Z) : Z :=
  match dict_get k d with
  | Some n => n
  | None => 0
  end.

(** The distinct values of a list, in the order of their first occurrence. *)
Definition first_seen (w : list Z) : list Z := rev (nodup Z.eq_dec (rev w)).

(** The leaf candidate of an entry of the frequency table. *)
Definition leaf_cand (char : Z * Z) : cand := (PInt (fst char), snd char, [(fst char, [])]).

Definition zsum (l : list Z) : Z := fold_right Z.add 0 l.

(** The number of bytes of the buffer whose value is one of [ks]. *)
Definition occurrences (w : list Z) (ks : list Z) : Z :=
  zsum (map (fun k => Z.of_nat (count_occ Z.eq_dec w k)) ks).

(** The frequency of each candidate is the number of bytes of the buffer
    under its keys. *)
Definition weight_inv (w : list Z) (sf : list cand) : Prop :=
  Forall (fun c => cand_freq c = occurrences w (keys (cand_trace c))) sf.

(** A binary tree of the source's kind: an integer, or a list of two
    binary trees. *)
Inductive binary : pyobj -> Prop :=
| binary_leaf n : binary (PInt n)
| binary_branch a b : binary a -> binary b -> binary (PList [a; b]).

(** The integers of a tree, left to right. *)
Fixpoint leaves (t : pyobj) : list Z :=
  match t with
  | PInt n => [n]
  | PList items => concat (map leaves items)
  end.

(** The subtree a string of bits leads to, read as the decoder reads it. *)
Fixpoint descend (t : pyobj) (path : str) : option pyobj :=
  match path with
  | [] => Some t
  | bit :: path' =>
      match t with
      | PInt _ => None
      | PList items =>
          match int_of_char bit with
          | Ok new_val =>
              match index items new_val with
              | Ok sub => descend sub path'
              | Raise _ => None
              end
          | Raise _ => None
          end
      end
  end.

(** The tree of a candidate is binary, its leaves are the keys of the
    trace in the same order, and the trace lists exactly the paths from the
    root to the leaves. *)
Definition cand_shape (c : cand) : Prop :=
  binary (cand_tree c) /\
  leaves (cand_tree c) = keys (cand_trace c) /\
  (forall k code, In (k, code) (cand_trace c) <-> descend (cand_tree c) code = Some (PInt k)).

(** The trace of a candidate is not empty and each of its codes is shorter
    than the number of its entries. *)
Definition cand_short (c : cand) : Prop :=
  cand_trace c <> [] /\
  forall k code, In (k, code) (cand_trace c) -> (length code < length (cand_trace c))%nat.

(** The bits of a message cost, per key of the table, its number of
    occurrences times the length of its code. *)
Definition code_cost (m : list Z) (tr : dict str) : Z :=
  zsum (map (fun e => Z.of_nat (count_occ Z.eq_dec m (fst e)) * len (snd e)) tr).

(** The number of bytes of the buffer under a tree. *)
Definition weight (w : list Z) (t : pyobj) : Z := occurrences w (leaves t).

(** Every subtree below a root weighs no more than any candidate. *)
Definition inner_below_roots (w : list Z) (sf : list cand) : Prop :=
  forall c p u c',
    In c sf -> p <> [] -> descend (cand_tree c) p = Some u -> In c' sf ->
    weight w u <= cand_freq c'.

(** Of two branches of the working list, the one with a lighter child
    weighs less, unless they are the same branch. *)
Definition parents_ordered (w : list Z) (sf : list cand) : Prop :=
  forall c1 p1 a1 b1 c2 p2 a2 b2 u v,
    In c1 sf -> In c2 sf ->
    descend (cand_tree c1) p1 = Some (PList [a1; b1]) ->
    descend (cand_tree c2) p2 = Some (PList [a2; b2]) ->
    u = a1 \/ u = b1 -> v = a2 \/ v = b2 ->
    weight w u < weight w v ->
    weight w (PList [a1; b1]) < weight w (PList [a2; b2]) \/
    PList [a1; b1] = PList [a2; b2].

(** Of two subtrees of the working list, the lighter one is at least as
    deep in its candidate as the heavier one. *)
Definition lighter_deeper (w : list Z) (sf : list cand) : Prop :=
  forall c1 p1 u c2 p2 v,
    In c1 sf -> In c2 sf ->
    descend (cand_tree c1) p1 = Some u -> descend (cand_tree c2) p2 = Some v ->
    weight w u < weight w v -> (length p2 <= length p1)%nat.

(** What the builder loop keeps of a working list, as far as depths go. *)
Record depth_facts (w : list Z) (sf : list cand) : Prop := {
  df_binary : forall c, In c sf -> binary (cand_tree c);
  df_leaves : forall c, In c sf -> leaves (cand_tree c) = keys (cand_trace c);
  df_weight : forall c, In c sf -> cand_freq c = weight w (cand_tree c);
  df_keys : NoDup (all_keys sf);
  df_sorted : StronglySorted (desc cand_freq) sf;
  df_roots : inner_below_roots w sf;
  df_parents : parents_ordered w sf;
  df_depth : lighter_deeper w sf
}.

(** The lists of depths the leaves of a binary tree can have, in any
    order. *)
Inductive shape : list nat -> Prop :=
| shape_leaf : shape [0%nat]
| shape_node l1 l2 : shape l1 -> shape l2 -> shape (map S l1 ++ map S l2)
| shape_perm l l' : Permutation l l' -> shape l -> shape l'.

(** The leaves of a tree, left to right, each with its depth. *)
Fixpoint leaf_depths (t : pyobj) : list (Z * nat) :=
  match t with
  | PInt n => [(n, 0%nat)]
  | PList items => map (fun e => (fst e, S (snd e))) (concat (map leaf_depths items))
  end.

(** The bits the buffer takes when every byte is written as the path from
    the root of the tree to its leaf. *)
Definition tree_cost (w : list Z) (t : pyobj) : Z :=
  zsum (map (fun e => Z.of_nat (count_occ Z.eq_dec w (fst e)) * Z.of_nat (snd e))
            (leaf_depths t)).

(** The cost of weights put at depths. *)
Definition assigned_cost (A : list (Z * nat)) : Z :=
  zsum (map (fun e => fst e * Z.of_nat (snd e)) A).

(** The cost inside the candidates of a working list. *)
Definition base_cost (w : list Z) (sf : list cand) : Z :=
  zsum (map (fun c => tree_cost w (cand_tree c)) sf).

(** The depths of the leaves of a candidate's tree are the lengths of the
    codes of its trace. *)
Definition cand_depths (c : cand) : Prop :=
  leaf_depths (cand_tree c) = map (fun e => (fst e, length (snd e))) (cand_trace c).

(** Linear arithmetic with [mod] and [/] by constants. *)
Ltac zmod := Z.div_mod_to_equations; lia.

(** Runs the monadic operations of a method up to its next stage. *)
Ltac run_monad :=
  cbv beta iota zeta delta
    [compress decompress bind use_alt_in ret get_worker set_frequency get_tools
     set_comp_tools lift set_tree set_trace set_output set_worker new_worker];
  cbn [worker output comp_tools frequency tree trace].

(* ------------------------------------------------------------------ *)
(** ** Lists, sorting and popping *)

Lemma len_app {A} (l1 l2 : list A) : len (l1 ++ l2) = len l1 + len l2.
Proof. unfold len. rewrite length_app. lia. Qed.

Lemma len_nonneg {A} (l : list A) : 0 <= len l.
Proof. unfold len. lia. Qed.

Lemma index_nonneg {A} (l : list A) i :
  0 <= i -> index l i = match nth_error l (Z.to_nat i) with
                        | Some x => Ok x
                        | None => Raise IndexError
                        end.
Proof.
  intros H. unfold index.
  destruct (i <? 0) eqn:E; [apply Z.ltb_lt in E; lia|]. now rewrite E.
Qed.

Lemma index_first {A} (a : A) l : index (a :: l) 0 = Ok a.
Proof. reflexivity. Qed.

Lemma index_second {A} (a b : A) l : index (a :: b :: l) 1 = Ok b.
Proof. reflexivity. Qed.

Lemma insert_desc_perm {A} (key : A -> Z) x l :
  Permutation (insert_desc key x l) (x :: l).
Proof.
  induction l as [|y l IH]; simpl.
  - reflexivity.
  - destruct (key x <? key y).
    + rewrite IH. apply perm_swap.
    + reflexivity.
Qed.

Lemma sorted_desc_perm {A} (key : A -> Z) l : Permutation (sorted_desc key l) l.
Proof.
  induction l as [|x l IH]; simpl.
  - reflexivity.
  - rewrite insert_desc_perm. now constructor.
Qed.

Lemma sorted_desc_length {A} (key : A -> Z) l :
  length (sorted_desc key l) = length l.
Proof. apply Permutation_length, sorted_desc_perm. Qed.

Lemma insert_desc_sorted {A} (key : A -> Z) x l :
  StronglySorted (desc key) l -> StronglySorted (desc key) (insert_desc key x l).
Proof.
  induction 1 as [|y l Hs IH Hall]; simpl.
  - repeat constructor.
  - destruct (key x <? key y) eqn:E.
    + constructor; [exact IH|].
      eapply Permutation_Forall; [symmetry; apply insert_desc_perm|].
      constructor; [unfold desc; lia | exact Hall].
    + constructor.
      * now constructor.
      * constructor; [unfold desc; lia|].
        eapply Forall_impl; [|exact Hall]. unfold desc. intros; lia.
Qed.

Lemma sorted_desc_sorted {A} (key : A -> Z) l :
  StronglySorted (desc key) (sorted_desc key l).
Proof.
  induction l as [|x l IH]; simpl.
  - constructor.
  - now apply insert_desc_sorted.
Qed.

Lemma sorted_map {A B} (f : A -> B) (ka : A -> Z) (kb : B -> Z) l :
  (forall a, kb (f a) = ka a) ->
  StronglySorted (desc ka) l -> StronglySorted (desc kb) (map f l).
Proof.
  intros Hk. induction 1 as [|x l Hs IH Hall]; simpl; constructor.
  - exact IH.
  - apply Forall_map. eapply Forall_impl; [|exact Hall].
    unfold desc. intros a. now rewrite !Hk.
Qed.

(** In a list sorted largest first, the last two items are the smallest. *)
Lemma sorted_last_two {A} (key : A -> Z) rest a b :
  StronglySorted (desc key) (rest ++ [a; b]) ->
  key b <= key a /\ Forall (fun x => key a <= key x) rest.
Proof.
  induction rest as [|x rest IH]; simpl; intros H.
  - inversion H as [|? ? _ Hall]; subst. inversion Hall; subst. split; [assumption|constructor].
  - inversion H as [|? ? Hs Hall]; subst.
    destruct (IH Hs) as [Hab Hrest]. split; [exact Hab|].
    constructor; [|exact Hrest].
    rewrite Forall_app in Hall. destruct Hall as [_ Hall].
    inversion Hall; subst. assumption.
Qed.

Lemma pop_snoc {A} (l : list A) x : pop (l ++ [x]) = Ok (x, l).
Proof. unfold pop. rewrite rev_app_distr. simpl. now rewrite rev_involutive. Qed.

Lemma last_two {A} (l : list A) :
  (2 <= length l)%nat -> exists rest a b, l = rest ++ [a; b].
Proof.
  intros H. destruct (rev l) as [|b [|a r]] eqn:E.
  - apply (f_equal (@length A)) in E. rewrite length_rev in E. simpl in E. lia.
  - apply (f_equal (@length A)) in E. rewrite length_rev in E. simpl in E. lia.
  - exists (rev r), a, b.
    rewrite <- (rev_involutive l), E. simpl. now rewrite <- app_assoc.
Qed.

Lemma loop_body_snoc rest set2 set1 :
  loop_body (rest ++ [set2; set1]) =
  Ok (sorted_desc cand_freq (rest ++ [new_branch set1 set2])).
Proof.
  unfold loop_body.
  replace (rest ++ [set2; set1]) with ((rest ++ [set2]) ++ [set1])
    by now rewrite <- app_assoc.
  rewrite pop_snoc. simpl. now rewrite pop_snoc.
Qed.

Lemma loop_cond_true sf : loop_cond sf = true <-> (2 < length sf)%nat.
Proof. unfold loop_cond, len. rewrite Z.ltb_lt. lia. Qed.

Lemma loop_cond_false sf : loop_cond sf = false <-> (length sf <= 2)%nat.
Proof. unfold loop_cond, len. rewrite Z.ltb_ge. lia. Qed.

Lemma loop_body_length sf sf' :
  loop_cond sf = true -> loop_body sf = Ok sf' -> S (length sf') = length sf.
Proof.
  intros Hc Hb. apply loop_cond_true in Hc.
  destruct (last_two sf) as (rest & a & b & ->); [lia|].
  rewrite loop_body_snoc in Hb. injection Hb as <-.
  rewrite sorted_desc_length, !length_app. simpl. lia.
Qed.

Lemma loop_body_ok sf :
  loop_cond sf = true -> exists sf', loop_body sf = Ok sf'.
Proof.
  intros Hc. apply loop_cond_true in Hc.
  destruct (last_two sf) as (rest & a & b & ->); [lia|].
  rewrite loop_body_snoc. eauto.
Qed.

(** The fuel is never the reason the builder loop stops. *)
Lemma while_build_fuel fuel1 fuel2 sf :
  (length sf <= fuel1 + 2)%nat -> (length sf <= fuel2 + 2)%nat ->
  while_loop fuel1 loop_cond loop_body sf = while_loop fuel2 loop_cond loop_body sf.
Proof.
  revert fuel2 sf. induction fuel1 as [|fuel1 IH]; intros [|fuel2] sf H1 H2; simpl;
    try reflexivity;
    destruct (loop_cond sf) eqn:E; try reflexivity;
    try (apply loop_cond_true in E; lia).
  destruct (loop_body_ok sf E) as [sf' Hb]. rewrite Hb. simpl.
  pose proof (loop_body_length sf E Hb) as Hl.
  apply IH; lia.
Qed.

(** The builder loop as the source writes it. *)
Lemma build_loop_unroll sf :
  build_loop sf = if loop_cond sf then rbind (loop_body sf) build_loop else Ok sf.
Proof.
  unfold build_loop at 1.
  destruct (length sf) as [|n] eqn:Hn; simpl.
  - destruct (loop_cond sf) eqn:E; [|reflexivity].
    apply loop_cond_true in E. lia.
  - destruct (loop_cond sf) eqn:E; [|reflexivity].
    destruct (loop_body_ok sf E) as [sf' Hb]. rewrite Hb. simpl.
    pose proof (loop_body_length sf E Hb) as Hl.
    apply while_build_fuel; lia.
Qed.

(** The loop preserves any property its body preserves and ends with at
    most two candidates, exactly two when it started with at least two. *)
Lemma build_loop_inv (P : list cand -> Prop) :
  (forall sf sf', P sf -> loop_cond sf = true -> loop_body sf = Ok sf' -> P sf') ->
  forall sf, P sf ->
  exists sf', build_loop sf = Ok sf' /\ P sf' /\ loop_state sf sf' /\
              length sf' = Nat.min (length sf) 2.
Proof.
  intros Hstep sf.
  remember (length sf) as n eqn:Hn. revert sf Hn.
  induction n as [n IH] using lt_wf_ind. intros sf Hn HP.
  rewrite build_loop_unroll. destruct (loop_cond sf) eqn:E.
  - destruct (loop_body_ok sf E) as [sf1 Hb]. rewrite Hb. simpl.
    pose proof (loop_body_length sf E Hb) as Hl.
    apply loop_cond_true in E as E'.
    destruct (IH (length sf1)) with (sf := sf1) as (sf' & H1 & H2 & H3 & H4);
      [lia | reflexivity | eapply Hstep; eauto |].
    exists sf'. repeat split; try assumption.
    + clear - H3 E Hb. induction H3.
      * eapply loop_next; [apply loop_first | exact E | exact Hb].
      * eapply loop_next; eauto.
    + lia.
  - exists sf. apply loop_cond_false in E.
    repeat split; [assumption | constructor | lia].
Qed.

(* ------------------------------------------------------------------ *)
(** ** Dictionaries *)

Lemma dict_get_some {V} k (d : dict V) v : dict_get k d = Some v -> In (k, v) d.
Proof.
  induction d as [|[k' v'] d IH]; simpl; [discriminate|].
  destruct (k =? k') eqn:E.
  - apply Z.eqb_eq in E. intros [= ->]. subst. now left.
  - intros H. right. now apply IH.
Qed.

Lemma dict_get_none {V} k (d : dict V) : dict_get k d = None <-> ~ In k (keys d).
Proof.
  induction d as [|[k' v'] d IH]; simpl.
  - tauto.
  - destruct (k =? k') eqn:E.
    + apply Z.eqb_eq in E. subst. split; [discriminate | tauto].
    + apply Z.eqb_neq in E. rewrite IH. split; [intros H [H'|H']; congruence | tauto].
Qed.

Lemma dict_get_in_keys {V} k (d : dict V) :
  In k (keys d) -> exists v, dict_get k d = Some v.
Proof.
  intros H. destruct (dict_get k d) eqn:E; [eauto|].
  apply dict_get_none in E. contradiction.
Qed.

Lemma dict_set_new {V} k (v : V) d : ~ In k (keys d) -> dict_set k v d = d ++ [(k, v)].
Proof.
  induction d as [|[k' v'] d IH]; simpl; intros H; [reflexivity|].
  destruct (k =? k') eqn:E.
  - apply Z.eqb_eq in E. subst. tauto.
  - rewrite IH; tauto.
Qed.

Lemma dict_set_keys_old {V} k (v : V) d : In k (keys d) -> keys (dict_set k v d) = keys d.
Proof.
  induction d as [|[k' v'] d IH]; simpl; intros H; [contradiction|].
  destruct (k =? k') eqn:E; simpl; [reflexivity|].
  apply Z.eqb_neq in E. f_equal. apply IH. destruct H; congruence.
Qed.

Lemma keys_app {V} (d1 d2 : dict V) : keys (d1 ++ d2) = keys d1 ++ keys d2.
Proof. apply map_app. Qed.

(** The union of two dictionaries with no key in common lists the first,
    then the second. *)
Lemma dict_union_disjoint {V} (d2 d1 : dict V) :
  NoDup (keys d1 ++ keys d2) -> dict_union d1 d2 = d1 ++ d2.
Proof.
  unfold dict_union. revert d1. induction d2 as [|[k v] d2 IH]; intros d1 H; simpl.
  - now rewrite app_nil_r.
  - simpl in H. rewrite dict_set_new.
    + rewrite IH; [now rewrite <- app_assoc|].
      rewrite keys_app. simpl. now rewrite <- app_assoc.
    + apply NoDup_remove_2 in H. intros Hin. apply H. apply in_or_app. now left.
Qed.

Lemma char_count_keys app_val d : keys (char_count app_val d) = keys d.
Proof. unfold char_count, keys. rewrite map_map. reflexivity. Qed.

Lemma char_count_in app_val d k v :
  In (k, v) (char_count app_val d) <-> exists v', v = app_val ++ v' /\ In (k, v') d.
Proof.
  unfold char_count. rewrite in_map_iff. split.
  - intros [[k' v'] [[= <- <-] H]]. eauto.
  - intros [v' [-> H]]. exists (k, v'). auto.
Qed.

(** The trace of two sub-traces with no key in common: the codes of the
    first behind a 0, then the codes of the second behind a 1. *)
Lemma join_traces (t1 t2 : dict str) :
  NoDup (keys t1 ++ keys t2) ->
  dict_union (char_count [c0] t1) (char_count [c1] t2) =
  char_count [c0] t1 ++ char_count [c1] t2.
Proof. intros H. apply dict_union_disjoint. now rewrite !char_count_keys. Qed.

Lemma joined_prefix_free t1 t2 :
  prefix_free t1 -> prefix_free t2 ->
  prefix_free (char_count [c0] t1 ++ char_count [c1] t2).
Proof.
  intros H1 H2 k1 v1 k2 v2 Ha Hb [t Hp].
  apply in_app_or in Ha. apply in_app_or in Hb.
  destruct Ha as [Ha|Ha]; apply char_count_in in Ha; destruct Ha as [v1' [-> Ha]];
    destruct Hb as [Hb|Hb]; apply char_count_in in Hb; destruct Hb as [v2' [-> Hb]];
    simpl in Hp; try discriminate; injection Hp as Hp.
  - apply (H1 k1 v1' k2 v2' Ha Hb). now exists t.
  - apply (H2 k1 v1' k2 v2' Ha Hb). now exists t.
Qed.

Lemma joined_bits_ok t1 t2 :
  bits_ok t1 -> bits_ok t2 -> bits_ok (char_count [c0] t1 ++ char_count [c1] t2).
Proof.
  unfold bits_ok, char_count. intros H1 H2. apply Forall_app. split; apply Forall_map.
  - eapply Forall_impl; [|exact H1]. intros [k v] H. simpl in *. constructor; [now left | exact H].
  - eapply Forall_impl; [|exact H2]. intros [k v] H. simpl in *. constructor; [now right | exact H].
Qed.

(* ------------------------------------------------------------------ *)
(** ** The frequency counter *)

Lemma count_char_keys wf char :
  keys (count_char wf char) = if in_dec Z.eq_dec char (keys wf) then keys wf else keys wf ++ [char].
Proof.
  unfold count_char. destruct (in_dec Z.eq_dec char (keys wf)) as [H|H].
  - destruct (dict_get_in_keys _ _ H) as [n ->]. now apply dict_set_keys_old.
  - apply dict_get_none in H as H'. rewrite H'. rewrite dict_set_new by assumption.
    now rewrite keys_app.
Qed.

Lemma count_fold_keys w : forall wf,
  NoDup (keys wf) ->
  NoDup (keys (fold_left count_char w wf)) /\
  forall k, In k (keys (fold_left count_char w wf)) <-> In k (keys wf) \/ In k w.
Proof.
  induction w as [|c w IH]; intros wf Hnd; simpl.
  - split; [assumption | tauto].
  - destruct (IH (count_char wf c)) as [H1 H2].
    + rewrite count_char_keys. destruct (in_dec Z.eq_dec c (keys wf)); [assumption|].
      apply NoDup_app; repeat split; [assumption | repeat constructor; auto |].
      intros a Ha [<-|[]]. contradiction.
    + split; [assumption|]. intros k. rewrite H2, count_char_keys.
      destruct (in_dec Z.eq_dec c (keys wf)) as [Hin|Hin].
      * split; [tauto|]. intros [H|[<-|H]]; tauto.
      * rewrite in_app_iff. simpl. tauto.
Qed.

Lemma count_frequency_nodup w : NoDup (keys (count_frequency w)).
Proof. apply (count_fold_keys w []). constructor. Qed.

Lemma count_frequency_keys w k : In k (keys (count_frequency w)) <-> In k w.
Proof.
  unfold count_frequency. destruct (count_fold_keys w [] (NoDup_nil _)) as [_ H].
  rewrite H. simpl. tauto.
Qed.

Lemma count_char_same b n : count_char [(b, n)] b = [(b, n + 1)].
Proof. unfold count_char. simpl. now rewrite Z.eqb_refl. Qed.

Lemma count_fold_single b w : forall n,
  Forall (eq b) w -> fold_left count_char w [(b, n)] = [(b, n + len w)].
Proof.
  induction w as [|c w IH]; intros n H; cbn [fold_left].
  - unfold len. simpl. now rewrite Z.add_0_r.
  - inversion H as [|? ? <- Hw]; subst.
    rewrite count_char_same, IH by assumption.
    unfold len. cbn [length]. do 2 f_equal. lia.
Qed.

Lemma two_distinct_length w : two_distinct w -> (2 <= length (count_frequency w))%nat.
Proof.
  intros (a & b & Ha & Hb & Hab).
  apply count_frequency_keys in Ha, Hb.
  pose proof (count_frequency_nodup w) as Hnd.
  unfold keys in *. rewrite <- (length_map fst).
  destruct (map fst (count_frequency w)) as [|x [|y l]]; simpl in *; lia.
Qed.

(* ------------------------------------------------------------------ *)
(** ** The tree builder *)

Lemma all_keys_app sf1 sf2 : all_keys (sf1 ++ sf2) = all_keys sf1 ++ all_keys sf2.
Proof. apply flat_map_app. Qed.

Lemma all_keys_one c : all_keys [c] = keys (cand_trace c).
Proof. unfold all_keys. simpl. apply app_nil_r. Qed.

Lemma all_keys_two c d : all_keys [c; d] = keys (cand_trace c) ++ keys (cand_trace d).
Proof. unfold all_keys. simpl. now rewrite app_nil_r. Qed.

Lemma initial_candidates_keys freq :
  all_keys (initial_candidates freq) = keys (sorted_desc snd freq).
Proof.
  unfold initial_candidates, all_keys, keys.
  induction (sorted_desc snd freq) as [|[c n] l IH]; simpl; [reflexivity|].
  now rewrite IH.
Qed.

Lemma initial_candidates_length freq :
  length (initial_candidates freq) = length freq.
Proof. unfold initial_candidates. now rewrite length_map, sorted_desc_length. Qed.

Lemma initial_candidates_sorted freq :
  StronglySorted (desc cand_freq) (initial_candidates freq).
Proof.
  unfold initial_candidates.
  apply sorted_map with (ka := snd); [reflexivity | apply sorted_desc_sorted].
Qed.

Lemma trace_inv_initial freq :
  NoDup (keys freq) -> trace_inv (keys freq) (initial_candidates freq).
Proof.
  intros Hnd.
  assert (Hp : Permutation (all_keys (initial_candidates freq)) (keys freq)).
  { rewrite initial_candidates_keys. unfold keys.
    apply Permutation_map, sorted_desc_perm. }
  repeat split.
  - unfold initial_candidates. apply Forall_map, Forall_forall.
    intros [c n] _. unfold cand_trace. simpl. split.
    + intros k1 v1 k2 v2 [[= <- <-]|[]] [[= <- <-]|[]] _. reflexivity.
    + repeat constructor.
  - eapply Permutation_NoDup; [symmetry; exact Hp | exact Hnd].
  - exact Hp.
Qed.

Lemma new_branch_trace set1 set2 :
  NoDup (keys (cand_trace set1) ++ keys (cand_trace set2)) ->
  cand_trace (new_branch set1 set2) =
  char_count [c0] (cand_trace set1) ++ char_count [c1] (cand_trace set2).
Proof. intros H. unfold new_branch, cand_trace at 1. simpl. now apply join_traces. Qed.

Lemma joined_keys t1 t2 :
  keys (char_count [c0] t1 ++ char_count [c1] t2) = keys t1 ++ keys t2.
Proof. now rewrite keys_app, !char_count_keys. Qed.

Lemma trace_inv_step K sf sf' :
  trace_inv K sf -> loop_cond sf = true -> loop_body sf = Ok sf' -> trace_inv K sf'.
Proof.
  intros (Hall & Hnd & Hp) Hc Hb. apply loop_cond_true in Hc.
  destruct (last_two sf) as (rest & set2 & set1 & ->); [lia|].
  rewrite loop_body_snoc in Hb. injection Hb as <-.
  rewrite all_keys_app, all_keys_two in Hnd, Hp.
  assert (Hd : NoDup (keys (cand_trace set1) ++ keys (cand_trace set2))).
  { apply NoDup_app_remove_l in Hnd.
    eapply Permutation_NoDup; [apply Permutation_app_comm | exact Hnd]. }
  pose proof (new_branch_trace set1 set2 Hd) as Hnb.
  assert (Hk : Permutation (all_keys (rest ++ [new_branch set1 set2]))
                           (all_keys rest ++ keys (cand_trace set2) ++ keys (cand_trace set1))).
  { rewrite all_keys_app, all_keys_one, Hnb, joined_keys.
    apply Permutation_app_head, Permutation_app_comm. }
  assert (Hs : Permutation (all_keys (sorted_desc cand_freq (rest ++ [new_branch set1 set2])))
                           (all_keys (rest ++ [new_branch set1 set2]))).
  { unfold all_keys. apply Permutation_flat_map, sorted_desc_perm. }
  rewrite Forall_app in Hall. destruct Hall as [Hrest Hlast].
  inversion Hlast as [|? ? [Hp2 Hb2] Hlast']; subst.
  inversion Hlast' as [|? ? [Hp1 Hb1] _]; subst.
  repeat split.
  - eapply Permutation_Forall; [symmetry; apply sorted_desc_perm|].
    apply Forall_app. split; [exact Hrest|]. constructor; [|constructor].
    rewrite Hnb. split; [now apply joined_prefix_free | now apply joined_bits_ok].
  - eapply Permutation_NoDup; [|exact Hnd]. symmetry. now rewrite Hs.
  - now rewrite Hs, Hk.
Qed.

Lemma new_branch_consistent set1 set2 :
  NoDup (keys (cand_trace set1) ++ keys (cand_trace set2)) ->
  cand_consistent set1 -> cand_consistent set2 ->
  cand_consistent (new_branch set1 set2).
Proof.
  intros Hd H1 H2. unfold cand_consistent.
  rewrite (new_branch_trace set1 set2 Hd).
  change (cand_tree (new_branch set1 set2)) with (PList [cand_tree set1; cand_tree set2]).
  intros k code rest Hin. apply in_app_or in Hin.
  destruct Hin as [Hin|Hin]; apply char_count_in in Hin; destruct Hin as (code' & -> & Hin).
  - unfold cand_consistent in H1. cbn [app recursion].
    change (int_of_char c0) with (Ok 0). cbv beta iota. rewrite index_first.
    destruct (cand_tree set1) as [c|items].
    + rewrite H1 in Hin. destruct Hin as [[= <- <-]|[]]. reflexivity.
    + now apply H1.
  - unfold cand_consistent in H2. cbn [app recursion].
    change (int_of_char c1) with (Ok 1). cbv beta iota. rewrite index_second.
    destruct (cand_tree set2) as [c|items].
    + rewrite H2 in Hin. destruct Hin as [[= <- <-]|[]]. reflexivity.
    + now apply H2.
Qed.

Lemma consistent_initial freq : Forall cand_consistent (initial_candidates freq).
Proof.
  unfold initial_candidates. apply Forall_map, Forall_forall. intros [c n] _. reflexivity.
Qed.

Lemma builder_inv_step K sf sf' :
  trace_inv K sf /\ Forall cand_consistent sf ->
  loop_cond sf = true -> loop_body sf = Ok sf' ->
  trace_inv K sf' /\ Forall cand_consistent sf'.
Proof.
  intros [Hi Hc] Hl Hb. split; [eapply trace_inv_step; eauto|].
  destruct Hi as (_ & Hnd & _). apply loop_cond_true in Hl.
  destruct (last_two sf) as (rest & set2 & set1 & ->); [lia|].
  rewrite loop_body_snoc in Hb. injection Hb as <-.
  rewrite all_keys_app, all_keys_two in Hnd. apply NoDup_app_remove_l in Hnd.
  apply Forall_app in Hc. destruct Hc as [Hrest Hlast].
  inversion Hlast as [|? ? H2 Hlast']; subst. inversion Hlast' as [|? ? H1 _]; subst.
  eapply Permutation_Forall; [symmetry; apply sorted_desc_perm|].
  apply Forall_app. split; [exact Hrest|]. constructor; [|constructor].
  apply new_branch_consistent; try assumption.
  eapply Permutation_NoDup; [apply Permutation_app_comm | exact Hnd].
Qed.

Lemma loop_state_sorted init sf :
  StronglySorted (desc cand_freq) init -> loop_state init sf ->
  StronglySorted (desc cand_freq) sf.
Proof.
  intros Hi. induction 1 as [|sf sf' _ IH Hc Hb]; [exact Hi|].
  apply loop_cond_true in Hc.
  destruct (last_two sf) as (rest & set2 & set1 & ->); [lia|].
  rewrite loop_body_snoc in Hb. injection Hb as <-. apply sorted_desc_sorted.
Qed.

(** With at least two distinct byte values the builder ends with exactly
    two candidates, whose joined trace has the keys of the frequency table,
    each once, is prefix-free, is made of bits, and agrees with the tree
    made of the two candidates. *)
Lemma builder_result w :
  two_distinct w ->
  exists first second,
    build_loop (initial_candidates (count_frequency w)) = Ok [first; second] /\
    NoDup (keys (final_trace first second)) /\
    Permutation (keys (final_trace first second)) (keys (count_frequency w)) /\
    prefix_free (final_trace first second) /\
    bits_ok (final_trace first second) /\
    (forall k code rest,
        In (k, code) (final_trace first second) ->
        recursion (PList [cand_tree first; cand_tree second]) (code ++ rest) = Ok (k, rest)).
Proof.
  intros H2. pose proof (two_distinct_length H2) as Hlen.
  destruct (@build_loop_inv
              (fun sf => trace_inv (keys (count_frequency w)) sf /\
                         Forall cand_consistent sf)
              (@builder_inv_step _) _
              (conj (trace_inv_initial _ (count_frequency_nodup w))
                    (consistent_initial _)))
    as (sf' & Hb & ((Hall & Hnd & Hp) & Hcons) & _ & Hl).
  rewrite initial_candidates_length in Hl.
  destruct sf' as [|first [|second [|? ?]]]; simpl in Hl; try lia.
  exists first, second. split; [exact Hb|].
  rewrite all_keys_two in Hnd, Hp.
  inversion Hall as [|? ? [Hp1 Hb1] Hall']; subst.
  inversion Hall' as [|? ? [Hp2 Hb2] _]; subst.
  inversion Hcons as [|? ? Hc1 Hcons']; subst.
  inversion Hcons' as [|? ? Hc2 _]; subst.
  pose proof (new_branch_consistent first second Hnd Hc1 Hc2) as Hc.
  unfold final_trace. rewrite join_traces by exact Hnd. rewrite joined_keys.
  repeat split; try assumption.
  - now apply joined_prefix_free.
  - now apply joined_bits_ok.
  - unfold cand_consistent in Hc. rewrite (new_branch_trace first second Hnd) in Hc.
    exact Hc.
Qed.

(* ------------------------------------------------------------------ *)
(** ** The bit packer *)

Lemma rmap_ok {A B} (f : A -> result B) (g : A -> B) l :
  Forall (fun x => f x = Ok (g x)) l -> rmap f l = Ok (map g l).
Proof.
  induction 1 as [|x l Hx _ IH]; simpl; [reflexivity|].
  now rewrite Hx, IH.
Qed.

Lemma rmap_total {A B} (f : A -> result B) l :
  Forall (fun x => exists y, f x = Ok y) l ->
  exists ys, rmap f l = Ok ys /\ Forall2 (fun x y => f x = Ok y) l ys.
Proof.
  induction 1 as [|x l [y Hy] _ (ys & IH1 & IH2)]; simpl.
  - exists []. split; [reflexivity | constructor].
  - exists (y :: ys). rewrite Hy, IH1. split; [reflexivity | now constructor].
Qed.

(** Every byte of the buffer has a code, so the encoding succeeds and is
    made of bits. *)
Lemma encode_ok tr w :
  (forall k, In k w -> In k (keys tr)) -> bits_ok tr ->
  exists codes, rmap (dict_lookup tr) w = Ok codes /\
                encode tr w = Ok (concat codes) /\
                Forall2 (fun k v => dict_get k tr = Some v) w codes /\
                Forall is_bit (concat codes).
Proof.
  intros Hk Hb.
  destruct (rmap_total (dict_lookup tr) (l := w)) as (codes & Hm & Hf).
  { apply Forall_forall. intros k Hin.
    destruct (dict_get_in_keys _ _ (Hk k Hin)) as [v Hv].
    exists v. unfold dict_lookup. now rewrite Hv. }
  assert (Hf' : Forall2 (fun k v => dict_get k tr = Some v) w codes).
  { eapply Forall2_impl; [|exact Hf]. intros k v. unfold dict_lookup.
    destruct (dict_get k tr); [now intros [= ->] | discriminate]. }
  exists codes. unfold encode. rewrite Hm. repeat split; try assumption.
  apply Forall_concat. clear - Hf' Hb.
  induction Hf' as [|k v w codes Hkv _ IH]; constructor; [|exact IH].
  apply dict_get_some in Hkv. unfold bits_ok in Hb. rewrite Forall_forall in Hb.
  apply (Hb _ Hkv).
Qed.

(** The padding loop stops within seven iterations, having appended as
    many 1s as it takes to reach a multiple of eight. *)
Lemma pad_while fuel : forall encoded padding,
  (- len encoded) mod 8 <= Z.of_nat fuel ->
  while_loop fuel pad_cond pad_body (encoded, padding) =
  Ok (encoded ++ repeat c1 (Z.to_nat ((- len encoded) mod 8)),
      padding + (- len encoded) mod 8).
Proof.
  induction fuel as [|fuel IH]; intros encoded padding Hf.
  - assert (Hz : (- len encoded) mod 8 = 0) by (pose proof (Z.mod_pos_bound (- len encoded) 8 eq_refl); lia).
    simpl. rewrite Hz. simpl. now rewrite app_nil_r, Z.add_0_r.
  - cbn [while_loop]. unfold pad_cond at 1. cbn [fst].
    destruct (len encoded mod 8 =? 0) eqn:E; cbn [negb].
    + apply Z.eqb_eq in E.
      assert (Hz : (- len encoded) mod 8 = 0) by (revert E; clear; intros; zmod).
      rewrite Hz. simpl. now rewrite app_nil_r, Z.add_0_r.
    + apply Z.eqb_neq in E. unfold pad_body. cbn [rbind fst snd].
      assert (Hr : (- len (encoded ++ [c1])) mod 8 = (- len encoded) mod 8 - 1).
      { rewrite len_app. unfold len at 2. simpl length. revert E; clear; intros; zmod. }
      rewrite IH by (rewrite Hr; lia). rewrite Hr.
      assert (Hn : Z.to_nat ((- len encoded) mod 8) = S (Z.to_nat ((- len encoded) mod 8 - 1))).
      { assert (0 < (- len encoded) mod 8) by (revert E; clear; intros; zmod). lia. }
      rewrite Hn. simpl. rewrite <- app_assoc. simpl. do 2 f_equal. lia.
Qed.

Lemma pad_loop_spec encoded :
  exists p : nat,
    (p <= 7)%nat /\
    pad_loop encoded = Ok (encoded ++ repeat c1 p, Z.of_nat p) /\
    len (encoded ++ repeat c1 p) mod 8 = 0 /\
    pad_cond (encoded ++ repeat c1 p, Z.of_nat p) = false /\
    (forall q : nat, len (encoded ++ repeat c1 q) mod 8 = 0 -> (p <= q)%nat).
Proof.
  pose proof (Z.mod_pos_bound (- len encoded) 8 eq_refl) as Hb.
  exists (Z.to_nat ((- len encoded) mod 8)).
  assert (Hl : len (encoded ++ repeat c1 (Z.to_nat ((- len encoded) mod 8))) mod 8 = 0).
  { rewrite len_app. unfold len at 2. rewrite repeat_length.
    rewrite Z2Nat.id by lia. revert Hb; clear; intros; zmod. }
  repeat split.
  - lia.
  - unfold pad_loop. rewrite pad_while by (simpl; lia).
    rewrite Z2Nat.id by lia. reflexivity.
  - exact Hl.
  - unfold pad_cond. cbn [fst]. now rewrite Hl.
  - intros q. rewrite len_app. unfold len at 2. rewrite repeat_length.
    revert Hb; clear; intros; zmod.
Qed.

(** Eight bits make a byte, most significant bit first, and the byte
    reads back as the same eight bits. *)
Lemma eight_bits chunk :
  length chunk = 8%nat -> Forall is_bit chunk ->
  exists v, int_base2 chunk = Ok v /\ is_byte v /\ zfill 8 (bin_digits v) = chunk.
Proof.
  intros Hl Hb.
  do 8 (destruct chunk as [|? chunk]; [discriminate Hl|]).
  destruct chunk; [|discriminate Hl]. clear Hl.
  repeat match goal with
         | H : Forall _ (_ :: _) |- _ => inversion H; clear H; subst
         end.
  unfold is_bit in *.
  repeat match goal with
         | H : _ \/ _ |- _ => destruct H; subst
         end;
    (eexists; split; [reflexivity | split; [unfold is_byte; lia | reflexivity]]).
Qed.

Lemma skipn_exact {A} (pre x : list A) : skipn (length pre) (pre ++ x) = x.
Proof. induction pre; simpl; auto. Qed.

Lemma firstn_exact {A} (pre x : list A) : firstn (length pre) (pre ++ x) = pre.
Proof. induction pre; simpl; [now destruct x | now f_equal]. Qed.

Lemma bits_of_bytes_cons n l :
  bits_of_bytes (n :: l) = zfill 8 (bin_digits n) ++ bits_of_bytes l.
Proof. reflexivity. Qed.

Lemma split_eight {A} (l : list A) m :
  length l = (8 * S m)%nat ->
  exists chunk rest, l = chunk ++ rest /\ length chunk = 8%nat /\ length rest = (8 * m)%nat.
Proof.
  intros H. exists (firstn 8 l), (skipn 8 l).
  rewrite firstn_skipn, length_firstn, length_skipn. repeat split; lia.
Qed.

Lemma chunks_ok m : forall j pre rest,
  length pre = (8 * j)%nat -> length rest = (8 * m)%nat -> Forall is_bit rest ->
  exists ints,
    rmap (fun chunk => int_base2 (slice chunk (chunk + 8) (pre ++ rest)))
         (map (fun i => Z.of_nat i * 8) (seq j m)) = Ok ints /\
    Forall is_byte ints /\ bits_of_bytes ints = rest /\ length ints = m.
Proof.
  induction m as [|m IH]; intros j pre rest Hpre Hrest Hbits.
  - destruct rest; [|discriminate]. exists []. simpl. repeat split. constructor.
  - destruct (split_eight rest Hrest) as (chunk & rest' & -> & Hc & Hr').
    apply Forall_app in Hbits. destruct Hbits as [Hb1 Hb2].
    destruct (eight_bits Hc Hb1) as (v & Hv & Hvb & Hvz).
    destruct (IH (S j) (pre ++ chunk) rest') as (ints & Hi & Hib & Hiz & Hil);
      [rewrite length_app; lia | lia | exact Hb2 |].
    exists (v :: ints). cbn [seq map rmap].
    assert (Hs : slice (Z.of_nat j * 8) (Z.of_nat j * 8 + 8) (pre ++ chunk ++ rest') = chunk).
    { unfold slice.
      replace (Z.to_nat (Z.of_nat j * 8)) with (length pre) by lia.
      replace (Z.to_nat (Z.of_nat j * 8 + 8) - length pre)%nat with (length chunk) by lia.
      now rewrite skipn_exact, firstn_exact. }
    rewrite Hs, Hv. cbn [rbind].
    rewrite <- app_assoc in Hi. rewrite Hi. cbn [rbind].
    repeat split.
    + now constructor.
    + now rewrite bits_of_bytes_cons, Hvz, Hiz.
    + simpl. now rewrite Hil.
Qed.

Lemma chunk_ints_spec s :
  len s mod 8 = 0 -> Forall is_bit s ->
  exists ints,
    chunk_ints s = Ok ints /\ Forall is_byte ints /\ bits_of_bytes ints = s /\
    8 * len ints = len s.
Proof.
  intros Hm Hb.
  assert (Hl : length s = (8 * Z.to_nat (len s / 8))%nat).
  { unfold len in *. revert Hm; clear; intros. 
    assert (Z.of_nat (length s) = 8 * (Z.of_nat (length s) / 8)) by zmod.
    assert (0 <= Z.of_nat (length s) / 8) by zmod. lia. }
  destruct (@chunks_ok (Z.to_nat (len s / 8)) 0%nat [] s eq_refl Hl Hb)
    as (ints & Hi & Hib & Hiz & Hil).
  exists ints. unfold chunk_ints, range_step.
  replace ((len s + 8 - 1) / 8) with (len s / 8) by (revert Hm; clear; intros; zmod).
  simpl app in Hi. rewrite Hi. repeat split; try assumption.
  unfold len at 1. rewrite Hil. unfold len in *. lia.
Qed.

Lemma bytearray_ok l : Forall is_byte l -> bytearray l = Ok l.
Proof.
  intros H. unfold bytearray.
  replace (forallb (fun n => (0 <=? n) && (n <? 256)) l) with true; [reflexivity|].
  symmetry. apply forallb_forall. rewrite Forall_forall in H.
  intros x Hx. specialize (H x Hx). unfold is_byte in H.
  apply andb_true_iff. split; [apply Z.leb_le | apply Z.ltb_lt]; lia.
Qed.

Lemma bytearray_inv l l' : bytearray l = Ok l' -> l' = l /\ Forall is_byte l.
Proof.
  unfold bytearray.
  destruct (forallb (fun n => (0 <=? n) && (n <? 256)) l) eqn:E; [|discriminate].
  intros [= <-]. split; [reflexivity|].
  apply Forall_forall. intros x Hx. rewrite forallb_forall in E.
  specialize (E x Hx). apply andb_true_iff in E. destruct E as [E1 E2].
  apply Z.leb_le in E1. apply Z.ltb_lt in E2. unfold is_byte. lia.
Qed.

(* ------------------------------------------------------------------ *)
(** ** [compress], stage by stage *)

Lemma two_distinct_iff w : two_distinct w <-> (2 <= length (count_frequency w))%nat.
Proof.
  split; [apply two_distinct_length|].
  intros H. pose proof (count_frequency_nodup w) as Hnd.
  pose proof (count_frequency_keys w) as Hk.
  unfold keys in *. rewrite <- (length_map fst) in H.
  destruct (map fst (count_frequency w)) as [|a [|b l]]; simpl in H; try lia.
  exists a, b. repeat split.
  - apply Hk. now left.
  - apply Hk. right. now left.
  - inversion Hnd as [|? ? Hn _]; subst. intros ->. apply Hn. now left.
Qed.

Lemma to_bytes2_spec n :
  0 <= n ->
  to_bytes2 n = if n <? 65536 then Ok [n / 256; n mod 256] else Raise OverflowError.
Proof.
  intros H. unfold to_bytes2.
  replace (0 <=? n) with true by (symmetry; now apply Z.leb_le). reflexivity.
Qed.

(** The object once [alt_in] is taken in: [new_worker] has stored a truthy
    [alt_in] and reset the output and the tools; otherwise nothing has
    changed. *)
Lemma use_alt_in_object alt_in self :
  snd (use_alt_in alt_in self) =
  if truthy alt_in
  then {| worker := worker_of alt_in self; output := []; comp_tools := empty_tools |}
  else self.
Proof. destruct alt_in as [[|b l]|]; reflexivity. Qed.

Lemma worker_of_alt_in alt_in self :
  worker_of alt_in self =
  match alt_in with
  | Some (b :: l) => b :: l
  | _ => worker self
  end.
Proof. destruct alt_in as [[|b l]|]; reflexivity. Qed.

Section CompressStages.
Context {codec : TreeCodec}.

(** A truthy [alt_in] only replaces the object the call starts from. *)
Lemma compress_alt_in alt_in self :
  compress alt_in self = compress None (snd (use_alt_in alt_in self)).
Proof. destruct alt_in as [[|b l]|]; reflexivity. Qed.

Lemma decompress_alt_in alt_in self :
  decompress alt_in self = decompress None (snd (use_alt_in alt_in self)).
Proof. destruct alt_in as [[|b l]|]; reflexivity. Qed.

(** The object a failing or succeeding [compress] leaves behind, given the
    results of its stages. *)
Lemma compress_stages self first second encoded padded p ints :
  build_loop (initial_candidates (count_frequency (worker self))) = Ok [first; second] ->
  encode (dict_union (char_count [c0] (cand_trace first))
                     (char_count [c1] (cand_trace second))) (worker self) = Ok encoded ->
  pad_loop encoded = Ok (padded, p) ->
  chunk_ints padded = Ok ints ->
  Forall is_byte (p :: ints) ->
  compress None self =
  let tools := {| frequency := count_frequency (worker self);
                  tree := [cand_tree first; cand_tree second];
                  trace := dict_union (char_count [c0] (cand_trace first))
                                      (char_count [c1] (cand_trace second)) |} in
  let pickle_tree := dumps (PList (tree tools)) in
  if len pickle_tree <? 65536
  then (Ok tt, {| worker := worker self;
                  output := [len pickle_tree / 256; len pickle_tree mod 256]
                              ++ pickle_tree ++ p :: ints;
                  comp_tools := tools |})
  else (Raise OverflowError,
        {| worker := worker self; output := output self; comp_tools := tools |}).
Proof.
  intros Hb He Hp Hc Hbytes.
  run_monad. rewrite Hb. run_monad.
  rewrite index_first, index_second. run_monad.
  rewrite He. run_monad. rewrite Hp. run_monad. cbn [fst snd].
  rewrite Hc. run_monad. rewrite (bytearray_ok Hbytes). run_monad.
  cbn [map]. rewrite to_bytes2_spec by apply len_nonneg.
  destruct (len (dumps (PList [cand_tree first; cand_tree second])) <? 65536); reflexivity.
Qed.

(** A frequency table with fewer than two entries: the loop does not run,
    the tree is stored, and the trace line indexes past the end. *)
Lemma compress_degenerate self :
  (length (count_frequency (worker self)) < 2)%nat ->
  compress None self =
  (Raise IndexError,
   {| worker := worker self; output := output self;
      comp_tools := {| frequency := count_frequency (worker self);
                       tree := map cand_tree (initial_candidates (count_frequency (worker self)));
                       trace := trace (comp_tools self) |} |}).
Proof.
  intros Hl.
  pose proof (initial_candidates_length (count_frequency (worker self))) as Hi.
  run_monad. rewrite build_loop_unroll.
  replace (loop_cond (initial_candidates (count_frequency (worker self)))) with false
    by (symmetry; apply loop_cond_false; lia).
  destruct (initial_candidates (count_frequency (worker self))) as [|c [|d l]];
    simpl in Hi; try lia; reflexivity.
Qed.

End CompressStages.

Lemma stages_exist w :
  two_distinct w -> exists first second encoded p ints, stages w first second encoded p ints.
Proof.
  intros H2.
  destruct (builder_result H2) as (first & second & Hb & Hnd & Hk & Hpf & Hbits & Hwalk).
  destruct (@encode_ok (final_trace first second) w) as (codes & _ & He & _ & Hcb).
  { intros k Hin. eapply Permutation_in; [symmetry; exact Hk|].
    now apply count_frequency_keys. }
  { exact Hbits. }
  destruct (pad_loop_spec (concat codes)) as (p & Hp7 & Hp & Hm & _ & Hleast).
  destruct (@chunk_ints_spec (concat codes ++ repeat c1 p) Hm) as (ints & Hc & Hib & Hiz & _).
  { apply Forall_app. split; [exact Hcb|]. apply Forall_forall.
    intros x Hx. apply repeat_spec in Hx. subst. now right. }
  exists first, second, (concat codes), p, ints. now constructor.
Qed.

Section CompressSpec.
Context {codec : TreeCodec}.

Lemma compress_run self first second encoded p ints :
  stages (worker self) first second encoded p ints ->
  compress None self =
  let tools := {| frequency := count_frequency (worker self);
                  tree := [cand_tree first; cand_tree second];
                  trace := final_trace first second |} in
  let pickle_tree := dumps (PList (tree tools)) in
  if len pickle_tree <? 65536
  then (Ok tt, {| worker := worker self;
                  output := [len pickle_tree / 256; len pickle_tree mod 256]
                              ++ pickle_tree ++ Z.of_nat p :: ints;
                  comp_tools := tools |})
  else (Raise OverflowError,
        {| worker := worker self; output := output self; comp_tools := tools |}).
Proof.
  intros S. unfold final_trace in *.
  apply compress_stages with (encoded := encoded) (padded := encoded ++ repeat c1 p);
    try apply S.
  constructor; [|apply S].
  pose proof (st_bound S). unfold is_byte. lia.
Qed.

(** A compression that succeeds worked on at least two distinct values. *)
Lemma compress_ok_two_distinct self self' :
  compress None self = (Ok tt, self') -> two_distinct (worker self).
Proof.
  intros H. apply two_distinct_iff.
  destruct (Nat.le_gt_cases 2 (length (count_frequency (worker self)))) as [Hl|Hl];
    [exact Hl|].
  rewrite compress_degenerate in H by exact Hl. discriminate.
Qed.

End CompressSpec.

(* ------------------------------------------------------------------ *)
(** ** [decompress], stage by stage *)

Lemma Forall_firstn {A} (P : A -> Prop) n l : Forall P l -> Forall P (firstn n l).
Proof.
  intros H. rewrite <- (firstn_skipn n l) in H. now apply Forall_app in H.
Qed.

Lemma Forall_skipn {A} (P : A -> Prop) n l : Forall P l -> Forall P (skipn n l).
Proof.
  intros H. rewrite <- (firstn_skipn n l) in H. now apply Forall_app in H.
Qed.

Lemma from_bytes_nonneg bs : Forall is_byte bs -> 0 <= from_bytes bs.
Proof.
  unfold from_bytes.
  assert (G : forall acc, 0 <= acc -> Forall is_byte bs ->
                          0 <= fold_left (fun acc b => 256 * acc + b) bs acc).
  { induction bs as [|b bs IH]; intros acc Ha H; cbn [fold_left]; [exact Ha|].
    inversion H as [|? ? Hb Hbs]; subst. apply IH; [|exact Hbs].
    unfold is_byte in Hb. lia. }
  apply G. lia.
Qed.

Lemma from_bytes_to_bytes2 n : 0 <= n -> from_bytes [n / 256; n mod 256] = n.
Proof. intros H. unfold from_bytes. cbn [fold_left]. zmod. Qed.

Lemma rmap_inv {A B} (f : A -> result B) l : forall ys,
  rmap f l = Ok ys -> Forall2 (fun x y => f x = Ok y) l ys.
Proof.
  induction l as [|x l IH]; simpl; intros ys H.
  - injection H as <-. constructor.
  - destruct (f x) as [y|e] eqn:Ex; [|discriminate]. simpl in H.
    destruct (rmap f l) as [ys'|e] eqn:El; [|discriminate]. simpl in H.
    injection H as <-. constructor; [exact Ex | now apply IH].
Qed.

Lemma encode_inv tr w encoded :
  encode tr w = Ok encoded ->
  exists codes, Forall2 (fun k v => dict_get k tr = Some v) w codes /\
                encoded = concat codes.
Proof.
  unfold encode. destruct (rmap (dict_lookup tr) w) as [codes|e] eqn:E; [|discriminate].
  simpl. intros [= <-]. exists codes. split; [|reflexivity].
  apply rmap_inv in E. eapply Forall2_impl; [|exact E].
  intros k v. unfold dict_lookup. destruct (dict_get k tr); [now intros [= ->] | discriminate].
Qed.

(** Each call of the decoder consumes at least one bit. *)
Lemma recursion_shorter section : forall branch char rest,
  recursion branch section = Ok (char, rest) -> (length rest < length section)%nat.
Proof.
  induction section as [|bit cut_down IH]; intros branch char rest H; simpl in H.
  - discriminate.
  - destruct (int_of_char bit) as [new_val|e]; [|discriminate].
    destruct branch as [n|items]; [discriminate|].
    destruct (index items new_val) as [[c|sub]|e]; try discriminate.
    + injection H as <- <-. simpl. lia.
    + apply IH in H. simpl. lia.
Qed.

(** The decoding loop stops because the bit string is used up, never
    because its fuel is. *)
Lemma decode_while_exit t fuel : forall bit_string decoded rest out,
  (length bit_string <= fuel)%nat ->
  while_loop fuel decode_cond (decode_body t) (bit_string, decoded) = Ok (rest, out) ->
  rest = [].
Proof.
  induction fuel as [|fuel IH]; intros bit_string decoded rest out Hf H; simpl in H.
  - injection H as <- <-. destruct bit_string; [reflexivity | simpl in Hf; lia].
  - destruct bit_string as [|b bs]; [now injection H as <- <-|].
    unfold decode_cond in H. cbn [fst] in H. unfold decode_body at 1 in H. cbn [fst snd] in H.
    destruct (recursion t (b :: bs)) as [[c r]|e] eqn:E; [|discriminate].
    cbn [rbind fst snd] in H. apply recursion_shorter in E. simpl in E, Hf.
    eapply IH; [|exact H]. lia.
Qed.

Lemma decode_loop_exit t bit_string rest out :
  decode_loop t bit_string = Ok (rest, out) -> rest = [].
Proof. unfold decode_loop. apply decode_while_exit. lia. Qed.

(** Under a tree that agrees with the trace, the decoding loop turns the
    codes of a buffer back into the buffer. *)
Lemma decode_codes t tr :
  (forall k code rest, In (k, code) tr -> recursion t (code ++ rest) = Ok (k, rest)) ->
  forall w codes,
    Forall2 (fun k v => dict_get k tr = Some v) w codes ->
    forall fuel decoded,
      (length (concat codes) <= fuel)%nat ->
      while_loop fuel decode_cond (decode_body t) (concat codes, decoded)
      = Ok ([], decoded ++ w).
Proof.
  intros Hwalk w codes HF.
  induction HF as [|k v w codes Hkv _ IH]; intros fuel decoded Hf.
  - simpl. rewrite app_nil_r. destruct fuel; reflexivity.
  - apply dict_get_some in Hkv.
    pose proof (Hwalk k v (concat codes) Hkv) as Hr.
    assert (Hv : v <> []).
    { intros ->. specialize (Hwalk k [] [] Hkv). destruct t; discriminate. }
    cbn [concat] in *. rewrite length_app in Hf.
    destruct v as [|b v]; [contradiction|].
    destruct fuel as [|fuel]; [simpl in Hf; lia|].
    cbn [while_loop]. unfold decode_cond at 1. cbn [fst app].
    unfold decode_body at 1. cbn [fst snd]. cbn [app] in Hr. rewrite Hr. cbn [rbind fst snd].
    rewrite IH by (simpl in Hf; lia). now rewrite <- app_assoc.
Qed.

(** Cutting a positive padding count off the padded bits gives the
    encoded bits back. *)
Lemma slice_to_padding (encoded : str) (p : nat) :
  (0 < p)%nat -> slice_to (- Z.of_nat p) (encoded ++ repeat c1 p) = encoded.
Proof.
  intros Hp. unfold slice_to.
  replace (- Z.of_nat p <? 0) with true by (symmetry; apply Z.ltb_lt; lia).
  rewrite len_app. unfold len. rewrite repeat_length.
  replace (Z.to_nat (Z.of_nat (length encoded) + Z.of_nat p + - Z.of_nat p))
    with (length encoded) by lia.
  apply firstn_exact.
Qed.

Section DecompressStages.
Context {codec : TreeCodec}.

(** A buffer in the frame layout splits into the parts it was made of. *)
Lemma split_frame_layout tree_bytes padding packed :
  split_frame (frame tree_bytes padding packed) =
  rbind (loads tree_bytes) (fun decomp_tree => Ok (decomp_tree, padding, packed)).
Proof.
  unfold split_frame, frame.
  pose proof (len_nonneg tree_bytes) as Hn.
  set (n := len tree_bytes) in *.
  assert (Hf : from_bytes (slice 0 2 ([n / 256; n mod 256] ++ tree_bytes ++ padding :: packed)) = n).
  { unfold slice. simpl firstn. now apply from_bytes_to_bytes2. }
  rewrite Hf.
  assert (Hs : slice 2 (n + 2) ([n / 256; n mod 256] ++ tree_bytes ++ padding :: packed)
               = tree_bytes).
  { unfold slice. replace (Z.to_nat (n + 2) - Z.to_nat 2)%nat with (length tree_bytes)
      by (unfold n, len; lia).
    change (Z.to_nat 2) with 2%nat. simpl skipn. apply firstn_exact. }
  rewrite Hs. destruct (loads tree_bytes) as [t|e]; [|reflexivity]. cbn [rbind].
  rewrite index_nonneg by lia.
  replace (Z.to_nat (n + 2)) with (2 + length tree_bytes)%nat by (unfold n, len; lia).
  simpl nth_error. rewrite nth_error_app2 by lia. rewrite Nat.sub_diag. simpl.
  unfold slice_from.
  replace (Z.to_nat (n + 3)) with (2 + (length tree_bytes + 1))%nat by (unfold n, len; lia).
  simpl skipn. rewrite skipn_app.
  rewrite skipn_all2 by lia.
  replace (length tree_bytes + 1 - length tree_bytes)%nat with 1%nat by lia.
  reflexivity.
Qed.

(** A frame that does not split stops [decompress] before anything is
    decoded and leaves the object as it was. *)
Lemma decompress_split_fail self e :
  split_frame (worker self) = Raise e -> decompress None self = (Raise e, self).
Proof. intros H. run_monad. now rewrite H. Qed.

Lemma decompress_stages self t padding packed rest decoded :
  split_frame (worker self) = Ok (t, padding, packed) ->
  decode_loop t (slice_to (- padding) (bits_of_bytes packed)) = Ok (rest, decoded) ->
  Forall is_byte decoded ->
  decompress None self =
  (Ok tt, {| worker := worker self; output := decoded; comp_tools := comp_tools self |}).
Proof.
  intros Hs Hd Hb. run_monad. rewrite Hs. run_monad. cbn [fst snd].
  rewrite Hd. run_monad. cbn [snd]. rewrite (bytearray_ok Hb). reflexivity.
Qed.

(** A truncated buffer does not split: the codec rejects the tree bytes,
    or they load and the padding byte is past the end. *)
Lemma split_frame_truncated w :
  Forall is_byte w ->
  len w < 3 \/ len w - 2 < from_bytes (slice 0 2 w) ->
  split_frame w =
  Raise match loads (slice 2 (from_bytes (slice 0 2 w) + 2) w) with
        | Raise e => e
        | Ok _ => IndexError
        end.
Proof.
  intros Hb Ht. unfold split_frame.
  assert (Hn : 0 <= from_bytes (slice 0 2 w)).
  { apply from_bytes_nonneg. unfold slice. now apply Forall_firstn, Forall_skipn. }
  set (len_tree := from_bytes (slice 0 2 w)) in *.
  destruct (loads (slice 2 (len_tree + 2) w)) as [t|e]; cbn [rbind]; [|reflexivity].
  rewrite index_nonneg by lia.
  replace (nth_error w (Z.to_nat (len_tree + 2))) with (@None Z); [reflexivity|].
  symmetry. apply nth_error_None. unfold len in Ht. lia.
Qed.

End DecompressStages.

(* ------------------------------------------------------------------ *)
(** ** The properties of the two methods *)

Lemma prefix_free_positions (d : dict str) i j e1 e2 :
  NoDup (keys d) -> prefix_free d ->
  nth_error d i = Some e1 -> nth_error d j = Some e2 ->
  is_prefix (snd e1) (snd e2) -> i = j.
Proof.
  intros Hnd Hpf H1 H2 Hp. destruct e1 as [k1 v1], e2 as [k2 v2].
  assert (Hk : k1 = k2).
  { eapply Hpf; [eapply nth_error_In; exact H1 | eapply nth_error_In; exact H2 | exact Hp]. }
  subst k2. unfold keys in Hnd. rewrite NoDup_nth_error in Hnd. apply Hnd.
  - rewrite length_map. apply nth_error_Some. now rewrite H1.
  - now rewrite !nth_error_map, H1, H2.
Qed.

Section Properties.
Context {codec : TreeCodec}.

(** C5. After a compression of a buffer with at least two distinct byte
    values, the trace dictionary has exactly one entry for every byte value
    of the frequency table (its keys are pairwise distinct and are the keys
    of the frequency table, which are the byte values of the buffer), and
    no code of an entry is a prefix of the code of another entry. *)
Theorem code_table_complete_prefix_free alt_in self :
  two_distinct (worker_of alt_in self) ->
  let tools := comp_tools (snd (compress alt_in self)) in
  NoDup (keys (trace tools)) /\
  (forall k, In k (keys (trace tools)) <-> In k (keys (frequency tools))) /\
  NoDup (keys (frequency tools)) /\
  (forall k, In k (keys (frequency tools)) <-> In k (worker_of alt_in self)) /\
  (forall i j e1 e2,
      nth_error (trace tools) i = Some e1 -> nth_error (trace tools) j = Some e2 ->
      i <> j -> ~ is_prefix (snd e1) (snd e2)).
Proof.
  unfold worker_of. rewrite compress_alt_in.
  set (self0 := snd (use_alt_in alt_in self)). intros H2.
  destruct (stages_exist H2) as (first & second & encoded & p & ints & S).
  rewrite (compress_run self0 S). cbv zeta.
  assert (E : forall (b : bool) (x y : result unit * Huffman),
             comp_tools (snd x) = comp_tools (snd y) ->
             comp_tools (snd (if b then x else y)) = comp_tools (snd x))
    by (intros [] ? ? ?; auto).
  rewrite E by reflexivity. cbn [snd comp_tools trace frequency].
  repeat split.
  - apply S.
  - intros Hin. eapply Permutation_in; [apply S | exact Hin].
  - intros Hin. eapply Permutation_in; [symmetry; apply S | exact Hin].
  - apply count_frequency_nodup.
  - apply count_frequency_keys.
  - apply count_frequency_keys.
  - intros i j e1 e2 H1 Hj Hij Hp. apply Hij.
    eapply prefix_free_positions; eauto; apply S.
Qed.

(** C6. At every iteration of the builder loop the working list is sorted
    largest frequency first, so the two candidates popped from its end and
    combined into the new branch have the two lowest frequencies of the
    working list; which candidates they are among equal frequencies is
    fixed by their place in the list, the last one and the one before. *)
Theorem builder_combines_two_lowest w sf :
  loop_state (initial_candidates (count_frequency w)) sf ->
  loop_cond sf = true ->
  exists rest set2 set1,
    sf = rest ++ [set2; set1] /\
    pop sf = Ok (set1, rest ++ [set2]) /\
    pop (rest ++ [set2]) = Ok (set2, rest) /\
    loop_body sf = Ok (sorted_desc cand_freq (rest ++ [new_branch set1 set2])) /\
    cand_freq (new_branch set1 set2) = cand_freq set1 + cand_freq set2 /\
    cand_freq set1 <= cand_freq set2 /\
    Forall (fun c => cand_freq set2 <= cand_freq c) rest.
Proof.
  intros Hs Hc.
  apply loop_state_sorted in Hs; [|apply initial_candidates_sorted].
  apply loop_cond_true in Hc.
  destruct (last_two sf) as (rest & set2 & set1 & ->); [lia|].
  exists rest, set2, set1.
  destruct (sorted_last_two _ _ _ Hs) as [H1 H2].
  repeat split; try assumption.
  - replace (rest ++ [set2; set1]) with ((rest ++ [set2]) ++ [set1])
      by now rewrite <- app_assoc.
    apply pop_snoc.
  - apply pop_snoc.
  - apply loop_body_snoc.
Qed.

End Properties.

Section FrameProperties.
Context {codec : TreeCodec}.

(** C7. A frame produced by [compress] is the two-byte big-endian length
    of the serialized tree, the serialized tree, one byte of padding count,
    and the packed code bits, each byte holding eight bits most significant
    first; so the frame is at least three bytes longer than the tree. *)
Theorem frame_layout_of_compress alt_in self self' :
  compress alt_in self = (Ok tt, self') ->
  exists tree_bytes encoded (padding : nat) packed,
    output self' =
      [len tree_bytes / 256; len tree_bytes mod 256] ++ tree_bytes
        ++ [Z.of_nat padding] ++ packed /\
    tree_bytes = dumps (PList (tree (comp_tools self'))) /\
    0 <= len tree_bytes < 65536 /\
    from_bytes (slice 0 2 (output self')) = len tree_bytes /\
    Forall is_byte (Z.of_nat padding :: packed) /\
    encode (trace (comp_tools self')) (worker self') = Ok encoded /\
    chunk_ints (encoded ++ repeat c1 padding) = Ok packed /\
    bits_of_bytes packed = encoded ++ repeat c1 padding /\
    3 + len tree_bytes <= len (output self').
Proof.
  rewrite compress_alt_in. set (self0 := snd (use_alt_in alt_in self)). intros H.
  pose proof (compress_ok_two_distinct self0 H) as H2.
  destruct (stages_exist H2) as (first & second & encoded & p & ints & S).
  rewrite (compress_run self0 S) in H. cbv zeta in H. cbn [tree] in H.
  destruct (len (dumps (PList [cand_tree first; cand_tree second])) <? 65536) eqn:E;
    [|discriminate].
  apply Z.ltb_lt in E. injection H as <-. cbn [output comp_tools tree trace worker].
  set (tree_bytes := dumps (PList [cand_tree first; cand_tree second])) in *.
  pose proof (len_nonneg tree_bytes) as Hn.
  exists tree_bytes, encoded, p, ints. repeat split; try assumption; try apply S.
  - unfold slice. simpl firstn. now apply from_bytes_to_bytes2.
  - constructor; [|apply S]. pose proof (st_bound S). unfold is_byte. lia.
  - unfold len. cbn [app length]. rewrite length_app. cbn [length]. lia.
Qed.

(** C10. In a compression of a buffer with at least two distinct byte
    values the padding loop appends [padding] 1s to the encoded bits, with
    [0 <= padding <= 7], which is the least number that makes the length a
    multiple of eight; and the frame records [padding] in the byte after
    the serialized tree. *)
Theorem padding_count_bounds alt_in self :
  two_distinct (worker_of alt_in self) ->
  exists encoded (padding : nat),
    encode (trace (comp_tools (snd (compress alt_in self)))) (worker_of alt_in self)
      = Ok encoded /\
    pad_loop encoded = Ok (encoded ++ repeat c1 padding, Z.of_nat padding) /\
    0 <= Z.of_nat padding <= 7 /\
    len (encoded ++ repeat c1 padding) mod 8 = 0 /\
    (forall q : nat, len (encoded ++ repeat c1 q) mod 8 = 0 -> (padding <= q)%nat) /\
    (forall self', compress alt_in self = (Ok tt, self') ->
       index (output self') (len (dumps (PList (tree (comp_tools self')))) + 2)
         = Ok (Z.of_nat padding)).
Proof.
  unfold worker_of. rewrite compress_alt_in.
  set (self0 := snd (use_alt_in alt_in self)). intros H2.
  destruct (stages_exist H2) as (first & second & encoded & p & ints & S).
  rewrite (compress_run self0 S). cbv zeta. cbn [tree].
  set (tree_bytes := dumps (PList [cand_tree first; cand_tree second])) in *.
  exists encoded, p.
  assert (E : forall (b : bool) (x y : result unit * Huffman),
             comp_tools (snd x) = comp_tools (snd y) ->
             comp_tools (snd (if b then x else y)) = comp_tools (snd x))
    by (intros [] ? ? ?; auto).
  rewrite E by reflexivity. cbn [snd comp_tools trace].
  pose proof (st_bound S).
  repeat split; try apply S; try lia.
  intros self' H'. destruct (len tree_bytes <? 65536); [|discriminate].
  injection H' as <-. cbn [output comp_tools tree]. fold tree_bytes.
  pose proof (len_nonneg tree_bytes) as Hn.
  rewrite index_nonneg by lia.
  replace (Z.to_nat (len tree_bytes + 2)) with (2 + length tree_bytes)%nat
    by (unfold len; lia).
  simpl nth_error. rewrite nth_error_app2 by lia. now rewrite Nat.sub_diag.
Qed.

(** C4. A frame whose padding count is 0 decompresses to the empty byte
    sequence, whatever its packed bits are: [bit_string[:-0]] is empty, so
    the decoding loop does not run. *)
Theorem decompress_zero_padding alt_in self tree_bytes packed decomp_tree :
  worker_of alt_in self = frame tree_bytes 0 packed ->
  loads tree_bytes = Ok decomp_tree ->
  slice_to (- 0) (bits_of_bytes packed) = [] /\
  decompress alt_in self =
  (Ok tt, {| worker := frame tree_bytes 0 packed; output := [];
             comp_tools := comp_tools (snd (use_alt_in alt_in self)) |}).
Proof.
  unfold worker_of. rewrite decompress_alt_in.
  set (self0 := snd (use_alt_in alt_in self)). intros Hw Hl.
  split; [reflexivity|]. rewrite <- Hw.
  apply decompress_stages with (t := decomp_tree) (padding := 0) (packed := packed)
                               (rest := []).
  - rewrite Hw, split_frame_layout, Hl. reflexivity.
  - reflexivity.
  - constructor.
Qed.

(** C8 (as the code has it). [decompress] has no check for a cut frame
    and no error of its own for it.  On a byte buffer shorter than three
    bytes, or whose declared tree length exceeds what follows the length
    field, it raises while it splits the frame: what the codec raises on
    the tree bytes or, when they load, IndexError at the padding byte.
    Nothing is decoded and nothing is assigned: the object is as it stood
    once [alt_in] was taken in. *)
Theorem decompress_truncated_frame alt_in self :
  let w := worker_of alt_in self in
  let e := match loads (slice 2 (from_bytes (slice 0 2 w) + 2) w) with
           | Raise e => e
           | Ok _ => IndexError
           end in
  Forall is_byte w ->
  len w < 3 \/ len w - 2 < from_bytes (slice 0 2 w) ->
  split_frame w = Raise e /\
  decompress alt_in self =
  (Raise e,
   if truthy alt_in
   then {| worker := w; output := []; comp_tools := empty_tools |}
   else self).
Proof.
  cbv zeta. rewrite <- use_alt_in_object. unfold worker_of. rewrite decompress_alt_in.
  set (self0 := snd (use_alt_in alt_in self)). intros Hb Ht.
  pose proof (split_frame_truncated Hb Ht) as Hs.
  split; [exact Hs|]. now apply decompress_split_fail.
Qed.

End FrameProperties.

Section RoundTrip.
Context {codec : TreeCodec}.

(** C1. The round trip is lost whenever no padding is needed: for a buffer
    with at least two distinct byte values whose encoded bit length is a
    multiple of eight, [compress] records the padding count 0 and
    [decompress], cutting the bit string with [bit_string[:-0]], returns
    the empty byte sequence instead of the buffer. *)
Theorem round_trip_lost_without_padding buffer encoded :
  two_distinct buffer ->
  encode (trace (comp_tools (snd (compress None (new_Huffman buffer))))) buffer
    = Ok encoded ->
  len encoded mod 8 = 0 ->
  loads (dumps (PList (tree (comp_tools (snd (compress None (new_Huffman buffer)))))))
    = Ok (PList (tree (comp_tools (snd (compress None (new_Huffman buffer)))))) ->
  len (dumps (PList (tree (comp_tools (snd (compress None (new_Huffman buffer))))))) < 65536 ->
  exists fr,
    compress_bytes buffer = Ok fr /\
    decompress_bytes fr = Ok [] /\
    decompress_bytes fr <> Ok buffer.
Proof.
  intros H2.
  assert (Hw : worker (new_Huffman buffer) = buffer) by reflexivity.
  rewrite <- Hw in H2.
  destruct (stages_exist H2) as (first & second & encoded' & p & ints & S).
  unfold compress_bytes, decompress_bytes, run.
  rewrite (compress_run (new_Huffman buffer) S). cbv zeta. cbn [tree].
  set (tree_bytes := dumps (PList [cand_tree first; cand_tree second])) in *.
  assert (E : forall (b : bool) (x y : result unit * Huffman),
             comp_tools (snd x) = comp_tools (snd y) ->
             comp_tools (snd (if b then x else y)) = comp_tools (snd x))
    by (intros [] ? ? ?; auto).
  rewrite !E by reflexivity. cbn [snd comp_tools trace tree]. fold tree_bytes.
  intros He Hm Hl Hlen.
  rewrite Hw in S. rewrite (st_encode S) in He. injection He as ->.
  assert (Hp : p = 0%nat).
  { pose proof (st_least S 0%nat) as Hq. simpl repeat in Hq.
    rewrite app_nil_r in Hq. specialize (Hq Hm). lia. }
  subst p.
  replace (len tree_bytes <? 65536) with true by (symmetry; now apply Z.ltb_lt).
  cbn [output worker].
  eexists. split; [reflexivity|].
  fold (frame tree_bytes (Z.of_nat 0) ints).
  assert (Hd : decompress None (new_Huffman (frame tree_bytes (Z.of_nat 0) ints)) =
               (Ok tt, {| worker := frame tree_bytes 0 ints; output := [];
                          comp_tools := empty_tools |})).
  { apply (@decompress_stages codec (new_Huffman (frame tree_bytes 0 ints))
             (PList [cand_tree first; cand_tree second]) 0 ints [] []).
    - change (worker (new_Huffman (frame tree_bytes 0 ints)))
        with (frame tree_bytes 0 ints).
      rewrite split_frame_layout, Hl. reflexivity.
    - reflexivity.
    - constructor. }
  rewrite Hd. cbn [output]. split; [reflexivity|].
  destruct H2 as (a & _ & Ha & _). destruct buffer; [contradiction | discriminate].
Qed.

(** The round trip holds whenever padding is needed: for a buffer of bytes
    with at least two distinct values whose encoded bit length is not a
    multiple of eight, [decompress] applied to the frame [compress] made
    returns the buffer, for any codec that restores the tree it serialized
    within the two-byte length. *)
Theorem round_trip_with_padding buffer encoded :
  two_distinct buffer ->
  Forall is_byte buffer ->
  encode (trace (comp_tools (snd (compress None (new_Huffman buffer))))) buffer
    = Ok encoded ->
  len encoded mod 8 <> 0 ->
  loads (dumps (PList (tree (comp_tools (snd (compress None (new_Huffman buffer)))))))
    = Ok (PList (tree (comp_tools (snd (compress None (new_Huffman buffer)))))) ->
  len (dumps (PList (tree (comp_tools (snd (compress None (new_Huffman buffer))))))) < 65536 ->
  exists fr,
    compress_bytes buffer = Ok fr /\
    decompress_bytes fr = Ok buffer.
Proof.
  intros H2 Hbytes.
  assert (Hw : worker (new_Huffman buffer) = buffer) by reflexivity.
  rewrite <- Hw in H2.
  destruct (stages_exist H2) as (first & second & encoded' & p & ints & S).
  unfold compress_bytes, decompress_bytes, run.
  rewrite (compress_run (new_Huffman buffer) S). cbv zeta. cbn [tree].
  set (t := PList [cand_tree first; cand_tree second]) in *.
  set (tree_bytes := dumps t) in *.
  assert (E : forall (b : bool) (x y : result unit * Huffman),
             comp_tools (snd x) = comp_tools (snd y) ->
             comp_tools (snd (if b then x else y)) = comp_tools (snd x))
    by (intros [] ? ? ?; auto).
  rewrite !E by reflexivity. cbn [snd comp_tools trace tree]. fold t. fold tree_bytes.
  intros He Hm Hl Hlen.
  rewrite Hw in S. rewrite (st_encode S) in He. injection He as ->.
  assert (Hp : (0 < p)%nat).
  { destruct p; [|lia]. pose proof (st_mod S) as Hq. simpl repeat in Hq.
    rewrite app_nil_r in Hq. contradiction. }
  replace (len tree_bytes <? 65536) with true by (symmetry; now apply Z.ltb_lt).
  cbn [output worker].
  eexists. split; [reflexivity|].
  fold (frame tree_bytes (Z.of_nat p) ints).
  destruct (encode_inv _ _ (st_encode S)) as (codes & Hcodes & ->).
  assert (Hd : decompress None (new_Huffman (frame tree_bytes (Z.of_nat p) ints)) =
               (Ok tt, {| worker := frame tree_bytes (Z.of_nat p) ints; output := buffer;
                          comp_tools := empty_tools |})).
  { apply (@decompress_stages codec (new_Huffman (frame tree_bytes (Z.of_nat p) ints))
             t (Z.of_nat p) ints [] buffer).
    - change (worker (new_Huffman (frame tree_bytes (Z.of_nat p) ints)))
        with (frame tree_bytes (Z.of_nat p) ints).
      rewrite split_frame_layout, Hl. reflexivity.
    - rewrite (st_bits S), slice_to_padding by exact Hp.
      unfold decode_loop.
      apply (@decode_codes t _ (st_walk S) _ _ Hcodes (length (concat codes)) []
               (Nat.le_refl _)).
    - exact Hbytes. }
  rewrite Hd. reflexivity.
Qed.

(** C2. The code breaks the claim.  On a non-empty buffer with exactly
    one distinct byte value [compress] stores the one-entry frequency table
    and the one-leaf tree, then raises IndexError at the trace line, which
    indexes the second of the two top-level candidates the builder loop is
    meant to leave.  No frame is made: the output field is never assigned,
    so it holds the empty value [new_worker] gave it when a truthy [alt_in]
    was taken in and the stored value otherwise, and so does the trace. *)
Theorem single_symbol_raises alt_in self b rest :
  worker_of alt_in self = b :: rest ->
  Forall (eq b) rest ->
  compress alt_in self =
  (Raise IndexError,
   {| worker := b :: rest;
      output := if truthy alt_in then [] else output self;
      comp_tools := {| frequency := [(b, 1 + len rest)];
                       tree := [PInt b];
                       trace := if truthy alt_in then [] else trace (comp_tools self) |} |}).
Proof.
  unfold worker_of. rewrite compress_alt_in.
  set (self0 := snd (use_alt_in alt_in self)). intros Hw Hr.
  assert (Hf : count_frequency (worker self0) = [(b, 1 + len rest)]).
  { rewrite Hw. unfold count_frequency. cbn [fold_left].
    change (count_char [] b) with [(b, 1)]. now apply count_fold_single. }
  rewrite compress_degenerate by (rewrite Hf; simpl; lia).
  rewrite Hf, Hw. subst self0. destruct alt_in as [[|x l]|]; reflexivity.
Qed.

(** C3 (as the code has it). On the empty buffer [compress] runs the
    builder on the zero-entry frequency table: the loop does not iterate,
    the empty tree is stored, and the trace line raises IndexError on the
    first of the top-level candidates; the output field is not written. *)
Theorem empty_buffer_raises out tools :
  build_loop (initial_candidates (count_frequency [])) = Ok [] /\
  compress None {| worker := []; output := out; comp_tools := tools |} =
  (Raise IndexError,
   {| worker := []; output := out;
      comp_tools := {| frequency := []; tree := []; trace := trace tools |} |}).
Proof. split; reflexivity. Qed.

End RoundTrip.

(* ------------------------------------------------------------------ *)
(** ** The properties on the buffers of the scenarios *)

Lemma code_table_complete_prefix_free_witness :
  let tools := comp_tools (snd (@compress list_codec None (new_Huffman abc9))) in
  NoDup (keys (trace tools)) /\
  (forall k, In k (keys (trace tools)) <-> In k (keys (frequency tools))) /\
  NoDup (keys (frequency tools)) /\
  (forall k, In k (keys (frequency tools)) <-> In k (worker_of None (new_Huffman abc9))) /\
  (forall i j e1 e2,
      nth_error (trace tools) i = Some e1 -> nth_error (trace tools) j = Some e2 ->
      i <> j -> ~ is_prefix (snd e1) (snd e2)).
Proof.
  apply (@code_table_complete_prefix_free list_codec None (new_Huffman abc9)).
  exists 97, 98. simpl. repeat split; auto. discriminate.
Defined.

Lemma builder_combines_two_lowest_witness :
  exists rest set2 set1,
    initial_candidates (count_frequency abc9) = rest ++ [set2; set1] /\
    pop (initial_candidates (count_frequency abc9)) = Ok (set1, rest ++ [set2]) /\
    pop (rest ++ [set2]) = Ok (set2, rest) /\
    loop_body (initial_candidates (count_frequency abc9)) =
      Ok (sorted_desc cand_freq (rest ++ [new_branch set1 set2])) /\
    cand_freq (new_branch set1 set2) = cand_freq set1 + cand_freq set2 /\
    cand_freq set1 <= cand_freq set2 /\
    Forall (fun c => cand_freq set2 <= cand_freq c) rest.
Proof.
  apply (builder_combines_two_lowest abc9).
  - apply loop_first.
  - reflexivity.
Defined.

Lemma round_trip_lost_without_padding_witness :
  exists fr,
    @compress_bytes list_codec ab8 = Ok fr /\
    @decompress_bytes list_codec fr = Ok [] /\
    @decompress_bytes list_codec fr <> Ok ab8.
Proof.
  apply (@round_trip_lost_without_padding list_codec ab8
           (map ascii_of_nat [48; 49; 48; 49; 48; 49; 48; 49]%nat)).
  - exists 97, 98. simpl. repeat split; auto. discriminate.
  - vm_compute. reflexivity.
  - vm_compute. reflexivity.
  - vm_compute. reflexivity.
  - vm_compute. reflexivity.
Defined.

Lemma round_trip_with_padding_witness :
  exists fr,
    @compress_bytes list_codec abc9 = Ok fr /\
    @decompress_bytes list_codec fr = Ok abc9.
Proof.
  apply (@round_trip_with_padding list_codec abc9
           (map ascii_of_nat [49; 48; 49; 48; 48; 49; 48; 49; 48; 48; 49; 48; 49; 48; 48]%nat)).
  - exists 97, 98. simpl. repeat split; auto. discriminate.
  - repeat constructor; vm_compute; discriminate.
  - vm_compute. reflexivity.
  - vm_compute. discriminate.
  - vm_compute. reflexivity.
  - vm_compute. reflexivity.
Defined.

Lemma aaaa_compress_raises :
  @compress_bytes list_codec aaaa = Raise IndexError /\
  ~ (exists fr, @compress_bytes list_codec aaaa = Ok fr /\
                @decompress_bytes list_codec fr = Ok aaaa).
Proof.
  split; [reflexivity|]. intros (fr & H & _). vm_compute in H. discriminate.
Qed.

Lemma single_symbol_raises_witness :
  @compress list_codec None (new_Huffman aaaa) =
  (Raise IndexError,
   {| worker := aaaa; output := [];
      comp_tools := {| frequency := [(97, 4)]; tree := [PInt 97]; trace := [] |} |}).
Proof.
  apply (@single_symbol_raises list_codec None (new_Huffman aaaa) 97 [97; 97; 97]).
  - reflexivity.
  - repeat constructor.
Defined.

Lemma empty_compress_raises :
  @compress_bytes list_codec [] = Raise IndexError /\
  build_loop (initial_candidates (count_frequency [])) = Ok [] /\
  tree (comp_tools (snd (@compress list_codec None (new_Huffman [])))) = [] /\
  ~ (exists fr, @compress_bytes list_codec [] = Ok fr).
Proof.
  repeat split. intros (fr & H). vm_compute in H. discriminate.
Qed.

Lemma frame_layout_of_compress_witness :
  exists tree_bytes encoded (padding : nat) packed,
    output (snd (@compress list_codec None (new_Huffman abc9))) =
      [len tree_bytes / 256; len tree_bytes mod 256] ++ tree_bytes
        ++ [Z.of_nat padding] ++ packed /\
    tree_bytes =
      @dumps list_codec (PList (tree (comp_tools (snd (@compress list_codec None (new_Huffman abc9)))))) /\
    0 <= len tree_bytes < 65536 /\
    from_bytes (slice 0 2 (output (snd (@compress list_codec None (new_Huffman abc9)))))
      = len tree_bytes /\
    Forall is_byte (Z.of_nat padding :: packed) /\
    encode (trace (comp_tools (snd (@compress list_codec None (new_Huffman abc9)))))
           (worker (snd (@compress list_codec None (new_Huffman abc9)))) = Ok encoded /\
    chunk_ints (encoded ++ repeat c1 padding) = Ok packed /\
    bits_of_bytes packed = encoded ++ repeat c1 padding /\
    3 + len tree_bytes <= len (output (snd (@compress list_codec None (new_Huffman abc9)))).
Proof.
  apply (@frame_layout_of_compress list_codec None (new_Huffman abc9)).
  vm_compute. reflexivity.
Defined.

Lemma padding_count_bounds_witness :
  exists encoded (padding : nat),
    encode (trace (comp_tools (snd (@compress list_codec None (new_Huffman abc9)))))
           (worker_of None (new_Huffman abc9)) = Ok encoded /\
    pad_loop encoded = Ok (encoded ++ repeat c1 padding, Z.of_nat padding) /\
    0 <= Z.of_nat padding <= 7 /\
    len (encoded ++ repeat c1 padding) mod 8 = 0 /\
    (forall q : nat, len (encoded ++ repeat c1 q) mod 8 = 0 -> (padding <= q)%nat) /\
    (forall self', @compress list_codec None (new_Huffman abc9) = (Ok tt, self') ->
       index (output self') (len (@dumps list_codec (PList (tree (comp_tools self')))) + 2)
         = Ok (Z.of_nat padding)).
Proof.
  apply (@padding_count_bounds list_codec None (new_Huffman abc9)).
  exists 97, 98. simpl. repeat split; auto. discriminate.
Defined.

Lemma decompress_zero_padding_witness :
  slice_to (- 0) (bits_of_bytes [85]) = [] /\
  @decompress list_codec None (new_Huffman (frame [93; 2; 75; 97; 75; 98; 46] 0 [85])) =
  (Ok tt, {| worker := frame [93; 2; 75; 97; 75; 98; 46] 0 [85]; output := [];
             comp_tools := empty_tools |}).
Proof.
  apply (@decompress_zero_padding list_codec None
           (new_Huffman (frame [93; 2; 75; 97; 75; 98; 46] 0 [85]))
           [93; 2; 75; 97; 75; 98; 46] [85] (PList [PInt 97; PInt 98])).
  - reflexivity.
  - vm_compute. reflexivity.
Defined.

Lemma decompress_truncated_frame_witness :
  @split_frame list_codec [0; 9; 93] = Raise UnpicklingError /\
  @decompress list_codec None (new_Huffman [0; 9; 93]) =
  (Raise UnpicklingError, new_Huffman [0; 9; 93]).
Proof.
  apply (@decompress_truncated_frame list_codec None (new_Huffman [0; 9; 93])).
  - repeat constructor; vm_compute; discriminate.
  - right. vm_compute. reflexivity.
Defined.

(** C8, against the claim as stated: a cut frame has no error of its own.
    When the tree bytes are cut, [decompress] raises what the codec raises;
    when the length field declares more bytes than follow and those that
    follow load as a tree, it raises IndexError at the padding byte, as it
    does on a whole frame whose bits end inside a code. *)
Lemma truncated_frame_raises :
  @decompress_bytes list_codec [0; 9; 93] = Raise UnpicklingError /\
  @decompress_bytes list_codec ([0; 9] ++ [93; 2; 75; 97; 75; 98; 46]) = Raise IndexError /\
  @decompress_bytes list_codec
     (frame [93; 2; 93; 2; 75; 97; 75; 98; 75; 99; 46] 7 [127]) = Raise IndexError.
Proof. repeat split; vm_compute; reflexivity. Qed.

(* ------------------------------------------------------------------ *)
(** ** The frequency table *)

Lemma dict_get_set {V} k c (v : V) d :
  dict_get k (dict_set c v d) = if k =? c then Some v else dict_get k d.
Proof.
  induction d as [|[k' v'] d IH]; simpl.
  - reflexivity.
  - destruct (c =? k') eqn:E; simpl.
    + apply Z.eqb_eq in E. subst. destruct (k =? k'); reflexivity.
    + rewrite IH. destruct (k =? k') eqn:E1; [|reflexivity].
      apply Z.eqb_eq in E1. subst. apply Z.eqb_neq in E.
      destruct (k' =? c) eqn:E2; [apply Z.eqb_eq in E2; congruence | reflexivity].
Qed.

Lemma count_of_count_char wf c k :
  count_of (count_char wf c) k = count_of wf k + (if k =? c then 1 else 0).
Proof.
  unfold count_of, count_char.
  destruct (dict_get c wf) as [n|] eqn:E; rewrite dict_get_set;
    destruct (k =? c) eqn:Ek.
  - apply Z.eqb_eq in Ek. subst. now rewrite E.
  - destruct (dict_get k wf); lia.
  - apply Z.eqb_eq in Ek. subst. now rewrite E.
  - destruct (dict_get k wf); lia.
Qed.

Lemma count_of_fold w : forall wf k,
  count_of (fold_left count_char w wf) k =
  count_of wf k + Z.of_nat (count_occ Z.eq_dec w k).
Proof.
  induction w as [|c w IH]; intros wf k; simpl.
  - lia.
  - rewrite IH, count_of_count_char.
    destruct (Z.eq_dec c k) as [->|Hne].
    + rewrite Z.eqb_refl. lia.
    + replace (k =? c) with false by (symmetry; apply Z.eqb_neq; congruence). lia.
Qed.

Lemma count_frequency_snoc_keys w c :
  keys (count_frequency (w ++ [c])) =
  keys (count_frequency w) ++ (if in_dec Z.eq_dec c w then [] else [c]).
Proof.
  unfold count_frequency. rewrite fold_left_app. cbn [fold_left].
  rewrite count_char_keys.
  fold (count_frequency w).
  destruct (in_dec Z.eq_dec c (keys (count_frequency w))) as [H|H];
    destruct (in_dec Z.eq_dec c w) as [H'|H']; try reflexivity.
  - now rewrite app_nil_r.
  - exfalso. apply H'. now apply count_frequency_keys.
  - exfalso. apply H. now apply count_frequency_keys.
Qed.

Lemma first_seen_snoc w c :
  first_seen (w ++ [c]) = first_seen w ++ (if in_dec Z.eq_dec c w then [] else [c]).
Proof.
  unfold first_seen. rewrite rev_app_distr. cbn [rev app nodup].
  destruct (in_dec Z.eq_dec c (rev w)) as [H|H];
    destruct (in_dec Z.eq_dec c w) as [H'|H'].
  - now rewrite app_nil_r.
  - apply in_rev in H. contradiction.
  - apply in_rev in H'. contradiction.
  - reflexivity.
Qed.

Lemma count_frequency_first_seen w : keys (count_frequency w) = first_seen w.
Proof.
  induction w as [|c w IH] using rev_ind; [reflexivity|].
  now rewrite count_frequency_snoc_keys, first_seen_snoc, IH.
Qed.

Lemma count_of_frequency w k :
  count_of (count_frequency w) k = Z.of_nat (count_occ Z.eq_dec w k).
Proof.
  pose proof (count_of_fold w [] k) as H. fold (count_frequency w) in H.
  rewrite H. reflexivity.
Qed.

Lemma count_frequency_get w k :
  dict_get k (count_frequency w) =
    (if in_dec Z.eq_dec k w then Some (Z.of_nat (count_occ Z.eq_dec w k)) else None).
Proof.
  pose proof (count_of_frequency w k) as H. unfold count_of in H.
  destruct (in_dec Z.eq_dec k w) as [Hin|Hin].
  - apply count_frequency_keys in Hin. destruct (dict_get_in_keys _ _ Hin) as [n Hn].
    rewrite Hn in *. now subst.
  - rewrite <- count_frequency_keys in Hin. now apply dict_get_none.
Qed.

(** The frequency counter: the table lists the distinct byte values of the
    buffer once each, in the order of their first occurrence, each with the
    number of its occurrences; a value that does not occur has no entry. *)
Theorem frequency_table_counts w k :
  keys (count_frequency w) = first_seen w /\
  dict_get k (count_frequency w) =
    (if in_dec Z.eq_dec k w then Some (Z.of_nat (count_occ Z.eq_dec w k)) else None).
Proof. split; [apply count_frequency_first_seen | apply count_frequency_get]. Qed.

(* ------------------------------------------------------------------ *)
(** ** The tie-break rule *)

Lemma insert_desc_filter {A} (key : A -> Z) n x l :
  filter (fun y => key y =? n) (insert_desc key x l) =
  filter (fun y => key y =? n) (x :: l).
Proof.
  induction l as [|y l IH]; [reflexivity|].
  cbn [insert_desc]. destruct (key x <? key y) eqn:E; [|reflexivity].
  apply Z.ltb_lt in E. cbn [filter] in *. rewrite IH.
  destruct (key x =? n) eqn:Ex, (key y =? n) eqn:Ey; try reflexivity.
  apply Z.eqb_eq in Ex, Ey. lia.
Qed.

Lemma sorted_desc_filter {A} (key : A -> Z) n l :
  filter (fun y => key y =? n) (sorted_desc key l) = filter (fun y => key y =? n) l.
Proof.
  induction l as [|x l IH]; [reflexivity|].
  cbn [sorted_desc fold_right]. fold (sorted_desc key l).
  rewrite insert_desc_filter. cbn [filter]. now rewrite IH.
Qed.

Lemma filter_map_comm {A B} (f : A -> B) (p : B -> bool) l :
  filter p (map f l) = map f (filter (fun x => p (f x)) l).
Proof.
  induction l as [|x l IH]; simpl; [reflexivity|].
  destruct (p (f x)); simpl; now rewrite IH.
Qed.

(** The tie-break rule.  The working list is sorted largest frequency
    first by a stable sort: leaf candidates of equal frequency stand in the
    order in which their byte values first occur in the buffer, and the
    branch an iteration appends stands behind every older candidate of the
    same frequency.  As the loop pops from the end, among equal frequencies
    the newest branch is combined first and the byte seen first last. *)
Theorem tie_break_by_position w rest set2 set1 n :
  filter (fun c => cand_freq c =? n) (initial_candidates (count_frequency w)) =
    map leaf_cand (filter (fun char => snd char =? n) (count_frequency w)) /\
  keys (count_frequency w) = first_seen w /\
  exists sf',
    loop_body (rest ++ [set2; set1]) = Ok sf' /\
    StronglySorted (desc cand_freq) sf' /\
    filter (fun c => cand_freq c =? n) sf' =
      filter (fun c => cand_freq c =? n) rest ++
      (if cand_freq set1 + cand_freq set2 =? n then [new_branch set1 set2] else []).
Proof.
  split; [|split].
  - unfold initial_candidates.
    change (fun char : Z * Z => (PInt (fst char), snd char, [(fst char, [])])) with leaf_cand.
    rewrite filter_map_comm. f_equal.
    change (fun x : Z * Z => cand_freq (leaf_cand x) =? n) with (fun x : Z * Z => snd x =? n).
    apply sorted_desc_filter.
  - apply count_frequency_first_seen.
  - exists (sorted_desc cand_freq (rest ++ [new_branch set1 set2])).
    split; [apply loop_body_snoc|]. split; [apply sorted_desc_sorted|].
    rewrite sorted_desc_filter, filter_app. reflexivity.
Qed.

(* ------------------------------------------------------------------ *)
(** ** The frequencies of the candidates *)

Lemma zsum_app l1 l2 : zsum (l1 ++ l2) = zsum l1 + zsum l2.
Proof. unfold zsum. induction l1; simpl; lia. Qed.

Lemma zsum_perm l1 l2 : Permutation l1 l2 -> zsum l1 = zsum l2.
Proof. unfold zsum. induction 1; simpl; lia. Qed.

Lemma occurrences_app w ks1 ks2 :
  occurrences w (ks1 ++ ks2) = occurrences w ks1 + occurrences w ks2.
Proof. unfold occurrences. now rewrite map_app, zsum_app. Qed.

Lemma occurrences_perm w ks1 ks2 :
  Permutation ks1 ks2 -> occurrences w ks1 = occurrences w ks2.
Proof. intros H. unfold occurrences. apply zsum_perm. now apply Permutation_map. Qed.

Lemma occurrences_cons w k ks :
  occurrences w (k :: ks) = Z.of_nat (count_occ Z.eq_dec w k) + occurrences w ks.
Proof. reflexivity. Qed.

Lemma occurrences_snoc w c ks :
  occurrences (w ++ [c]) ks = occurrences w ks + Z.of_nat (count_occ Z.eq_dec ks c).
Proof.
  induction ks as [|k ks IH]; [reflexivity|].
  rewrite !occurrences_cons, IH, count_occ_app. cbn [count_occ].
  destruct (Z.eq_dec c k) as [E|E]; destruct (Z.eq_dec k c) as [E'|E'];
    try congruence; lia.
Qed.

(** Every byte of the buffer is counted once by the distinct values. *)
Lemma occurrences_first_seen w : occurrences w (first_seen w) = len w.
Proof.
  induction w as [|c w IH] using rev_ind; [reflexivity|].
  rewrite first_seen_snoc, occurrences_app, occurrences_snoc, IH, len_app.
  assert (Hnd : NoDup (first_seen w)).
  { unfold first_seen. apply NoDup_rev, NoDup_nodup. }
  assert (Hin : forall k, In k (first_seen w) <-> In k w).
  { intros k. unfold first_seen. rewrite <- in_rev, nodup_In, <- in_rev. tauto. }
  destruct (in_dec Z.eq_dec c w) as [H|H].
  - change (occurrences (w ++ [c]) []) with 0.
    apply Hin in H. apply (NoDup_count_occ' Z.eq_dec) in H; [|exact Hnd].
    rewrite H. unfold len. simpl. lia.
  - assert (H0 : count_occ Z.eq_dec (first_seen w) c = 0%nat).
    { apply count_occ_not_In. now rewrite Hin. }
    rewrite H0. rewrite occurrences_cons. change (occurrences (w ++ [c]) []) with 0.
    rewrite count_occ_app. cbn [count_occ]. destruct (Z.eq_dec c c); [|congruence].
    replace (count_occ Z.eq_dec w c) with 0%nat by (symmetry; now apply count_occ_not_In).
    unfold len. simpl. lia.
Qed.

Lemma weight_inv_initial w : weight_inv w (initial_candidates (count_frequency w)).
Proof.
  unfold weight_inv, initial_candidates. apply Forall_map, Forall_forall.
  intros [c n] Hin. unfold cand_freq, cand_trace. cbn [fst snd keys map].
  unfold occurrences. simpl.
  eapply Permutation_in in Hin; [|apply sorted_desc_perm].
  assert (Hg : dict_get c (count_frequency w) = Some n).
  { pose proof (count_frequency_nodup w) as Hnd. revert Hin Hnd.
    generalize (count_frequency w). intros d. induction d as [|[k v] d IH]; [contradiction|].
    simpl. intros [[= -> ->]|Hin] Hnd.
    - now rewrite Z.eqb_refl.
    - inversion Hnd as [|? ? Hn Hnd']; subst.
      destruct (c =? k) eqn:E; [|now apply IH].
      apply Z.eqb_eq in E. subst. exfalso. apply Hn.
      change (In (fst (k, n)) (map fst d)). now apply in_map. }
  pose proof (count_of_frequency w c) as Hc. unfold count_of in Hc. rewrite Hg in Hc. lia.
Qed.

Lemma loop_state_trace_inv w sf :
  loop_state (initial_candidates (count_frequency w)) sf ->
  trace_inv (keys (count_frequency w)) sf.
Proof.
  induction 1 as [|sf sf' _ IH Hc Hb].
  - apply trace_inv_initial, count_frequency_nodup.
  - eapply trace_inv_step; eauto.
Qed.

Lemma weight_inv_step w K sf sf' :
  trace_inv K sf -> weight_inv w sf ->
  loop_cond sf = true -> loop_body sf = Ok sf' -> weight_inv w sf'.
Proof.
  intros (_ & Hnd & _) Hw Hc Hb. apply loop_cond_true in Hc.
  destruct (last_two sf) as (rest & set2 & set1 & ->); [lia|].
  rewrite loop_body_snoc in Hb. injection Hb as <-.
  rewrite all_keys_app, all_keys_two in Hnd. apply NoDup_app_remove_l in Hnd.
  assert (Hd : NoDup (keys (cand_trace set1) ++ keys (cand_trace set2)))
    by (eapply Permutation_NoDup; [apply Permutation_app_comm | exact Hnd]).
  unfold weight_inv in *. apply Forall_app in Hw. destruct Hw as [Hrest Hlast].
  inversion Hlast as [|? ? H2 Hlast']; subst. inversion Hlast' as [|? ? H1 _]; subst.
  eapply Permutation_Forall; [symmetry; apply sorted_desc_perm|].
  apply Forall_app. split; [exact Hrest|]. constructor; [|constructor].
  rewrite (new_branch_trace set1 set2 Hd), joined_keys, occurrences_app, <- H1, <- H2.
  reflexivity.
Qed.

Lemma loop_state_weight_inv w sf :
  loop_state (initial_candidates (count_frequency w)) sf -> weight_inv w sf.
Proof.
  induction 1 as [|sf sf' Hs IH Hc Hb]; [apply weight_inv_initial|].
  apply (@weight_inv_step w (keys (count_frequency w)) sf sf');
    [now apply loop_state_trace_inv | exact IH | exact Hc | exact Hb].
Qed.

(** The frequencies in the working list: at every iteration of the builder
    loop each candidate's frequency is the number of bytes of the buffer
    whose value is among the keys of its trace, and the frequencies of the
    list add up to the length of the buffer. *)
Theorem candidate_frequencies w sf :
  loop_state (initial_candidates (count_frequency w)) sf ->
  Forall (fun c => cand_freq c = occurrences w (keys (cand_trace c))) sf /\
  zsum (map cand_freq sf) = len w.
Proof.
  intros Hs. pose proof (@loop_state_weight_inv w sf Hs) as Hw.
  split; [exact Hw|].
  destruct (@loop_state_trace_inv w sf Hs) as (_ & _ & Hp).
  rewrite <- occurrences_first_seen, <- count_frequency_first_seen.
  rewrite <- (occurrences_perm w Hp).
  clear - Hw. induction Hw as [|c sf Hc _ IH]; [reflexivity|].
  change (all_keys (c :: sf)) with (keys (cand_trace c) ++ all_keys sf).
  rewrite occurrences_app, <- IH, <- Hc. reflexivity.
Qed.

(* ------------------------------------------------------------------ *)
(** ** Properties of every candidate *)

(** A property of candidates that the leaves have and that a new branch
    inherits from the two candidates it combines holds throughout the
    builder loop. *)
Lemma cand_inv_loop (Q : cand -> Prop) :
  (forall char, Q (leaf_cand char)) ->
  (forall set1 set2,
      NoDup (keys (cand_trace set1) ++ keys (cand_trace set2)) ->
      Q set1 -> Q set2 -> Q (new_branch set1 set2)) ->
  forall w sf,
    loop_state (initial_candidates (count_frequency w)) sf -> Forall Q sf.
Proof.
  intros Hleaf Hbranch w sf Hs.
  induction Hs as [|sf sf' Hs IH Hc Hb].
  - unfold initial_candidates. apply Forall_map, Forall_forall. intros char _. apply Hleaf.
  - destruct (@loop_state_trace_inv w sf Hs) as (_ & Hnd & _).
    apply loop_cond_true in Hc.
    destruct (last_two sf) as (rest & set2 & set1 & ->); [lia|].
    rewrite loop_body_snoc in Hb. injection Hb as <-.
    rewrite all_keys_app, all_keys_two in Hnd. apply NoDup_app_remove_l in Hnd.
    apply Forall_app in IH. destruct IH as [Hrest Hlast].
    inversion Hlast as [|? ? H2 Hlast']; subst. inversion Hlast' as [|? ? H1 _]; subst.
    eapply Permutation_Forall; [symmetry; apply sorted_desc_perm|].
    apply Forall_app. split; [exact Hrest|]. constructor; [|constructor].
    apply Hbranch; try assumption.
    eapply Permutation_NoDup; [apply Permutation_app_comm | exact Hnd].
Qed.

(** The two candidates the builder ends with are a state of its loop. *)
Lemma final_loop_state w first second :
  build_loop (initial_candidates (count_frequency w)) = Ok [first; second] ->
  loop_state (initial_candidates (count_frequency w)) [first; second].
Proof.
  intros Hb.
  destruct (@build_loop_inv (fun _ => True) (fun _ _ _ _ _ => I)
              (initial_candidates (count_frequency w)) I) as (sf' & Hb' & _ & Hs & _).
  rewrite Hb in Hb'. injection Hb' as <-. exact Hs.
Qed.

(** Such a property holds of the stored tree and trace, seen as the branch
    of the two final candidates. *)
Lemma cand_inv_final (Q : cand -> Prop) :
  (forall char, Q (leaf_cand char)) ->
  (forall set1 set2,
      NoDup (keys (cand_trace set1) ++ keys (cand_trace set2)) ->
      Q set1 -> Q set2 -> Q (new_branch set1 set2)) ->
  forall w first second,
    build_loop (initial_candidates (count_frequency w)) = Ok [first; second] ->
    Q (new_branch first second).
Proof.
  intros Hleaf Hbranch w first second Hb.
  pose proof (@final_loop_state w first second Hb) as Hs.
  pose proof (@cand_inv_loop Q Hleaf Hbranch w _ Hs) as HQ.
  destruct (@loop_state_trace_inv w _ Hs) as (_ & Hnd & _).
  rewrite all_keys_two in Hnd.
  inversion HQ as [|? ? H1 HQ']; subst. inversion HQ' as [|? ? H2 _]; subst.
  now apply Hbranch.
Qed.

Section AfterCompress.
Context {codec : TreeCodec}.

(** The tools a compression of a buffer with two distinct values stores. *)
Lemma compress_tools alt_in self :
  two_distinct (worker_of alt_in self) ->
  exists first second,
    build_loop (initial_candidates (count_frequency (worker_of alt_in self)))
      = Ok [first; second] /\
    comp_tools (snd (compress alt_in self)) =
    {| frequency := count_frequency (worker_of alt_in self);
       tree := [cand_tree first; cand_tree second];
       trace := cand_trace (new_branch first second) |}.
Proof.
  unfold worker_of. rewrite compress_alt_in.
  set (self0 := snd (use_alt_in alt_in self)). intros H2.
  destruct (stages_exist H2) as (first & second & encoded & p & ints & S).
  exists first, second. split; [apply S|].
  rewrite (compress_run self0 S). cbv zeta.
  destruct (len _ <? 65536); reflexivity.
Qed.

End AfterCompress.

(* ------------------------------------------------------------------ *)
(** ** The shape of the tree *)

Lemma int_of_char_0 bit : int_of_char bit = Ok 0 -> bit = c0.
Proof.
  unfold int_of_char. cbv zeta.
  destruct ((48 <=? Z.of_N (N_of_ascii bit)) && (Z.of_N (N_of_ascii bit) <=? 57));
    [|discriminate].
  intros [= H]. assert (E : N_of_ascii bit = 48%N) by lia.
  rewrite <- (ascii_N_embedding bit), E. reflexivity.
Qed.

Lemma int_of_char_1 bit : int_of_char bit = Ok 1 -> bit = c1.
Proof.
  unfold int_of_char. cbv zeta.
  destruct ((48 <=? Z.of_N (N_of_ascii bit)) && (Z.of_N (N_of_ascii bit) <=? 57));
    [|discriminate].
  intros [= H]. assert (E : N_of_ascii bit = 49%N) by lia.
  rewrite <- (ascii_N_embedding bit), E. reflexivity.
Qed.

Lemma int_of_char_nonneg bit v : int_of_char bit = Ok v -> 0 <= v.
Proof.
  unfold int_of_char. cbv zeta.
  destruct ((48 <=? Z.of_N (N_of_ascii bit)) && (Z.of_N (N_of_ascii bit) <=? 57)) eqn:E;
    [|discriminate].
  apply andb_true_iff in E. destruct E as [E _]. apply Z.leb_le in E.
  intros [= <-]. lia.
Qed.

(** Below a two-item list a path starts with a 0 into the first item or
    with a 1 into the second. *)
Lemma descend_pair a b path t :
  descend (PList [a; b]) path = Some t <->
  (path = [] /\ t = PList [a; b]) \/
  (exists p, path = c0 :: p /\ descend a p = Some t) \/
  (exists p, path = c1 :: p /\ descend b p = Some t).
Proof.
  destruct path as [|bit p]; cbn [descend].
  - split.
    + intros [= <-]. now left.
    + intros [[_ ->]|[(p & H & _)|(p & H & _)]]; [reflexivity | discriminate | discriminate].
  - split.
    + destruct (int_of_char bit) as [v|e] eqn:Ev; [|discriminate].
      pose proof (int_of_char_nonneg _ Ev) as Hv.
      rewrite index_nonneg by exact Hv.
      destruct (Z.to_nat v) as [|[|n]] eqn:En; cbn [nth_error].
      * intros H. right. left. exists p. split; [|exact H].
        f_equal. apply int_of_char_0. rewrite Ev. f_equal. lia.
      * intros H. right. right. exists p. split; [|exact H].
        f_equal. apply int_of_char_1. rewrite Ev. f_equal. lia.
      * destruct n; discriminate.
    + intros [[H _]|[(q & [= -> ->] & H)|(q & [= -> ->] & H)]]; [discriminate | |].
      * change (int_of_char c0) with (Ok 0). cbv beta iota. now rewrite index_first.
      * change (int_of_char c1) with (Ok 1). cbv beta iota. now rewrite index_second.
Qed.

Lemma leaf_shape char : cand_shape (leaf_cand char).
Proof.
  destruct char as [c n]. unfold cand_shape, leaf_cand, cand_tree, cand_trace.
  cbn [fst snd]. repeat split.
  - constructor.
  - intros [[= <- <-]|[]]. reflexivity.
  - destruct code as [|bit code]; cbn [descend]; [|discriminate].
    intros [= <-]. now left.
Qed.

Lemma new_branch_shape set1 set2 :
  NoDup (keys (cand_trace set1) ++ keys (cand_trace set2)) ->
  cand_shape set1 -> cand_shape set2 -> cand_shape (new_branch set1 set2).
Proof.
  intros Hd (Hb1 & Hl1 & Hp1) (Hb2 & Hl2 & Hp2). unfold cand_shape.
  rewrite (new_branch_trace set1 set2 Hd).
  change (cand_tree (new_branch set1 set2)) with (PList [cand_tree set1; cand_tree set2]).
  repeat split.
  - now constructor.
  - cbn [leaves map concat]. now rewrite app_nil_r, joined_keys, Hl1, Hl2.
  - intros Hin. apply descend_pair. right.
    apply in_app_or in Hin. destruct Hin as [Hin|Hin];
      apply char_count_in in Hin; destruct Hin as (p & -> & Hin).
    + left. exists p. split; [reflexivity | now apply Hp1].
    + right. exists p. split; [reflexivity | now apply Hp2].
  - intros H. apply descend_pair in H.
    destruct H as [[_ H]|[(p & -> & H)|(p & -> & H)]]; [discriminate | |];
      apply in_or_app; [left|right]; apply char_count_in; exists p;
      (split; [reflexivity|]); [now apply Hp1 | now apply Hp2].
Qed.

Section TreeShape.
Context {codec : TreeCodec}.

(** The tree a compression stores, for a buffer with at least two distinct
    byte values, is a binary tree; its leaves, left to right, are the keys
    of the trace in the order of the trace, so every byte value of the
    buffer is on exactly one leaf; and the trace lists exactly the paths of
    the tree from the root to a leaf, each with the byte value at its end. *)
Theorem stored_tree_shape alt_in self :
  two_distinct (worker_of alt_in self) ->
  let tools := comp_tools (snd (compress alt_in self)) in
  binary (PList (tree tools)) /\
  leaves (PList (tree tools)) = keys (trace tools) /\
  NoDup (leaves (PList (tree tools))) /\
  (forall k, In k (leaves (PList (tree tools))) <-> In k (worker_of alt_in self)) /\
  (forall k code,
      In (k, code) (trace tools) <-> descend (PList (tree tools)) code = Some (PInt k)).
Proof.
  intros H2. destruct (compress_tools alt_in self H2) as (first & second & Hb & ->).
  cbv zeta. cbn [tree trace].
  destruct (cand_inv_final cand_shape leaf_shape new_branch_shape _ Hb) as (H1 & H3 & H4).
  change (cand_tree (new_branch first second))
    with (PList [cand_tree first; cand_tree second]) in *.
  destruct (@loop_state_trace_inv _ _ (final_loop_state _ Hb)) as (_ & Hnd & Hp).
  rewrite all_keys_two in Hnd, Hp.
  assert (Hk : keys (cand_trace (new_branch first second)) =
               keys (cand_trace first) ++ keys (cand_trace second))
    by now rewrite (new_branch_trace first second Hnd), joined_keys.
  repeat split; try assumption.
  - rewrite H3, Hk. exact Hnd.
  - rewrite H3, Hk. intros Hin. apply count_frequency_keys.
    eapply Permutation_in; [exact Hp | exact Hin].
  - rewrite H3, Hk. intros Hin. apply count_frequency_keys in Hin.
    eapply Permutation_in; [symmetry; exact Hp | exact Hin].
  - now apply H4.
  - now apply H4.
Qed.

End TreeShape.

(* ------------------------------------------------------------------ *)
(** ** The lengths of the codes *)

Lemma leaf_short char : cand_short (leaf_cand char).
Proof.
  destruct char as [c n]. unfold cand_short, leaf_cand, cand_trace. cbn [snd]. split.
  - discriminate.
  - intros k code [[= <- <-]|[]]. simpl. lia.
Qed.

Lemma char_count_length app_val d : length (char_count app_val d) = length d.
Proof. unfold char_count. apply length_map. Qed.

Lemma new_branch_short set1 set2 :
  NoDup (keys (cand_trace set1) ++ keys (cand_trace set2)) ->
  cand_short set1 -> cand_short set2 -> cand_short (new_branch set1 set2).
Proof.
  intros Hd (Hn1 & Hl1) (Hn2 & Hl2). unfold cand_short.
  rewrite (new_branch_trace set1 set2 Hd). split.
  - destruct (cand_trace set1); [contradiction | discriminate].
  - intros k code Hin. rewrite length_app, !char_count_length.
    assert (0 < length (cand_trace set1))%nat by (destruct (cand_trace set1); simpl; [contradiction | lia]).
    assert (0 < length (cand_trace set2))%nat by (destruct (cand_trace set2); simpl; [contradiction | lia]).
    apply in_app_or in Hin. destruct Hin as [Hin|Hin];
      apply char_count_in in Hin; destruct Hin as (p & -> & Hin).
    + apply Hl1 in Hin. simpl. lia.
    + apply Hl2 in Hin. simpl. lia.
Qed.

Lemma byte_values_bounded (l : list Z) :
  NoDup l -> Forall is_byte l -> (length l <= 256)%nat.
Proof.
  intros Hnd Hb.
  replace 256%nat with (length (map Z.of_nat (seq 0 256)))
    by (now rewrite length_map, length_seq).
  apply NoDup_incl_length; [exact Hnd|].
  intros x Hx. rewrite Forall_forall in Hb. specialize (Hb x Hx). unfold is_byte in Hb.
  apply in_map_iff. exists (Z.to_nat x). split; [lia|]. apply in_seq. lia.
Qed.

Section CodeLengths.
Context {codec : TreeCodec}.

(** The codes a compression assigns, for a buffer with [n >= 2] distinct
    byte values, are between 1 and [n - 1] bits long; for a buffer of bytes
    no code is longer than 255 bits. *)
Theorem code_lengths_bounded alt_in self k code :
  two_distinct (worker_of alt_in self) ->
  In (k, code) (trace (comp_tools (snd (compress alt_in self)))) ->
  (1 <= length code <= length (first_seen (worker_of alt_in self)) - 1)%nat /\
  (Forall is_byte (worker_of alt_in self) -> (length code <= 255)%nat).
Proof.
  intros H2. destruct (compress_tools alt_in self H2) as (first & second & Hb & ->).
  cbn [trace]. intros Hin.
  destruct (cand_inv_final cand_short leaf_short new_branch_short _ Hb) as (_ & Hl).
  pose proof (Hl k code Hin) as Hlt.
  destruct (@loop_state_trace_inv _ _ (final_loop_state _ Hb)) as (_ & Hnd & Hp).
  rewrite all_keys_two in Hnd, Hp.
  assert (Hn : length (cand_trace (new_branch first second)) =
               length (first_seen (worker_of alt_in self))).
  { rewrite <- count_frequency_first_seen, <- (Permutation_length Hp).
    rewrite (new_branch_trace first second Hnd), length_app, !char_count_length.
    unfold keys. now rewrite length_app, !length_map. }
  assert (H1 : (1 <= length code)%nat).
  { rewrite (new_branch_trace first second Hnd) in Hin.
    apply in_app_or in Hin. destruct Hin as [Hin|Hin];
      apply char_count_in in Hin; destruct Hin as (p & -> & _); simpl; lia. }
  split; [lia|]. intros Hbytes.
  assert (length (first_seen (worker_of alt_in self)) <= 256)%nat.
  { apply byte_values_bounded.
    - unfold first_seen. apply NoDup_rev, NoDup_nodup.
    - apply Forall_forall. intros x Hx. rewrite Forall_forall in Hbytes. apply Hbytes.
      unfold first_seen in Hx. apply in_rev, nodup_In in Hx. now apply in_rev in Hx. }
  lia.
Qed.

End CodeLengths.

(* ------------------------------------------------------------------ *)
(** ** The overflow of the length field *)




Section Overflow.
Context {codec : TreeCodec}.





End Overflow.

(* ------------------------------------------------------------------ *)
(** ** The decoder on arbitrary bits *)

Lemma in_nodup_get {V} (d : dict V) k v :
  NoDup (keys d) -> In (k, v) d -> dict_get k d = Some v.
Proof.
  induction d as [|[k' v'] d IH]; [contradiction|].
  simpl. intros Hnd [[= -> ->]|Hin].
  - now rewrite Z.eqb_refl.
  - inversion Hnd as [|? ? Hn Hnd']; subst.
    destruct (k =? k') eqn:E; [|now apply IH].
    apply Z.eqb_eq in E. subst. exfalso. apply Hn.
    change (In (fst (k', v)) (map fst d)). now apply in_map.
Qed.

Lemma encode_of_codes tr m codes :
  Forall2 (fun k v => dict_get k tr = Some v) m codes ->
  encode tr m = Ok (concat codes).
Proof.
  intros H. unfold encode.
  replace (rmap (dict_lookup tr) m) with (Ok (A := list str) codes); [reflexivity|].
  symmetry. induction H as [|k v m codes Hkv _ IH]; [reflexivity|].
  cbn [rmap]. unfold dict_lookup at 1. rewrite Hkv. cbn [rbind]. now rewrite IH.
Qed.

(** A byte value outside the table stops the encoding with KeyError. *)
Lemma encode_missing tr m k :
  In k m -> ~ In k (keys tr) -> encode tr m = Raise KeyError.
Proof.
  intros Hin Hk. unfold encode.
  replace (rmap (dict_lookup tr) m) with (Raise (A := list str) KeyError); [reflexivity|].
  symmetry. induction m as [|x m IH]; [contradiction|].
  cbn [rmap]. unfold dict_lookup at 1.
  destruct (dict_get x tr) as [v|] eqn:E; cbn [rbind]; [|reflexivity].
  destruct Hin as [->|Hin].
  - apply dict_get_some in E. exfalso. apply Hk.
    change (In (fst (k, v)) (map fst tr)). now apply in_map.
  - now rewrite (IH Hin).
Qed.

(** In a binary tree, on a string of bits, one call of the decoder either
    runs out of bits or stops on the leaf at the end of a non-empty path. *)
Lemma recursion_binary section : forall items,
  binary (PList items) -> Forall is_bit section ->
  recursion (PList items) section = Raise IndexError \/
  exists k code rest,
    section = code ++ rest /\ code <> [] /\
    recursion (PList items) section = Ok (k, rest) /\
    descend (PList items) code = Some (PInt k).
Proof.
  induction section as [|bit cut_down IH]; intros items Hb Hbits; [now left|].
  inversion Hb as [|a b Ha Hbb]; subst.
  inversion Hbits as [|? ? Hbit Hrest]; subst.
  assert (Hsub : forall sub v,
             int_of_char bit = Ok v -> index [a; b] v = Ok sub -> binary sub ->
             recursion (PList [a; b]) (bit :: cut_down) = Raise IndexError \/
             exists k code rest,
               bit :: cut_down = code ++ rest /\ code <> [] /\
               recursion (PList [a; b]) (bit :: cut_down) = Ok (k, rest) /\
               descend (PList [a; b]) code = Some (PInt k)).
  { intros sub v Hv Hi Hs. cbn [recursion]. rewrite Hv, Hi.
    destruct sub as [c|its].
    - right. exists c, [bit], cut_down. repeat split; [discriminate|].
      cbn [descend]. now rewrite Hv, Hi.
    - destruct (IH its Hs Hrest) as [E|(k & code & rest & E1 & E2 & E3 & E4)].
      + left. exact E.
      + right. exists k, (bit :: code), rest. repeat split.
        * now rewrite E1.
        * discriminate.
        * exact E3.
        * cbn [descend]. now rewrite Hv, Hi. }
  destruct Hbit as [->| ->].
  - apply (Hsub a 0); [reflexivity | reflexivity | exact Ha].
  - apply (Hsub b 1); [reflexivity | reflexivity | exact Hbb].
Qed.

(** One iteration of the decoding loop on a bit string that is not empty. *)
Lemma decode_step t fuel bit s decoded :
  while_loop (S fuel) decode_cond (decode_body t) (bit :: s, decoded) =
  rbind (recursion t (bit :: s))
        (fun r => while_loop fuel decode_cond (decode_body t) (snd r, decoded ++ [fst r])).
Proof.
  cbn [while_loop]. unfold decode_cond at 1. cbn [fst].
  unfold decode_body at 1. cbn [fst snd].
  destruct (recursion t (bit :: s)) as [[c r]|e]; reflexivity.
Qed.

(** The decoding loop on a binary tree and a string of bits: it raises
    IndexError, or it returns the byte values at the ends of the paths the
    bit string is made of. *)
Lemma decode_binary items fuel : forall bit_string decoded,
  binary (PList items) -> Forall is_bit bit_string ->
  (length bit_string <= fuel)%nat ->
  while_loop fuel decode_cond (decode_body (PList items)) (bit_string, decoded)
    = Raise IndexError \/
  exists m codes,
    while_loop fuel decode_cond (decode_body (PList items)) (bit_string, decoded)
      = Ok ([], decoded ++ m) /\
    Forall2 (fun k code => descend (PList items) code = Some (PInt k)) m codes /\
    bit_string = concat codes.
Proof.
  induction fuel as [|fuel IH]; intros bit_string decoded Hb Hbits Hf.
  - destruct bit_string; [|simpl in Hf; lia].
    right. exists [], []. rewrite app_nil_r. repeat split. constructor.
  - destruct bit_string as [|bit s].
    { right. exists [], []. rewrite app_nil_r. repeat split. constructor. }
    rewrite decode_step.
    destruct (recursion_binary Hb Hbits) as [E|(k & code & rest & E1 & E2 & E3 & E4)].
    + rewrite E. now left.
    + rewrite E3. cbn [rbind fst snd].
      assert (Hr : Forall is_bit rest).
      { rewrite E1 in Hbits. now apply Forall_app in Hbits. }
      assert (Hl : (length rest <= fuel)%nat).
      { apply (f_equal (@length ascii)) in E1. rewrite length_app in E1.
        destruct code; [contradiction|]. simpl in *. lia. }
      destruct (IH rest (decoded ++ [k]) Hb Hr Hl) as [E|(m & codes & F1 & F2 & F3)].
      * now left.
      * right. exists (k :: m), (code :: codes). rewrite <- app_assoc in F1.
        repeat split; [exact F1 | now constructor |]. cbn [concat]. now rewrite E1, F3.
Qed.

Lemma descend_app p : forall t q,
  descend t (p ++ q) = match descend t p with
                       | Some u => descend u q
                       | None => None
                       end.
Proof.
  induction p as [|bit p IH]; intros t q; [reflexivity|].
  cbn [app descend]. destruct t as [n|items]; [reflexivity|].
  destruct (int_of_char bit) as [v|e]; [|reflexivity].
  destruct (index items v) as [sub|e]; [apply IH | reflexivity].
Qed.

(** On a path that ends on a list the decoder runs out of bits. *)
Lemma recursion_inside p : forall items inner,
  descend (PList items) p = Some (PList inner) ->
  recursion (PList items) p = Raise IndexError.
Proof.
  induction p as [|bit p IH]; intros items inner H; [reflexivity|].
  cbn [descend recursion] in *.
  destruct (int_of_char bit) as [v|e]; [|discriminate].
  destruct (index items v) as [[c|its]|e]; try discriminate.
  - destruct p; discriminate.
  - now apply IH with (inner := inner).
Qed.

(** The decoding loop, after the codes of a message, goes on with what
    follows them. *)
Lemma decode_codes_then t tr :
  (forall k code rest, In (k, code) tr -> recursion t (code ++ rest) = Ok (k, rest)) ->
  forall m codes,
    Forall2 (fun k v => dict_get k tr = Some v) m codes ->
    forall rest fuel decoded,
      (length (concat codes ++ rest) <= fuel)%nat ->
      exists fuel',
        (length rest <= fuel')%nat /\
        while_loop fuel decode_cond (decode_body t) (concat codes ++ rest, decoded) =
        while_loop fuel' decode_cond (decode_body t) (rest, decoded ++ m).
Proof.
  intros Hwalk m codes HF.
  induction HF as [|k v m codes Hkv _ IH]; intros rest fuel decoded Hf.
  - exists fuel. cbn [concat app] in *. rewrite app_nil_r. split; [exact Hf | reflexivity].
  - apply dict_get_some in Hkv.
    pose proof (Hwalk k v (concat codes ++ rest) Hkv) as Hr.
    assert (Hv : v <> []).
    { intros ->. specialize (Hwalk k [] [] Hkv). destruct t; discriminate. }
    cbn [concat] in *. rewrite <- app_assoc in *. rewrite length_app in Hf.
    destruct v as [|b v]; [contradiction|].
    destruct fuel as [|fuel]; [simpl in Hf; lia|].
    cbn [app]. rewrite decode_step. cbn [app] in Hr. rewrite Hr. cbn [rbind fst snd].
    destruct (IH rest fuel (decoded ++ [k])) as (fuel' & Hl & E); [simpl in Hf; lia|].
    exists fuel'. split; [exact Hl|]. rewrite <- app_assoc in E. exact E.
Qed.

Section Decoder.
Context {codec : TreeCodec}.

(** The tree and the trace a compression stores, as the final branch, with
    what the builder proved of them. *)
Lemma stored_code alt_in self :
  two_distinct (worker_of alt_in self) ->
  exists first second,
    comp_tools (snd (compress alt_in self)) =
    {| frequency := count_frequency (worker_of alt_in self);
       tree := [cand_tree first; cand_tree second];
       trace := final_trace first second |} /\
    NoDup (keys (final_trace first second)) /\
    (forall k, In k (keys (final_trace first second)) <-> In k (worker_of alt_in self)) /\
    bits_ok (final_trace first second) /\
    (forall k code rest,
        In (k, code) (final_trace first second) ->
        recursion (PList [cand_tree first; cand_tree second]) (code ++ rest) = Ok (k, rest)) /\
    cand_shape (new_branch first second).
Proof.
  intros H2. destruct (compress_tools alt_in self H2) as (first & second & Hb & ->).
  destruct (builder_result H2) as (f' & s' & Hb' & Hnd & Hp & _ & Hbits & Hwalk).
  rewrite Hb in Hb'. injection Hb' as <- <-.
  exists first, second.
  split; [reflexivity|]. split; [exact Hnd|]. split; [|split; [exact Hbits|split; [exact Hwalk|]]].
  - intros k. split; intros Hin.
    + apply count_frequency_keys. eapply Permutation_in; [exact Hp | exact Hin].
    + apply count_frequency_keys in Hin.
      eapply Permutation_in; [symmetry; exact Hp | exact Hin].
  - apply (cand_inv_final cand_shape leaf_shape new_branch_shape _ Hb).
Qed.

(** Decoding inverts encoding for every message over the byte values of
    the buffer, not only for the buffer: the decoding loop run with the
    stored tree on the concatenated codes of the message returns the
    message and uses up the bits.  A message with a byte value that is not
    in the buffer has no encoding: the lookup raises KeyError. *)
Theorem decode_inverts_encode alt_in self m :
  two_distinct (worker_of alt_in self) ->
  let tools := comp_tools (snd (compress alt_in self)) in
  (Forall (fun k => In k (worker_of alt_in self)) m ->
   exists encoded,
     encode (trace tools) m = Ok encoded /\
     decode_loop (PList (tree tools)) encoded = Ok ([], m)) /\
  (~ Forall (fun k => In k (worker_of alt_in self)) m ->
   encode (trace tools) m = Raise KeyError).
Proof.
  intros H2. destruct (stored_code alt_in self H2)
    as (first & second & -> & Hnd & Hk & Hbits & Hwalk & _).
  cbv zeta. cbn [tree trace]. split.
  - intros Hm.
    destruct (@encode_ok (final_trace first second) m) as (codes & _ & He & HF & _);
      [|exact Hbits|].
    { intros k Hin. apply Hk. rewrite Forall_forall in Hm. now apply Hm. }
    exists (concat codes). split; [exact He|]. unfold decode_loop.
    apply (@decode_codes _ _ Hwalk _ _ HF (length (concat codes)) [] (Nat.le_refl _)).
  - intros Hm. apply neg_Forall_Exists_neg in Hm.
    + apply Exists_exists in Hm. destruct Hm as (k & Hin & Hk').
      apply (@encode_missing _ m k Hin). intros Hkeys. apply Hk', Hk, Hkeys.
    + intros k. apply in_dec, Z.eq_dec.
Qed.

(** The decoder on an arbitrary string of bits, with the stored tree: the
    loop either raises IndexError, the bits having ended inside a code, or
    returns a message whose encoding under the stored trace is exactly the
    bit string.  It raises nothing else and leaves no bits over. *)
Theorem decode_sound alt_in self bit_string :
  two_distinct (worker_of alt_in self) ->
  Forall is_bit bit_string ->
  let tools := comp_tools (snd (compress alt_in self)) in
  decode_loop (PList (tree tools)) bit_string = Raise IndexError \/
  exists m,
    decode_loop (PList (tree tools)) bit_string = Ok ([], m) /\
    encode (trace tools) m = Ok bit_string.
Proof.
  intros H2 Hbits. destruct (stored_code alt_in self H2)
    as (first & second & -> & Hnd & _ & _ & _ & (Hbin & _ & Hpaths)).
  cbv zeta. cbn [tree trace].
  change (cand_tree (new_branch first second))
    with (PList [cand_tree first; cand_tree second]) in *.
  change (cand_trace (new_branch first second)) with (final_trace first second) in *.
  unfold decode_loop.
  destruct (@decode_binary [cand_tree first; cand_tree second] (length bit_string)
              bit_string [] Hbin Hbits (Nat.le_refl _)) as [E|(m & codes & E1 & E2 & E3)].
  - now left.
  - right. exists m. split; [exact E1|]. rewrite E3. apply encode_of_codes.
    eapply Forall2_impl; [|exact E2]. intros k code Hd.
    apply in_nodup_get; [exact Hnd | now apply Hpaths].
Qed.

(** A bit string that ends inside a code: when the codes of a message are
    followed by a proper, non-empty beginning of a code, the decoding loop
    raises IndexError. *)
Theorem decode_truncated alt_in self m encoded k p q :
  two_distinct (worker_of alt_in self) ->
  let tools := comp_tools (snd (compress alt_in self)) in
  encode (trace tools) m = Ok encoded ->
  In (k, p ++ q) (trace tools) -> p <> [] -> q <> [] ->
  decode_loop (PList (tree tools)) (encoded ++ p) = Raise IndexError.
Proof.
  intros H2. destruct (stored_code alt_in self H2)
    as (first & second & -> & Hnd & _ & _ & Hwalk & (_ & _ & Hpaths)).
  cbv zeta. cbn [tree trace]. intros He Hin Hp Hq.
  change (cand_tree (new_branch first second))
    with (PList [cand_tree first; cand_tree second]) in *.
  change (cand_trace (new_branch first second)) with (final_trace first second) in *.
  destruct (encode_inv _ _ He) as (codes & HF & ->).
  unfold decode_loop.
  destruct (@decode_codes_then _ _ Hwalk _ _ HF p (length (concat codes ++ p)) []
              (Nat.le_refl _)) as (fuel' & Hl & E).
  refine (eq_trans E _). clear E.
  destruct p as [|bit p]; [contradiction|].
  destruct fuel' as [|fuel']; [simpl in Hl; lia|].
  rewrite decode_step.
  apply Hpaths in Hin. rewrite descend_app in Hin.
  destruct (descend (PList [cand_tree first; cand_tree second]) (bit :: p))
    as [[c|inner]|] eqn:Ed; try discriminate.
  - destruct q; [contradiction | discriminate].
  - now rewrite (recursion_inside _ _ Ed).
Qed.

End Decoder.

Section MethodEffects.
Context {codec : TreeCodec}.

(** What [decompress] does to the object.  A call that raises leaves the
    object exactly as it stood after [alt_in] was taken in: the output
    field is written only by the last statement, so no part of a decoded
    sequence is ever stored.  A call that returns has changed nothing but
    the output field, which then holds byte values only. *)
Theorem decompress_effects alt_in self :
  let self0 := snd (use_alt_in alt_in self) in
  match fst (decompress alt_in self) with
  | Raise _ => snd (decompress alt_in self) = self0
  | Ok _ =>
      worker (snd (decompress alt_in self)) = worker self0 /\
      comp_tools (snd (decompress alt_in self)) = comp_tools self0 /\
      Forall is_byte (output (snd (decompress alt_in self)))
  end.
Proof.
  cbv zeta. rewrite decompress_alt_in.
  set (self0 := snd (use_alt_in alt_in self)).
  run_monad.
  destruct (split_frame (worker self0)) as [[[t padding] packed]|e]; [|reflexivity].
  run_monad. cbn [fst snd].
  destruct (decode_loop t (slice_to (- padding) (bits_of_bytes packed))) as [[rest decoded]|e];
    [|reflexivity].
  run_monad. cbn [snd].
  destruct (bytearray decoded) as [out|e] eqn:E; [|reflexivity].
  apply bytearray_inv in E. destruct E as [-> Hb].
  cbn [fst snd worker comp_tools output]. repeat split. exact Hb.
Qed.

(** The outcomes of [compress].  It raises IndexError exactly when the
    buffer has fewer than two distinct byte values, OverflowError exactly
    when the buffer has two and the serialized tree is longer than 65535
    bytes, and returns otherwise; it raises nothing else (the table lookup
    and the conversions of the bit packer cannot fail).  The worker it
    leaves is the buffer it worked on: [alt_in] when that is truthy, the
    stored worker, unchanged, otherwise.  The frequency table of that
    buffer is always stored.  A call that raises assigns no output: the
    field holds the empty value [new_worker] gave it when a truthy
    [alt_in] was taken in, and the stored value otherwise. *)
Theorem compress_outcomes alt_in self :
  let w := worker_of alt_in self in
  let r := compress alt_in self in
  (fst r = Raise IndexError <-> ~ two_distinct w) /\
  (fst r = Raise OverflowError <->
     two_distinct w /\ 65535 < len (dumps (PList (tree (comp_tools (snd r)))))) /\
  (fst r = Ok tt \/ fst r = Raise IndexError \/ fst r = Raise OverflowError) /\
  worker (snd r) = w /\
  w = match alt_in with
      | Some (b :: l) => b :: l
      | _ => worker self
      end /\
  frequency (comp_tools (snd r)) = count_frequency w /\
  (fst r <> Ok tt -> output (snd r) = if truthy alt_in then [] else output self).
Proof.
  cbv zeta. rewrite <- (worker_of_alt_in alt_in self).
  assert (Ho : output (snd (use_alt_in alt_in self)) =
               if truthy alt_in then [] else output self)
    by (destruct alt_in as [[|b l]|]; reflexivity).
  rewrite <- Ho. clear Ho.
  unfold worker_of. rewrite compress_alt_in.
  set (self0 := snd (use_alt_in alt_in self)).
  destruct (Nat.le_gt_cases 2 (length (count_frequency (worker self0)))) as [Hl|Hl].
  - apply two_distinct_iff in Hl.
    destruct (stages_exist Hl) as (first & second & encoded & p & ints & S).
    rewrite (compress_run self0 S). cbv zeta. cbn [tree].
    destruct (len (dumps (PList [cand_tree first; cand_tree second])) <? 65536) eqn:E;
      cbn [fst snd worker output comp_tools frequency tree].
    + apply Z.ltb_lt in E.
      repeat split; try discriminate; try tauto; try lia;
        solve [intros [_ H]; lia | now left | intros H; now contradiction H].
    + apply Z.ltb_ge in E.
      repeat split; try discriminate; try tauto; try lia; now right; right.
  - rewrite compress_degenerate by exact Hl.
    cbn [fst snd worker output comp_tools frequency tree].
    assert (Hn : ~ two_distinct (worker self0)).
    { intros H2. apply two_distinct_iff in H2. lia. }
    repeat split; try discriminate; try tauto; now right; left.
Qed.

(** Running [compress] again on the object it left gives the same outcome
    and the same object: the result depends on the worker alone, not on
    the tools or on the output an earlier call stored (but for the output
    a failing call leaves in place). *)
Theorem compress_idempotent self :
  compress None (snd (compress None self)) = compress None self.
Proof.
  destruct (Nat.le_gt_cases 2 (length (count_frequency (worker self)))) as [Hl|Hl].
  - apply two_distinct_iff in Hl.
    destruct (stages_exist Hl) as (first & second & encoded & p & ints & S).
    rewrite (compress_run self S). cbv zeta. cbn [tree].
    destruct (len (dumps (PList [cand_tree first; cand_tree second])) <? 65536) eqn:E;
      cbn [snd].
    + match goal with |- compress None ?s = _ =>
        rewrite (@compress_run codec s first second encoded p ints S) end.
      cbv zeta. cbn [tree worker]. now rewrite E.
    + match goal with |- compress None ?s = _ =>
        rewrite (@compress_run codec s first second encoded p ints S) end.
      cbv zeta. cbn [tree worker output]. now rewrite E.
  - rewrite (compress_degenerate self Hl). cbn [snd].
    match goal with |- compress None ?s = _ =>
      rewrite (@compress_degenerate codec s Hl) end.
    reflexivity.
Qed.

End MethodEffects.

(* ------------------------------------------------------------------ *)
(** ** The size of a frame *)

Lemma pos_digits_length p : length (pos_digits p) = Pos.size_nat p.
Proof.
  induction p as [p IH|p IH|]; cbn [pos_digits Pos.size_nat]; [| |reflexivity];
    rewrite length_app, IH; simpl; lia.
Qed.

Lemma size_nat_byte p : Z.pos p < 256 -> (Pos.size_nat p <= 8)%nat.
Proof.
  intros H.
  do 8 (destruct p as [p|p|]; cbn [Pos.size_nat]; try lia).
Qed.

(** A byte reads as eight bits. *)
Lemma byte_bits_length n : is_byte n -> length (zfill 8 (bin_digits n)) = 8%nat.
Proof.
  intros [H0 H1]. unfold zfill. rewrite length_app, repeat_length.
  destruct n as [|p|p]; [reflexivity | | lia].
  cbn [bin_digits]. rewrite pos_digits_length.
  pose proof (size_nat_byte H1). lia.
Qed.

Lemma bits_of_bytes_length l : Forall is_byte l -> len (bits_of_bytes l) = 8 * len l.
Proof.
  induction 1 as [|n l Hn _ IH]; [reflexivity|].
  rewrite bits_of_bytes_cons, len_app, IH. unfold len at 1.
  rewrite (byte_bits_length Hn). unfold len. cbn [length]. lia.
Qed.

Lemma code_cost_entry m e tr :
  code_cost m (e :: tr) =
  Z.of_nat (count_occ Z.eq_dec m (fst e)) * len (snd e) + code_cost m tr.
Proof. reflexivity. Qed.

Lemma code_cost_nil tr : code_cost [] tr = 0.
Proof.
  induction tr as [|e tr IH]; [reflexivity|].
  rewrite code_cost_entry, IH. cbn [count_occ]. lia.
Qed.

Lemma code_cost_other x m tr :
  ~ In x (keys tr) -> code_cost (x :: m) tr = code_cost m tr.
Proof.
  induction tr as [|[k c] tr IH]; [reflexivity|].
  intros Hn. rewrite !code_cost_entry. cbn [fst snd].
  rewrite count_occ_cons_neq by (intros ->; apply Hn; now left).
  rewrite IH; [reflexivity|]. intros H. apply Hn. now right.
Qed.

Lemma code_cost_cons x m tr v :
  NoDup (keys tr) -> dict_get x tr = Some v ->
  code_cost (x :: m) tr = len v + code_cost m tr.
Proof.
  induction tr as [|[k c] tr IH]; [discriminate|].
  intros Hnd Hg. inversion Hnd as [|? ? Hn Hnd']; subst.
  rewrite !code_cost_entry. cbn [fst snd]. cbn [dict_get] in Hg.
  destruct (x =? k) eqn:E.
  - apply Z.eqb_eq in E. subst k. injection Hg as ->.
    rewrite count_occ_cons_eq by reflexivity.
    rewrite (@code_cost_other x m tr Hn). lia.
  - apply Z.eqb_neq in E.
    rewrite count_occ_cons_neq by congruence.
    rewrite (IH Hnd' Hg). lia.
Qed.

Lemma encoded_cost tr m codes :
  NoDup (keys tr) ->
  Forall2 (fun k v => dict_get k tr = Some v) m codes ->
  len (concat codes) = code_cost m tr.
Proof.
  intros Hnd HF. induction HF as [|k v m codes Hkv _ IH].
  - now rewrite code_cost_nil.
  - cbn [concat]. rewrite len_app, IH. symmetry. now apply code_cost_cons.
Qed.

Section Sizes.
Context {codec : TreeCodec}.

(** The size of a frame.  The encoded bits number, summed over the keys of
    the trace, the occurrences of the byte value in the buffer times the
    length of its code; the packed section has that many bits rounded up to
    whole bytes; and the frame is three bytes, the serialized tree and the
    packed section. *)
Theorem frame_size alt_in self self' :
  compress alt_in self = (Ok tt, self') ->
  exists encoded,
    encode (trace (comp_tools self')) (worker self') = Ok encoded /\
    len encoded = code_cost (worker self') (trace (comp_tools self')) /\
    len (output self') =
      3 + len (dumps (PList (tree (comp_tools self')))) + (len encoded + 7) / 8.
Proof.
  rewrite compress_alt_in. set (self0 := snd (use_alt_in alt_in self)). intros H.
  pose proof (compress_ok_two_distinct self0 H) as H2.
  destruct (stages_exist H2) as (first & second & encoded & p & ints & S).
  rewrite (compress_run self0 S) in H. cbv zeta in H. cbn [tree] in H.
  destruct (len (dumps (PList [cand_tree first; cand_tree second])) <? 65536) eqn:E;
    [|discriminate].
  injection H as <-. cbn [output comp_tools tree trace worker].
  exists encoded. split; [apply S|].
  destruct (encode_inv _ _ (st_encode S)) as (codes & HF & Hc).
  split.
  - rewrite Hc. apply encoded_cost; [apply S | exact HF].
  - pose proof (bits_of_bytes_length (st_bytes S)) as Hl.
    rewrite (st_bits S), len_app in Hl. unfold len at 2 in Hl. rewrite repeat_length in Hl.
    pose proof (st_bound S) as Hp. pose proof (st_mod S) as Hm.
    rewrite len_app in Hm. unfold len at 2 in Hm. rewrite repeat_length in Hm.
    assert (Hi : len ints = (len encoded + 7) / 8) by (revert Hl Hp Hm; clear; intros; zmod).
    rewrite <- Hi. unfold len. cbn [app length]. rewrite length_app. cbn [length]. lia.
Qed.

(** The padding count of a frame is not checked against 0..7: when it is
    at least the number of packed bits, [bit_string[:-padding]] is empty
    and [decompress] returns the empty byte sequence. *)
Theorem decompress_padding_unchecked alt_in self decomp_tree padding packed :
  split_frame (worker_of alt_in self) = Ok (decomp_tree, padding, packed) ->
  Forall is_byte packed ->
  8 * len packed <= padding ->
  decompress alt_in self =
  (Ok tt, {| worker := worker_of alt_in self; output := [];
             comp_tools := comp_tools (snd (use_alt_in alt_in self)) |}).
Proof.
  unfold worker_of. rewrite decompress_alt_in.
  set (self0 := snd (use_alt_in alt_in self)). intros Hs Hb Hp.
  apply decompress_stages with (t := decomp_tree) (padding := padding) (packed := packed)
                               (rest := []); [exact Hs | | constructor].
  pose proof (bits_of_bytes_length Hb) as Hl.
  assert (E : slice_to (- padding) (bits_of_bytes packed) = []).
  { unfold slice_to. pose proof (len_nonneg packed).
    destruct (- padding <? 0) eqn:En.
    - replace (Z.to_nat (len (bits_of_bytes packed) + - padding)) with 0%nat by lia.
      reflexivity.
    - apply Z.ltb_ge in En. replace (Z.to_nat (- padding)) with 0%nat by lia. reflexivity. }
  rewrite E. reflexivity.
Qed.

End Sizes.

Unset Implicit Arguments.

(* ------------------------------------------------------------------ *)
(** ** More frequent, not longer *)

Lemma occurrences_nonneg w ks : 0 <= occurrences w ks.
Proof.
  induction ks as [|k ks IH]; [reflexivity|].
  rewrite occurrences_cons. lia.
Qed.

Lemma weight_nonneg w t : 0 <= weight w t.
Proof. apply occurrences_nonneg. Qed.

Lemma weight_pair w a b : weight w (PList [a; b]) = weight w a + weight w b.
Proof.
  unfold weight. cbn [leaves map concat]. now rewrite app_nil_r, occurrences_app.
Qed.

Lemma weight_leaf w k : weight w (PInt k) = Z.of_nat (count_occ Z.eq_dec w k).
Proof. unfold weight. cbn [leaves]. rewrite occurrences_cons. unfold occurrences. simpl. lia. Qed.

Lemma binary_leaves t : binary t -> leaves t <> [].
Proof.
  induction 1 as [n|a b Ha IHa Hb IHb]; [discriminate|].
  cbn [leaves map concat]. destruct (leaves a); [contradiction | discriminate].
Qed.

(** Where a path leads in a binary tree: to a binary tree that weighs no
    more and whose leaves are leaves of the whole. *)
Lemma descend_binary w p : forall t u,
  binary t -> descend t p = Some u ->
  binary u /\ weight w u <= weight w t /\ incl (leaves u) (leaves t).
Proof.
  induction p as [|bit p IH]; intros t u Hb Hd.
  - injection Hd as <-. repeat split; [exact Hb | lia | apply incl_refl].
  - destruct Hb as [n|a b Ha Hbb]; [discriminate|].
    apply descend_pair in Hd.
    destruct Hd as [[H _]|[(q & [= -> ->] & Hd)|(q & [= -> ->] & Hd)]]; [discriminate| |].
    + destruct (IH a u Ha Hd) as (H1 & H2 & H3). repeat split; [exact H1| |].
      * rewrite weight_pair. pose proof (weight_nonneg w b). lia.
      * cbn [leaves map concat]. intros x Hx. apply in_or_app. left. now apply H3.
    + destruct (IH b u Hbb Hd) as (H1 & H2 & H3). repeat split; [exact H1| |].
      * rewrite weight_pair. pose proof (weight_nonneg w a). lia.
      * cbn [leaves map concat]. rewrite app_nil_r. intros x Hx.
        apply in_or_app. right. now apply H3.
Qed.

(** A path that is not empty ends on a child of the list its beginning
    leads to. *)
Lemma descend_last t p u :
  binary t -> p <> [] -> descend t p = Some u ->
  exists q a b,
    length p = S (length q) /\ descend t q = Some (PList [a; b]) /\ (u = a \/ u = b) /\
    exists bit bit', descend t (q ++ [bit]) = Some a /\ descend t (q ++ [bit']) = Some b.
Proof.
  intros Hb Hp Hd. destruct (exists_last Hp) as (q & bit & ->).
  rewrite descend_app in Hd.
  destruct (descend t q) as [P|] eqn:Eq; [|discriminate].
  destruct (descend_binary [] q t _ Hb Eq) as (HP & _ & _).
  destruct HP as [n|a b Ha Hbb]; [discriminate|].
  exists q, a, b. split; [rewrite length_app; simpl; lia|]. split; [exact Eq|].
  split.
  - apply descend_pair in Hd.
    destruct Hd as [[H _]|[(r & [= _ <-] & [= <-])|(r & [= _ <-] & [= <-])]];
      [discriminate | now left | now right].
  - exists c0, c1. rewrite !descend_app, Eq. split; reflexivity.
Qed.

Lemma nodup_app_disjoint (l1 l2 : list Z) k :
  NoDup (l1 ++ l2) -> In k l1 -> In k l2 -> False.
Proof.
  induction l1 as [|x l1 IH]; intros Hnd H1 H2; [contradiction|].
  cbn [app] in Hnd. inversion Hnd as [|? ? Hx Hnd']; subst.
  destruct H1 as [->|H1].
  - apply Hx. apply in_or_app. now right.
  - now apply IH.
Qed.

Section Step.
Variable w : list Z.
Variables (rest : list cand) (set2 set1 : cand).
Hypothesis old : depth_facts w (rest ++ [set2; set1]).

Let N := new_branch set1 set2.

Lemma in_old_rest c : In c rest -> In c (rest ++ [set2; set1]).
Proof. intros H. apply in_or_app. now left. Qed.

Lemma in_old_set1 : In set1 (rest ++ [set2; set1]).
Proof. apply in_or_app. right. simpl. auto. Qed.

Lemma in_old_set2 : In set2 (rest ++ [set2; set1]).
Proof. apply in_or_app. right. simpl. auto. Qed.

Lemma popped_lowest :
  cand_freq set1 <= cand_freq set2 /\ forall c, In c rest -> cand_freq set2 <= cand_freq c.
Proof.
  destruct (@sorted_last_two _ cand_freq rest set2 set1 (@df_sorted _ _ old)) as [H1 H2].
  split; [exact H1|]. rewrite Forall_forall in H2. exact H2.
Qed.

Lemma freq_nonneg c : In c (rest ++ [set2; set1]) -> 0 <= cand_freq c.
Proof. intros H. rewrite (@df_weight _ _ old c H). apply weight_nonneg. Qed.

Lemma tree_N : cand_tree N = PList [cand_tree set1; cand_tree set2].
Proof. reflexivity. Qed.

Lemma freq_N : cand_freq N = cand_freq set1 + cand_freq set2.
Proof. reflexivity. Qed.

(** A node of the new working list is a node of a kept candidate, or a
    node of one of the two popped candidates one step deeper, or the root
    of the new branch. *)
Lemma node_origin c p u :
  In c rest \/ c = N -> descend (cand_tree c) p = Some u ->
  (In c rest) \/
  (p = [] /\ u = cand_tree N) \/
  (exists X p0, (X = set1 \/ X = set2) /\ descend (cand_tree X) p0 = Some u /\
                length p = S (length p0)).
Proof.
  intros [H| ->] Hd; [now left|]. right.
  rewrite tree_N in Hd. apply descend_pair in Hd.
  destruct Hd as [[-> ->]|[(q & -> & Hd)|(q & -> & Hd)]].
  - now left.
  - right. exists set1, q. auto.
  - right. exists set2, q. auto.
Qed.

Lemma in_old_popped X : X = set1 \/ X = set2 -> In X (rest ++ [set2; set1]).
Proof. intros [->| ->]; [apply in_old_set1 | apply in_old_set2]. Qed.

Lemma popped_le_N X : X = set1 \/ X = set2 -> cand_freq X <= cand_freq N.
Proof.
  intros HX. rewrite freq_N.
  pose proof (freq_nonneg set1 in_old_set1). pose proof (freq_nonneg set2 in_old_set2).
  destruct HX as [->| ->]; lia.
Qed.

Lemma popped_le_rest X c : X = set1 \/ X = set2 -> In c rest -> cand_freq X <= cand_freq c.
Proof.
  intros HX Hc. destruct popped_lowest as [H1 H2]. specialize (H2 c Hc).
  destruct HX as [->| ->]; lia.
Qed.

(** A subtree of an old candidate weighs no more than the new branch. *)
Lemma old_le_N c p u :
  In c (rest ++ [set2; set1]) -> descend (cand_tree c) p = Some u ->
  p <> [] \/ c = set1 \/ c = set2 ->
  weight w u <= cand_freq N.
Proof.
  intros Hc Hd [Hp|HX].
  - pose proof (@df_roots _ _ old c p u set1 Hc Hp Hd in_old_set1) as H.
    pose proof (popped_le_N set1 (or_introl eq_refl)). lia.
  - destruct (descend_binary w p _ _ (@df_binary _ _ old c Hc) Hd) as (_ & H & _).
    rewrite <- (@df_weight _ _ old c Hc) in H.
    assert (cand_freq c <= cand_freq N) by (apply popped_le_N; exact HX). lia.
Qed.

Lemma step_roots sf' :
  (forall c, In c sf' -> In c rest \/ c = N) -> inner_below_roots w sf'.
Proof.
  intros Hin c p u c' Hc Hp Hd Hc'.
  destruct (node_origin c p u (Hin c Hc) Hd) as [Hk|[[-> _]|(X & p0 & HX & Hd0 & Hl)]].
  - (* kept *)
    destruct (Hin c' Hc') as [Hr| ->].
    + apply (@df_roots _ _ old c p u c' (in_old_rest c Hk) Hp Hd (in_old_rest c' Hr)).
    + apply (old_le_N c p u (in_old_rest c Hk) Hd). now left.
  - contradiction.
  - (* pushed *)
    destruct (Hin c' Hc') as [Hr| ->].
    + destruct p0 as [|bit p0].
      * injection Hd0 as <-. rewrite <- (@df_weight _ _ old X (in_old_popped X HX)).
        now apply popped_le_rest.
      * apply (@df_roots _ _ old X (bit :: p0) u c' (in_old_popped X HX));
          [discriminate | exact Hd0 | now apply in_old_rest].
    + apply (old_le_N X p0 u (in_old_popped X HX) Hd0). right. destruct HX; auto.
Qed.

Lemma node_old c p u :
  In c rest \/ c = N -> descend (cand_tree c) p = Some u ->
  (exists d0 p0, In d0 (rest ++ [set2; set1]) /\ descend (cand_tree d0) p0 = Some u) \/
  u = cand_tree N.
Proof.
  intros Hc Hd.
  destruct (node_origin c p u Hc Hd) as [Hk|[[_ ->]|(X & p0 & HX & Hd0 & _)]].
  - left. exists c, p. split; [now apply in_old_rest | exact Hd].
  - now right.
  - left. exists X, p0. split; [now apply in_old_popped | exact Hd0].
Qed.

(** The children of a branch are one step below it. *)
Lemma children_paths t p a b :
  descend t p = Some (PList [a; b]) ->
  descend t (p ++ [c0]) = Some a /\ descend t (p ++ [c1]) = Some b.
Proof.
  intros H. rewrite !descend_app, H. split; apply descend_pair; right.
  - left. exists []. split; reflexivity.
  - right. exists []. split; reflexivity.
Qed.

(** A child of a branch of an old candidate weighs no more than either of
    the two popped candidates. *)
Lemma old_child_light d0 p0 a b u :
  In d0 (rest ++ [set2; set1]) -> descend (cand_tree d0) p0 = Some (PList [a; b]) ->
  u = a \/ u = b ->
  weight w u <= cand_freq set1 /\ weight w u <= cand_freq set2.
Proof.
  intros Hc Hd Hu. destruct (children_paths _ _ _ _ Hd) as [Ha Hb].
  assert (Hne : forall bit, p0 ++ [bit] <> []) by (intros bit; destruct p0; discriminate).
  destruct Hu as [->| ->]; split.
  - apply (@df_roots _ _ old d0 (p0 ++ [c0]) a set1 Hc (Hne _) Ha in_old_set1).
  - apply (@df_roots _ _ old d0 (p0 ++ [c0]) a set2 Hc (Hne _) Ha in_old_set2).
  - apply (@df_roots _ _ old d0 (p0 ++ [c1]) b set1 Hc (Hne _) Hb in_old_set1).
  - apply (@df_roots _ _ old d0 (p0 ++ [c1]) b set2 Hc (Hne _) Hb in_old_set2).
Qed.

Lemma step_parents sf' :
  (forall c, In c sf' -> In c rest \/ c = N) -> parents_ordered w sf'.
Proof.
  intros Hin c1 p1 a1 b1 c2 p2 a2 b2 u v Hc1 Hc2 Hd1 Hd2 Hu Hv Hlt.
  pose proof (@df_weight _ _ old set1 in_old_set1) as Hw1.
  pose proof (@df_weight _ _ old set2 in_old_set2) as Hw2.
  destruct (node_old c1 p1 _ (Hin c1 Hc1) Hd1) as [(d1 & q1 & Hi1 & He1)|Hr1];
    destruct (node_old c2 p2 _ (Hin c2 Hc2) Hd2) as [(d2 & q2 & Hi2 & He2)|Hr2].
  - apply (@df_parents _ _ old d1 q1 a1 b1 d2 q2 a2 b2 u v); assumption.
  - left. rewrite tree_N in Hr2. injection Hr2 as -> ->.
    destruct (old_child_light d1 q1 a1 b1 a1 Hi1 He1 (or_introl eq_refl)) as [Ha1 Ha2].
    destruct (old_child_light d1 q1 a1 b1 b1 Hi1 He1 (or_intror eq_refl)) as [Hb1 Hb2].
    rewrite !weight_pair, <- Hw1, <- Hw2.
    destruct Hu as [->| ->]; destruct Hv as [->| ->];
      rewrite <- ?Hw1, <- ?Hw2 in Hlt; lia.
  - exfalso. rewrite tree_N in Hr1. injection Hr1 as -> ->.
    destruct (old_child_light d2 q2 a2 b2 v Hi2 He2 Hv) as [Hv1 Hv2].
    destruct Hu as [->| ->]; rewrite <- ?Hw1, <- ?Hw2 in Hlt; lia.
  - right. now rewrite Hr1, Hr2.
Qed.

(** No byte value is under a kept candidate and under a popped one. *)
Lemma rest_popped_disjoint Y X k :
  In Y rest -> X = set1 \/ X = set2 ->
  In k (leaves (cand_tree Y)) -> In k (leaves (cand_tree X)) -> False.
Proof.
  intros HY HX Hk1 Hk2.
  rewrite (@df_leaves _ _ old Y (in_old_rest Y HY)) in Hk1.
  rewrite (@df_leaves _ _ old X (in_old_popped X HX)) in Hk2.
  pose proof (@df_keys _ _ old) as Hnd.
  rewrite all_keys_app, all_keys_two in Hnd.
  apply (nodup_app_disjoint _ _ k Hnd).
  - unfold all_keys. apply in_flat_map. exists Y. split; assumption.
  - apply in_or_app. destruct HX as [->| ->]; [now right | now left].
Qed.

(** A subtree of a kept candidate that is lighter than a subtree of a
    popped candidate is strictly deeper. *)
Lemma deeper_than_popped n : forall p2 X v Y p1 u,
  length p2 = n -> X = set1 \/ X = set2 -> descend (cand_tree X) p2 = Some v ->
  In Y rest -> descend (cand_tree Y) p1 = Some u ->
  weight w u < weight w v -> (length p2 < length p1)%nat.
Proof.
  induction n as [|n IH]; intros p2 X v Y p1 u Hn HX Hdv HY Hdu Hlt.
  - destruct p2; [|discriminate]. injection Hdv as <-.
    destruct p1 as [|bit p1]; [|simpl; lia]. injection Hdu as <-.
    rewrite <- (@df_weight _ _ old X (in_old_popped X HX)) in Hlt.
    rewrite <- (@df_weight _ _ old Y (in_old_rest Y HY)) in Hlt.
    pose proof (popped_le_rest X Y HX HY). lia.
  - assert (Hp2 : p2 <> []) by (destruct p2; [discriminate Hn | discriminate]).
    pose proof (@df_binary _ _ old X (in_old_popped X HX)) as HbX.
    pose proof (@df_binary _ _ old Y (in_old_rest Y HY)) as HbY.
    destruct (descend_last _ _ _ HbX Hp2 Hdv)
      as (q2 & a2 & b2 & Hl2 & Hq2 & Hv & _).
    assert (Hp1 : p1 <> []).
    { intros ->. injection Hdu as <-.
      pose proof (@df_roots _ _ old X p2 v Y (in_old_popped X HX) Hp2 Hdv (in_old_rest Y HY)).
      rewrite <- (@df_weight _ _ old Y (in_old_rest Y HY)) in Hlt. lia. }
    destruct (descend_last _ _ _ HbY Hp1 Hdu)
      as (q1 & a1 & b1 & Hl1 & Hq1 & Hu & _).
    destruct (@df_parents _ _ old Y q1 a1 b1 X q2 a2 b2 u v
                (in_old_rest Y HY) (in_old_popped X HX) Hq1 Hq2 Hu Hv Hlt) as [Hlt'|Heq].
    + assert ((length q2 < length q1)%nat)
        by (apply (IH q2 X (PList [a2; b2]) Y q1 (PList [a1; b1])); try assumption; lia).
      lia.
    + exfalso.
      destruct (descend_binary w q1 _ _ HbY Hq1) as (Hb1 & _ & Hi1).
      destruct (descend_binary w q2 _ _ HbX Hq2) as (_ & _ & Hi2).
      pose proof (binary_leaves _ Hb1) as Hne.
      destruct (leaves (PList [a1; b1])) as [|k ks] eqn:El; [contradiction|].
      apply (rest_popped_disjoint Y X k HY HX).
      * apply Hi1. now left.
      * apply Hi2. rewrite <- Heq, El. now left.
Qed.

Lemma step_depth sf' :
  (forall c, In c sf' -> In c rest \/ c = N) -> lighter_deeper w sf'.
Proof.
  intros Hin c1 p1 u c2 p2 v Hc1 Hc2 Hd1 Hd2 Hlt.
  destruct (node_origin c2 p2 v (Hin c2 Hc2) Hd2)
    as [Hk2|[[-> _]|(X2 & q2 & HX2 & He2 & Hl2)]].
  2: { simpl. lia. }
  - (* the heavier one is kept *)
    destruct (node_origin c1 p1 u (Hin c1 Hc1) Hd1)
      as [Hk1|[[-> ->]|(X1 & q1 & HX1 & He1 & Hl1)]].
    + apply (@df_depth _ _ old c1 p1 u c2 p2 v); try assumption; now apply in_old_rest.
    + destruct p2 as [|bit p2]; [simpl; lia|]. exfalso.
      assert (weight w v <= cand_freq N)
        by (apply (old_le_N c2 (bit :: p2) v (in_old_rest c2 Hk2) Hd2); left; discriminate).
      rewrite freq_N, (@df_weight _ _ old set1 in_old_set1),
        (@df_weight _ _ old set2 in_old_set2), <- weight_pair, <- tree_N in H. lia.
    + assert ((length p2 <= length q1)%nat)
        by (apply (@df_depth _ _ old X1 q1 u c2 p2 v); try assumption;
            [now apply in_old_popped | now apply in_old_rest]).
      lia.
  - (* the heavier one is pushed down *)
    destruct (node_origin c1 p1 u (Hin c1 Hc1) Hd1)
      as [Hk1|[[-> ->]|(X1 & q1 & HX1 & He1 & Hl1)]].
    + assert ((length q2 < length p1)%nat)
        by (apply (deeper_than_popped (length q2) q2 X2 v c1 p1 u); auto).
      lia.
    + exfalso.
      assert (weight w v <= cand_freq N)
        by (apply (old_le_N X2 q2 v (in_old_popped X2 HX2) He2); right; destruct HX2; auto).
      rewrite freq_N, (@df_weight _ _ old set1 in_old_set1),
        (@df_weight _ _ old set2 in_old_set2), <- weight_pair, <- tree_N in H. lia.
    + assert ((length q2 <= length q1)%nat)
        by (apply (@df_depth _ _ old X1 q1 u X2 q2 v); try assumption;
            now apply in_old_popped).
      lia.
Qed.

End Step.

(** A path from an integer is empty. *)
Lemma descend_leaf k p u : descend (PInt k) p = Some u -> p = [] /\ u = PInt k.
Proof. destruct p; [intros [= <-]; auto | discriminate]. Qed.

Lemma initial_candidates_leaf w c :
  In c (initial_candidates (count_frequency w)) -> exists char, c = leaf_cand char.
Proof.
  unfold initial_candidates. intros H. apply in_map_iff in H.
  destruct H as (char & <- & _). now exists char.
Qed.

(** The facts hold of every working list of the builder loop. *)
Lemma loop_state_depth w sf :
  loop_state (initial_candidates (count_frequency w)) sf -> depth_facts w sf.
Proof.
  intros Hs.
  assert (Hshape : Forall cand_shape sf)
    by (apply (@cand_inv_loop cand_shape leaf_shape new_branch_shape w sf Hs)).
  rewrite Forall_forall in Hshape.
  pose proof (@loop_state_weight_inv w sf Hs) as Hw. unfold weight_inv in Hw.
  rewrite Forall_forall in Hw.
  destruct (@loop_state_trace_inv w sf Hs) as (_ & Hnd & _).
  pose proof (@loop_state_sorted _ sf (initial_candidates_sorted (count_frequency w)) Hs)
    as Hsorted.
  assert (Hl : forall c, In c sf -> leaves (cand_tree c) = keys (cand_trace c))
    by (intros c Hc; apply (Hshape c Hc)).
  assert (Hwt : forall c, In c sf -> cand_freq c = weight w (cand_tree c))
    by (intros c Hc; unfold weight; rewrite (Hl c Hc); apply (Hw c Hc)).
  assert (Hb : forall c, In c sf -> binary (cand_tree c))
    by (intros c Hc; apply (Hshape c Hc)).
  clear Hshape Hw.
  induction Hs as [|sf sf' Hs IH Hc Hbody].
  - constructor; try assumption.
    + intros c p u c' Hc Hp Hd _. apply initial_candidates_leaf in Hc.
      destruct Hc as (char & ->). apply descend_leaf in Hd. destruct Hd as [-> _].
      contradiction.
    + intros c1 p1 a1 b1 c2 p2 a2 b2 u v Hc1 _ Hd1 _ _ _ _.
      apply initial_candidates_leaf in Hc1.
      destruct Hc1 as (char & ->). apply descend_leaf in Hd1. destruct Hd1 as [_ H].
      discriminate.
    + intros c1 p1 u c2 p2 v _ Hc2 _ Hd2 _. apply initial_candidates_leaf in Hc2.
      destruct Hc2 as (char & ->). apply descend_leaf in Hd2. destruct Hd2 as [-> _].
      simpl. lia.
  - assert (Hold : depth_facts w sf).
    { pose proof (@cand_inv_loop cand_shape leaf_shape new_branch_shape w sf Hs) as Hshape.
      rewrite Forall_forall in Hshape.
      pose proof (@loop_state_weight_inv w sf Hs) as Hw. unfold weight_inv in Hw.
      rewrite Forall_forall in Hw.
      destruct (@loop_state_trace_inv w sf Hs) as (_ & Hnd0 & _).
      assert (Hl0 : forall c, In c sf -> leaves (cand_tree c) = keys (cand_trace c))
        by (intros c Hin; apply (Hshape c Hin)).
      apply IH; try assumption.
      - apply (@loop_state_sorted _ sf (initial_candidates_sorted (count_frequency w)) Hs).
      - intros c Hin. unfold weight. rewrite (Hl0 c Hin). apply (Hw c Hin).
      - intros c Hin. apply (Hshape c Hin). }
    clear IH. apply loop_cond_true in Hc.
    destruct (last_two sf) as (rest & set2 & set1 & ->); [lia|].
    rewrite loop_body_snoc in Hbody. injection Hbody as <-.
    assert (Hin : forall c,
               In c (sorted_desc cand_freq (rest ++ [new_branch set1 set2])) ->
               In c rest \/ c = new_branch set1 set2).
    { intros c H. apply (Permutation_in _ (sorted_desc_perm _ _)) in H.
      apply in_app_or in H. destruct H as [H|[H|[]]]; auto. }
    constructor; try assumption.
    + apply (step_roots w rest set2 set1 Hold _ Hin).
    + apply (step_parents w rest set2 set1 Hold _ Hin).
    + apply (step_depth w rest set2 set1 Hold _ Hin).
Qed.

Section MoreFrequent.
Context {codec : TreeCodec}.

(** Of two byte values of the buffer, the one that occurs strictly more
    often never gets the longer code. *)
Theorem more_frequent_not_longer alt_in self k1 code1 k2 code2 :
  let w := worker_of alt_in self in
  let tools := comp_tools (snd (compress alt_in self)) in
  two_distinct w ->
  In (k1, code1) (trace tools) -> In (k2, code2) (trace tools) ->
  (count_occ Z.eq_dec w k1 < count_occ Z.eq_dec w k2)%nat ->
  (length code2 <= length code1)%nat.
Proof.
  intros w tools H2. subst tools.
  destruct (compress_tools alt_in self H2) as (first & second & Hb & ->).
  cbn [trace]. fold w in Hb. intros Hin1 Hin2 Hlt.
  pose proof (final_loop_state _ Hb) as Hs.
  pose proof (loop_state_depth w _ Hs) as Hdf.
  pose proof (@cand_inv_loop cand_shape leaf_shape new_branch_shape w _ Hs) as Hshape.
  rewrite Forall_forall in Hshape.
  destruct (@loop_state_trace_inv _ _ Hs) as (_ & Hnd & _).
  rewrite all_keys_two in Hnd.
  rewrite (new_branch_trace first second Hnd) in Hin1, Hin2.
  assert (Hcode : forall k code,
             In (k, code) (char_count [c0] (cand_trace first) ++
                           char_count [c1] (cand_trace second)) ->
             exists X p, In X [first; second] /\ length code = S (length p) /\
                         descend (cand_tree X) p = Some (PInt k)).
  { intros k code Hin. apply in_app_or in Hin.
    destruct Hin as [Hin|Hin]; apply char_count_in in Hin; destruct Hin as (p & -> & Hp).
    - exists first, p. split; [now left|]. split; [reflexivity|].
      apply (Hshape first); [now left | exact Hp].
    - exists second, p. split; [right; now left|]. split; [reflexivity|].
      apply (Hshape second); [right; now left | exact Hp]. }
  destruct (Hcode _ _ Hin1) as (X1 & p1 & HX1 & Hl1 & Hd1).
  destruct (Hcode _ _ Hin2) as (X2 & p2 & HX2 & Hl2 & Hd2).
  assert ((length p2 <= length p1)%nat).
  { apply (@df_depth _ _ Hdf X1 p1 (PInt k1) X2 p2 (PInt k2) HX1 HX2 Hd1 Hd2).
    rewrite !weight_leaf. lia. }
  lia.
Qed.

End MoreFrequent.

(* ------------------------------------------------------------------ *)
(** ** No shorter encoding *)

Lemma shape_length l : shape l -> (1 <= length l)%nat.
Proof.
  induction 1 as [|l1 l2 _ IH1 _ IH2|l l' Hp _ IH].
  - simpl; lia.
  - rewrite length_app, !length_map. lia.
  - rewrite <- (Permutation_length Hp). exact IH.
Qed.

Lemma shape_single l : shape l -> length l = 1%nat -> l = [0%nat].
Proof.
  induction 1 as [|l1 l2 H1 _ H2 _|l l' Hp _ IH]; intros Hl.
  - reflexivity.
  - rewrite length_app, !length_map in Hl. apply shape_length in H1, H2. lia.
  - rewrite <- (Permutation_length Hp) in Hl. rewrite (IH Hl) in Hp.
    now apply Permutation_length_1_inv in Hp.
Qed.

Lemma deepest_left l1 l2 d l1' :
  shape l2 -> Permutation l1 (S d :: S d :: l1') ->
  Forall (fun x => (x <= S d)%nat) l1 ->
  shape (d :: l1') -> Forall (fun x => (x <= S d)%nat) l2 ->
  exists D l', Permutation (map S l1 ++ map S l2) (S D :: S D :: l') /\
               Forall (fun x => (x <= S D)%nat) (map S l1 ++ map S l2) /\
               shape (D :: l').
Proof.
  intros H2 Hp Hf Hs Hf2. exists (S d), (map S l1' ++ map S l2). split; [|split].
  - apply (Permutation_map S) in Hp. cbn [map] in Hp.
    apply (Permutation_app_tail (map S l2)) in Hp. exact Hp.
  - apply Forall_app. split; apply Forall_map;
      (eapply Forall_impl; [|eassumption]); simpl; intros; lia.
  - apply (@shape_node (d :: l1') l2 Hs H2).
Qed.

(** A tree with two leaves or more has two leaves of the greatest depth
    whose merging leaves a tree. *)
Lemma shape_deepest l :
  shape l -> (2 <= length l)%nat ->
  exists d l', Permutation l (S d :: S d :: l') /\
               Forall (fun x => (x <= S d)%nat) l /\ shape (d :: l').
Proof.
  induction 1 as [|l1 l2 H1 IH1 H2 IH2|l l' Hp _ IH]; intros Hl.
  - simpl in Hl; lia.
  - pose proof (shape_length _ H1) as Hn1. pose proof (shape_length _ H2) as Hn2.
    assert (Hcomm : forall D l',
               Permutation (map S l2 ++ map S l1) (S D :: S D :: l') /\
               Forall (fun x => (x <= S D)%nat) (map S l2 ++ map S l1) /\ shape (D :: l') ->
               Permutation (map S l1 ++ map S l2) (S D :: S D :: l') /\
               Forall (fun x => (x <= S D)%nat) (map S l1 ++ map S l2) /\ shape (D :: l')).
    { intros D l' (HP & HF & HS). split; [|split; [|exact HS]].
      - eapply Permutation_trans; [apply Permutation_app_comm | exact HP].
      - apply Forall_app in HF. apply Forall_app. tauto. }
    destruct (Nat.eq_dec (length l1) 1) as [E1|E1];
      destruct (Nat.eq_dec (length l2) 1) as [E2|E2].
    + rewrite (shape_single _ H1 E1), (shape_single _ H2 E2). exists 0%nat, [].
      split; [reflexivity|]. split; [repeat constructor | apply shape_leaf].
    + destruct IH2 as (d & l2' & Hp2 & Hf2 & Hs2); [lia|].
      destruct (deepest_left l2 l1 d l2' H1 Hp2 Hf2 Hs2) as (D & l' & HH).
      { rewrite (shape_single _ H1 E1). repeat constructor. lia. }
      exists D, l'. now apply Hcomm.
    + destruct IH1 as (d & l1' & Hp1 & Hf1 & Hs1); [lia|].
      apply (deepest_left l1 l2 d l1' H2 Hp1 Hf1 Hs1).
      rewrite (shape_single _ H2 E2). repeat constructor. lia.
    + destruct IH1 as (d1 & l1' & Hp1 & Hf1 & Hs1); [lia|].
      destruct IH2 as (d2 & l2' & Hp2 & Hf2 & Hs2); [lia|].
      destruct (le_lt_dec d2 d1) as [Hd|Hd].
      * apply (deepest_left l1 l2 d1 l1' H2 Hp1 Hf1 Hs1).
        eapply Forall_impl; [|exact Hf2]. simpl; intros; lia.
      * destruct (deepest_left l2 l1 d2 l2' H1 Hp2 Hf2 Hs2) as (D & l' & HH).
        { eapply Forall_impl; [|exact Hf1]. simpl; intros; lia. }
        exists D, l'. now apply Hcomm.
  - destruct IH as (d & l0 & Hp0 & Hf & Hs); [rewrite (Permutation_length Hp); exact Hl|].
    exists d, l0. split; [|split; [|exact Hs]].
    + eapply Permutation_trans; [symmetry; exact Hp | exact Hp0].
    + eapply Permutation_Forall; eassumption.
Qed.

Lemma pick_weight (A : list (Z * nat)) a :
  In a (map fst A) -> exists da A0, Permutation A ((a, da) :: A0).
Proof.
  intros H. apply in_map_iff in H. destruct H as ([x da] & Hx & Hin). cbn in Hx. subst x.
  apply in_split in Hin. destruct Hin as (l1 & l2 & ->).
  exists da, (l1 ++ l2). symmetry. apply Permutation_middle.
Qed.

Lemma pick_depth (A : list (Z * nat)) D :
  In D (map snd A) -> exists x A0, Permutation A ((x, D) :: A0).
Proof.
  intros H. apply in_map_iff in H. destruct H as ([x d] & Hx & Hin). cbn in Hx. subst d.
  apply in_split in Hin. destruct Hin as (l1 & l2 & ->).
  exists x, (l1 ++ l2). symmetry. apply Permutation_middle.
Qed.

Lemma assigned_cost_perm A B : Permutation A B -> assigned_cost A = assigned_cost B.
Proof. intros H. unfold assigned_cost. apply zsum_perm. now apply Permutation_map. Qed.

Lemma assigned_cost_cons x d A :
  assigned_cost ((x, d) :: A) = x * Z.of_nat d + assigned_cost A.
Proof. reflexivity. Qed.

(** The lowest weight can be taken out at the greatest depth: exchanging
    it with the weight that stands there does not raise the cost. *)
Lemma remove_lowest A a ws D ds :
  Permutation (map fst A) (a :: ws) -> Forall (fun x => a <= x) ws ->
  Permutation (map snd A) (D :: ds) -> Forall (fun x => (x <= D)%nat) ds ->
  exists A1, Permutation (map fst A1) ws /\ Permutation (map snd A1) ds /\
             assigned_cost A1 + a * Z.of_nat D <= assigned_cost A.
Proof.
  intros Hw Hlow Hd Hdeep.
  destruct (pick_weight A a) as (da & A0 & HA).
  { eapply Permutation_in; [symmetry; exact Hw | now left]. }
  assert (Hw0 : Permutation (map fst A0) ws).
  { apply (Permutation_cons_inv (a := a)).
    eapply Permutation_trans; [|exact Hw]. symmetry. apply (Permutation_map fst HA). }
  assert (Hd0 : Permutation (da :: map snd A0) (D :: ds)).
  { eapply Permutation_trans; [|exact Hd]. symmetry. apply (Permutation_map snd HA). }
  rewrite (assigned_cost_perm _ _ HA), assigned_cost_cons.
  destruct (Nat.eq_dec da D) as [->|Hne].
  - exists A0. split; [exact Hw0|]. split; [now apply Permutation_cons_inv in Hd0 | lia].
  - assert (HinD : In D (map snd A0)).
    { assert (H : In D (da :: map snd A0))
        by (eapply Permutation_in; [symmetry; exact Hd0 | now left]).
      destruct H as [H|H]; [congruence | exact H]. }
    destruct (pick_depth A0 D HinD) as (x & A00 & HA0).
    exists ((x, da) :: A00).
    assert (Hx : a <= x).
    { rewrite Forall_forall in Hlow. apply Hlow.
      eapply Permutation_in; [exact Hw0|].
      eapply Permutation_in; [symmetry; apply (Permutation_map fst HA0) | now left]. }
    assert (Hda : (da <= D)%nat).
    { assert (H : In da (D :: ds)) by (eapply Permutation_in; [exact Hd0 | now left]).
      destruct H as [H|H]; [congruence|]. rewrite Forall_forall in Hdeep. now apply Hdeep. }
    split; [|split].
    + eapply Permutation_trans; [|exact Hw0]. symmetry. apply (Permutation_map fst HA0).
    + cbn [map snd]. apply (Permutation_cons_inv (a := D)).
      eapply Permutation_trans; [|exact Hd0].
      eapply Permutation_trans; [apply perm_swap|]. apply perm_skip.
      symmetry. apply (Permutation_map snd HA0).
    + rewrite (assigned_cost_perm _ _ HA0), !assigned_cost_cons. nia.
Qed.

(** Whatever depths a tree gives the weights, putting the two lowest
    weights together at one leaf gives a tree that costs their sum less,
    or less than that. *)
Lemma merge_lowest A a b ws :
  Permutation (map fst A) (a :: b :: ws) -> a <= b -> Forall (fun x => b <= x) ws ->
  shape (map snd A) ->
  exists A', Permutation (map fst A') ((a + b) :: ws) /\ shape (map snd A') /\
             assigned_cost A' + a + b <= assigned_cost A.
Proof.
  intros Hw Hab Hlow Hsh.
  destruct (shape_deepest _ Hsh) as (d & l' & Hp & Hf & Hs).
  { rewrite length_map, <- (length_map fst), (Permutation_length Hw). simpl. lia. }
  assert (Hf' : Forall (fun x => (x <= S d)%nat) (S d :: l')).
  { assert (H : Forall (fun x => (x <= S d)%nat) (S d :: S d :: l'))
      by (eapply Permutation_Forall; eassumption).
    now inversion H. }
  destruct (remove_lowest A a (b :: ws) (S d) (S d :: l') Hw) as (A1 & Hw1 & Hd1 & Hc1);
    [constructor; [exact Hab|] | exact Hp | exact Hf' |].
  { eapply Forall_impl; [|exact Hlow]. simpl; intros; lia. }
  destruct (remove_lowest A1 b ws (S d) l' Hw1 Hlow Hd1) as (A2 & Hw2 & Hd2 & Hc2);
    [now inversion Hf'|].
  exists ((a + b, d) :: A2). split; [|split].
  - cbn [map fst]. now apply perm_skip.
  - cbn [map snd]. apply (@shape_perm (d :: l')); [|exact Hs].
    apply perm_skip. now symmetry.
  - rewrite assigned_cost_cons. rewrite Nat2Z.inj_succ in Hc1, Hc2. nia.
Qed.

Lemma leaf_depths_pair a b :
  leaf_depths (PList [a; b]) =
  map (fun e => (fst e, S (snd e))) (leaf_depths a ++ leaf_depths b).
Proof. cbn [leaf_depths map concat]. now rewrite app_nil_r. Qed.

Lemma leaf_depths_leaves t : binary t -> map fst (leaf_depths t) = leaves t.
Proof.
  induction 1 as [n|a b _ IHa _ IHb]; [reflexivity|].
  rewrite leaf_depths_pair, map_map. cbn [fst].
  change (map (fun x : Z * nat => fst x)) with (map (@fst Z nat)).
  rewrite map_app, IHa, IHb. cbn [leaves map concat]. now rewrite app_nil_r.
Qed.

Lemma leaf_depths_shape t : binary t -> shape (map snd (leaf_depths t)).
Proof.
  induction 1 as [n|a b _ IHa _ IHb]; [apply shape_leaf|].
  rewrite leaf_depths_pair, map_map. cbn [snd].
  rewrite <- (map_map snd S), map_app, map_app. now apply shape_node.
Qed.

Lemma tree_cost_leaf w k : tree_cost w (PInt k) = 0.
Proof. unfold tree_cost. cbn. lia. Qed.

Lemma cost_one_deeper w l :
  zsum (map (fun e => Z.of_nat (count_occ Z.eq_dec w (fst e)) * Z.of_nat (snd e))
            (map (fun e : Z * nat => (fst e, S (snd e))) l)) =
  zsum (map (fun e => Z.of_nat (count_occ Z.eq_dec w (fst e)) * Z.of_nat (snd e)) l) +
  occurrences w (map fst l).
Proof.
  induction l as [|[k d] l IH]; [reflexivity|].
  cbn [map fst snd]. rewrite occurrences_cons. cbn [zsum fold_right] in *.
  unfold zsum in IH. rewrite IH. rewrite Nat2Z.inj_succ. unfold zsum. lia.
Qed.

Lemma tree_cost_pair w a b :
  binary a -> binary b ->
  tree_cost w (PList [a; b]) = tree_cost w a + tree_cost w b + weight w a + weight w b.
Proof.
  intros Ha Hb. unfold tree_cost. rewrite leaf_depths_pair, cost_one_deeper.
  rewrite !map_app, zsum_app, occurrences_app.
  rewrite (leaf_depths_leaves a Ha), (leaf_depths_leaves b Hb). unfold weight. lia.
Qed.

Lemma base_cost_perm w sf sf' : Permutation sf sf' -> base_cost w sf = base_cost w sf'.
Proof. intros H. unfold base_cost. apply zsum_perm. now apply Permutation_map. Qed.

Lemma base_cost_app w l1 l2 : base_cost w (l1 ++ l2) = base_cost w l1 + base_cost w l2.
Proof. unfold base_cost. now rewrite map_app, zsum_app. Qed.

(** What the builder makes of a working list costs no more than any tree
    put over the candidates of that list. *)
Lemma build_optimal w n : forall sf first second,
  length sf = n ->
  loop_state (initial_candidates (count_frequency w)) sf ->
  build_loop sf = Ok [first; second] ->
  forall A, Permutation (map fst A) (map cand_freq sf) -> shape (map snd A) ->
  tree_cost w (PList [cand_tree first; cand_tree second]) <= base_cost w sf + assigned_cost A.
Proof.
  induction n as [|n IH]; intros sf first second Hn Hs Hb A HA Hsh.
  - destruct sf; [|discriminate]. rewrite build_loop_unroll in Hb. discriminate.
  - pose proof (loop_state_depth w sf Hs) as Hdf.
    rewrite build_loop_unroll in Hb. destruct (loop_cond sf) eqn:Hc.
    + pose proof Hc as Hc'. apply loop_cond_true in Hc'.
      destruct (last_two sf) as (rest & set2 & set1 & ->); [lia|].
      pose proof (loop_body_snoc rest set2 set1) as Hbody.
      rewrite Hbody in Hb. cbn [rbind] in Hb.
      pose proof (loop_next Hs Hc Hbody) as Hs'.
      pose proof (loop_body_length _ Hc Hbody) as Hlen.
      destruct (@sorted_last_two _ cand_freq rest set2 set1 (@df_sorted _ _ Hdf)) as [H12 Hrest].
      destruct (merge_lowest A (cand_freq set1) (cand_freq set2) (map cand_freq rest))
        as (A' & HA' & Hsh' & Hcost); [| exact H12 | now apply Forall_map | exact Hsh |].
      { eapply Permutation_trans; [exact HA|]. rewrite map_app. cbn [map].
        eapply Permutation_trans; [apply Permutation_app_comm|]. apply perm_swap. }
      assert (Hperm : Permutation (sorted_desc cand_freq (rest ++ [new_branch set1 set2]))
                                  (new_branch set1 set2 :: rest)).
      { eapply Permutation_trans; [apply sorted_desc_perm|].
        apply (Permutation_app_comm rest [new_branch set1 set2]). }
      assert (HA'' : Permutation (map fst A')
                       (map cand_freq (sorted_desc cand_freq (rest ++ [new_branch set1 set2])))).
      { eapply Permutation_trans; [exact HA'|]. symmetry.
        apply (Permutation_map cand_freq Hperm). }
      assert (Hn' : length (sorted_desc cand_freq (rest ++ [new_branch set1 set2])) = n)
        by lia.
      pose proof (IH _ first second Hn' Hs' Hb A' HA'' Hsh') as Hopt.
      rewrite (base_cost_perm w _ _ Hperm) in Hopt.
      change (new_branch set1 set2 :: rest) with ([new_branch set1 set2] ++ rest) in Hopt.
      rewrite base_cost_app in Hopt. rewrite base_cost_app.
      unfold base_cost at 1 in Hopt. cbn [map zsum fold_right] in Hopt.
      unfold base_cost at 2. cbn [map zsum fold_right].
      change (cand_tree (new_branch set1 set2))
        with (PList [cand_tree set1; cand_tree set2]) in Hopt.
      assert (In1 : In set1 (rest ++ [set2; set1])) by (apply in_or_app; right; simpl; auto).
      assert (In2 : In set2 (rest ++ [set2; set1])) by (apply in_or_app; right; simpl; auto).
      rewrite (tree_cost_pair w (cand_tree set1) (cand_tree set2)) in Hopt
        by (apply (@df_binary _ _ Hdf); assumption).
      rewrite <- (@df_weight _ _ Hdf set1 In1), <- (@df_weight _ _ Hdf set2 In2) in Hopt.
      lia.
    + injection Hb as ->.
      destruct (@sorted_last_two _ cand_freq [] first second (@df_sorted _ _ Hdf)) as [H12 _].
      destruct (merge_lowest A (cand_freq second) (cand_freq first) [])
        as (A' & HA' & Hsh' & Hcost); [| exact H12 | constructor | exact Hsh |].
      { eapply Permutation_trans; [exact HA|]. apply perm_swap. }
      assert (HA0 : assigned_cost A' = 0).
      { destruct A' as [|[x d] [|e A']];
          try (apply Permutation_length in HA'; discriminate HA').
        cbn [map snd] in Hsh'. apply shape_single in Hsh'; [|reflexivity].
        injection Hsh' as ->. rewrite assigned_cost_cons. unfold assigned_cost. simpl. lia. }
      assert (In1 : In first [first; second]) by (simpl; auto).
      assert (In2 : In second [first; second]) by (simpl; auto).
      rewrite tree_cost_pair by (apply (@df_binary _ _ Hdf); assumption).
      rewrite <- (@df_weight _ _ Hdf first In1), <- (@df_weight _ _ Hdf second In2).
      unfold base_cost. cbn [map zsum fold_right]. lia.
Qed.

Lemma leaf_depths_cand char : cand_depths (leaf_cand char).
Proof. reflexivity. Qed.

Lemma new_branch_depths set1 set2 :
  NoDup (keys (cand_trace set1) ++ keys (cand_trace set2)) ->
  cand_depths set1 -> cand_depths set2 -> cand_depths (new_branch set1 set2).
Proof.
  unfold cand_depths. intros Hnd H1 H2. rewrite (new_branch_trace set1 set2 Hnd).
  change (cand_tree (new_branch set1 set2)) with (PList [cand_tree set1; cand_tree set2]).
  rewrite leaf_depths_pair, H1, H2. unfold char_count.
  rewrite !map_app, !map_map. reflexivity.
Qed.

Lemma tree_cost_trace w c :
  cand_depths c -> tree_cost w (cand_tree c) = code_cost w (cand_trace c).
Proof.
  unfold cand_depths, tree_cost, code_cost. intros ->. rewrite map_map. reflexivity.
Qed.

Lemma base_cost_initial w : base_cost w (initial_candidates (count_frequency w)) = 0.
Proof.
  unfold base_cost, initial_candidates. rewrite map_map.
  induction (sorted_desc snd (count_frequency w)) as [|char l IH]; [reflexivity|].
  cbn [map]. unfold zsum in *. cbn [fold_right]. rewrite IH.
  change (cand_tree (PInt (fst char), snd char, [(fst char, [])])) with (PInt (fst char)).
  rewrite tree_cost_leaf. reflexivity.
Qed.

Lemma initial_weights w :
  Permutation (map cand_freq (initial_candidates (count_frequency w)))
              (map (fun k => Z.of_nat (count_occ Z.eq_dec w k)) (first_seen w)).
Proof.
  pose proof (weight_inv_initial w) as Hw. unfold weight_inv in Hw.
  destruct (@trace_inv_initial _ (count_frequency_nodup w)) as (_ & _ & Hp).
  rewrite count_frequency_first_seen in Hp.
  eapply Permutation_trans; [|apply Permutation_map; exact Hp].
  assert (Hl : forall c, In c (initial_candidates (count_frequency w)) ->
                         exists char, c = leaf_cand char)
    by (apply initial_candidates_leaf).
  revert Hw Hl. generalize (initial_candidates (count_frequency w)). intros sf Hw Hl.
  induction sf as [|c sf IH]; [constructor|].
  inversion Hw as [|? ? Hc Hw']; subst.
  destruct (Hl c (or_introl eq_refl)) as (char & ->).
  unfold all_keys. cbn [flat_map map]. 
  change (keys (cand_trace (leaf_cand char))) with [fst char].
  change (keys (cand_trace (leaf_cand char))) with [fst char] in Hc.
  rewrite occurrences_cons in Hc. cbn [app map]. rewrite Hc.
  change (occurrences w []) with 0. rewrite Z.add_0_r. apply perm_skip.
  apply IH; [exact Hw'|]. intros c' Hc'. apply Hl. now right.
Qed.

Section Shortest.
Context {codec : TreeCodec}.

(** No binary tree over the byte values of the buffer gives a shorter
    encoding than the tree [compress] builds: the encoded bits are at most
    the occurrences times the depths of the leaves of any such tree. *)
Theorem encoding_is_shortest alt_in self t' :
  let w := worker_of alt_in self in
  let tools := comp_tools (snd (compress alt_in self)) in
  two_distinct w -> binary t' -> Permutation (leaves t') (first_seen w) ->
  exists encoded,
    encode (trace tools) w = Ok encoded /\
    len encoded = tree_cost w (PList (tree tools)) /\
    len encoded <= tree_cost w t'.
Proof.
  intros w tools H2 Hb' Hl'. subst tools.
  destruct (compress_tools alt_in self H2) as (first & second & Hb & ->).
  cbn [trace tree]. fold w in Hb.
  destruct (stages_exist H2) as (first' & second' & encoded & p & ints & S).
  fold w in S. pose proof (st_build S) as Hb2. rewrite Hb in Hb2.
  injection Hb2 as <- <-.
  exists encoded. split; [apply S|].
  destruct (encode_inv _ _ (st_encode S)) as (codes & HF & ->).
  rewrite (@encoded_cost _ _ _ (st_nodup S) HF).
  change (final_trace first second) with (cand_trace (new_branch first second)).
  rewrite <- (tree_cost_trace w (new_branch first second))
    by (apply (@cand_inv_final cand_depths leaf_depths_cand new_branch_depths w first second Hb)).
  change (cand_tree (new_branch first second)) with (PList [cand_tree first; cand_tree second]).
  split; [reflexivity|].
  pose proof (build_optimal w _ _ first second eq_refl (loop_first _) Hb
                (map (fun e => (Z.of_nat (count_occ Z.eq_dec w (fst e)), snd e)) (leaf_depths t')))
    as Hopt.
  rewrite base_cost_initial in Hopt.
  assert (Hc : assigned_cost
                 (map (fun e => (Z.of_nat (count_occ Z.eq_dec w (fst e)), snd e)) (leaf_depths t'))
               = tree_cost w t').
  { unfold assigned_cost, tree_cost. rewrite map_map. reflexivity. }
  rewrite Hc in Hopt. cbn [Z.add] in Hopt. apply Hopt.
  - rewrite map_map. cbn [fst].
    rewrite <- (map_map fst (fun k => Z.of_nat (count_occ Z.eq_dec w k))).
    rewrite (leaf_depths_leaves t' Hb').
    eapply Permutation_trans; [apply Permutation_map; exact Hl'|].
    symmetry. apply initial_weights.
  - rewrite map_map. cbn [snd]. 
    change (map (fun x : Z * nat => snd x)) with (map (@snd Z nat)).
    now apply leaf_depths_shape.
Qed.

End Shortest.

(* ------------------------------------------------------------------ *)
(** ** The further properties on concrete buffers *)

Lemma candidate_frequencies_witness :
  let sf := [new_branch (leaf_cand (99, 3)) (leaf_cand (98, 3)); leaf_cand (97, 3)] in
  Forall (fun c => cand_freq c = occurrences abc9 (keys (cand_trace c))) sf /\
  zsum (map cand_freq sf) = len abc9.
Proof.
  apply (@candidate_frequencies abc9
           [new_branch (leaf_cand (99, 3)) (leaf_cand (98, 3)); leaf_cand (97, 3)]).
  eapply loop_next; [apply loop_first | reflexivity | reflexivity].
Defined.

Lemma stored_tree_shape_witness :
  let tools := comp_tools (snd (@compress list_codec None (new_Huffman abc9))) in
  binary (PList (tree tools)) /\
  leaves (PList (tree tools)) = keys (trace tools) /\
  NoDup (leaves (PList (tree tools))) /\
  (forall k, In k (leaves (PList (tree tools))) <-> In k (worker_of None (new_Huffman abc9))) /\
  (forall k code,
      In (k, code) (trace tools) <-> descend (PList (tree tools)) code = Some (PInt k)).
Proof.
  apply (@stored_tree_shape list_codec None (new_Huffman abc9)).
  exists 97, 98. simpl. repeat split; auto. discriminate.
Defined.

Lemma code_lengths_bounded_witness :
  (1 <= length [c0; c1] <= length (first_seen (worker_of None (new_Huffman abc9))) - 1)%nat /\
  (Forall is_byte (worker_of None (new_Huffman abc9)) -> (length [c0; c1] <= 255)%nat).
Proof.
  apply (@code_lengths_bounded list_codec None (new_Huffman abc9) 98 [c0; c1]).
  - exists 97, 98. simpl. repeat split; auto. discriminate.
  - vm_compute. right. left. reflexivity.
Defined.

Lemma decode_inverts_encode_witness :
  let tools := comp_tools (snd (@compress list_codec None (new_Huffman abc9))) in
  (Forall (fun k => In k (worker_of None (new_Huffman abc9))) [99; 97; 98] ->
   exists encoded,
     encode (trace tools) [99; 97; 98] = Ok encoded /\
     decode_loop (PList (tree tools)) encoded = Ok ([], [99; 97; 98])) /\
  (~ Forall (fun k => In k (worker_of None (new_Huffman abc9))) [99; 97; 98] ->
   encode (trace tools) [99; 97; 98] = Raise KeyError).
Proof.
  apply (@decode_inverts_encode list_codec None (new_Huffman abc9) [99; 97; 98]).
  exists 97, 98. simpl. repeat split; auto. discriminate.
Defined.

Lemma decode_sound_witness :
  let tools := comp_tools (snd (@compress list_codec None (new_Huffman abc9))) in
  decode_loop (PList (tree tools)) [c0; c1; c1] = Raise IndexError \/
  exists m,
    decode_loop (PList (tree tools)) [c0; c1; c1] = Ok ([], m) /\
    encode (trace tools) m = Ok [c0; c1; c1].
Proof.
  apply (@decode_sound list_codec None (new_Huffman abc9) [c0; c1; c1]).
  - exists 97, 98. simpl. repeat split; auto. discriminate.
  - constructor; [now left|]. constructor; [now right|]. constructor; [now right|]. constructor.
Defined.

Lemma decode_truncated_witness :
  decode_loop (PList (tree (comp_tools (snd (@compress list_codec None (new_Huffman abc9))))))
              ([c1] ++ [c0]) = Raise IndexError.
Proof.
  apply (@decode_truncated list_codec None (new_Huffman abc9) [97] [c1] 99 [c0] [c0]).
  - exists 97, 98. simpl. repeat split; auto. discriminate.
  - vm_compute. reflexivity.
  - vm_compute. left. reflexivity.
  - discriminate.
  - discriminate.
Defined.

Lemma frame_size_witness :
  exists encoded,
    encode (trace (comp_tools (snd (@compress list_codec None (new_Huffman abc9)))))
           (worker (snd (@compress list_codec None (new_Huffman abc9)))) = Ok encoded /\
    len encoded =
      code_cost (worker (snd (@compress list_codec None (new_Huffman abc9))))
                (trace (comp_tools (snd (@compress list_codec None (new_Huffman abc9))))) /\
    len (output (snd (@compress list_codec None (new_Huffman abc9)))) =
      3 + len (@dumps list_codec
                 (PList (tree (comp_tools (snd (@compress list_codec None (new_Huffman abc9)))))))
        + (len encoded + 7) / 8.
Proof.
  apply (@frame_size list_codec None (new_Huffman abc9)).
  vm_compute. reflexivity.
Defined.

Lemma decompress_padding_unchecked_witness :
  @decompress list_codec None (new_Huffman (frame [93; 2; 75; 97; 75; 98; 46] 9 [85])) =
  (Ok tt, {| worker := worker_of None (new_Huffman (frame [93; 2; 75; 97; 75; 98; 46] 9 [85]));
             output := [];
             comp_tools :=
               comp_tools (snd (use_alt_in None
                                  (new_Huffman (frame [93; 2; 75; 97; 75; 98; 46] 9 [85])))) |}).
Proof.
  apply (@decompress_padding_unchecked list_codec None
           (new_Huffman (frame [93; 2; 75; 97; 75; 98; 46] 9 [85]))
           (PList [PInt 97; PInt 98]) 9 [85]).
  - vm_compute. reflexivity.
  - repeat constructor; vm_compute; discriminate.
  - vm_compute. discriminate.
Defined.

Lemma more_frequent_not_longer_witness :
  (length [c0] <= length [c1; c1])%nat.
Proof.
  apply (@more_frequent_not_longer list_codec None (new_Huffman [97; 97; 97; 98; 99])
           98 [c1; c1] 97 [c0]).
  - exists 97, 98. simpl. repeat split; auto. discriminate.
  - vm_compute. right. right. left. reflexivity.
  - vm_compute. left. reflexivity.
  - vm_compute. lia.
Defined.

Lemma encoding_is_shortest_witness :
  let w := worker_of None (new_Huffman [97; 97; 97; 98; 99]) in
  let tools := comp_tools (snd (@compress list_codec None (new_Huffman [97; 97; 97; 98; 99]))) in
  exists encoded,
    encode (trace tools) w = Ok encoded /\
    len encoded = tree_cost w (PList (tree tools)) /\
    len encoded <= tree_cost w (PList [PList [PInt 97; PInt 98]; PInt 99]).
Proof.
  apply (@encoding_is_shortest list_codec None (new_Huffman [97; 97; 97; 98; 99])
           (PList [PList [PInt 97; PInt 98]; PInt 99])).
  - exists 97, 98. simpl. repeat split; auto. discriminate.
  - repeat constructor.
  - apply Permutation_refl.
Defined.


